(** * Label sets, metric families and the family registry

    A shallow embedding of the instrumentation core of [prometheus/new]:
    [dump.go] (label pairs, their order and fingerprint), [counter.go]
    (partials, counters, counter families), [summary.go] (metric options
    and name derivation) and the registry.

    Conventions.
    - Go [string] is [string]; the comparison [<] on Go strings is bytewise
      lexicographic, which is [String.compare].
    - [uint64] is [Z] with the wrap-around modulo [2^64] written out.
    - [int] positions are [Z]; slice expressions check their bounds.
    - [map[uint64]int] is [gmap Z Z]; [map[string]bool] used as a set is
      [gset string].
    - [*counter] is a location in a store of counters, so that two results
      of [Apply] can be compared for identity.
    - [labelPairs] is a list of pairs where a function only reads it; the
      slice a partial and its counter share is modelled with its backing
      array, length and capacity.
    - [panic] is an outcome that carries the state reached when it fired.
    - The [sync.RWMutex] fields only serialise callers; every operation
      below is one critical section and the locks are not represented. *)

From Stdlib Require Import ZArith List Ascii String Permutation Sorted Lia Bool.
From Stdlib Require Import Floats DecimalString.
From stdpp Require Import gmap strings list fin_maps sorting.
From Stdlib Require DecimalFacts DecimalPos DecimalN.

Local Open Scope string_scope.
Local Open Scope Z_scope.
Local Open Scope list_scope.

(** * Part I: the program *)

(** ** Go strings: order *)

Module GoString.

(** [a < b] on Go strings. *)
Definition lt (a b : string) : bool := String.ltb a b.

(** The bytes of a string, as [uint64] operands. *)
Definition bytes (s : string) : list Z :=
  map (fun c => Z.of_N (N_of_ascii c)) (list_ascii_of_string s).

End GoString.

(** ** hash/fnv: the 64-bit FNV-1a digest *)

Module fnv.

Definition offset64 : Z := 14695981039346656037.
Definition prime64 : Z := 1099511628211.
Definition two64 : Z := 2 ^ 64.

(** One step of [sum64a.Write]: [hash ^= uint64(c); hash *= prime64]. *)
Definition step (hash c : Z) : Z := (Z.lxor hash c * prime64) mod two64.

(** [Write] over a byte string, from the digest state [hash]. *)
Definition Write (hash : Z) (s : string) : Z :=
  fold_left step (GoString.bytes s) hash.

Definition New64a : Z := offset64.
Definition Sum64 (hash : Z) : Z := hash.

End fnv.

(** ** dump.go: label pairs *)

Record labelPair := { Name : string; Value : string }.

Definition labelPairs := list labelPair.

(** [func (l *labelPair) Before(o *labelPair) bool] *)
Definition labelPair_Before (l o : labelPair) : bool :=
  if GoString.lt (Name l) (Name o) then true
  else if GoString.lt (Name o) (Name l) then false
  else if GoString.lt (Value l) (Value o) then true
  else false.

(** [func (l *labelPair) String() string]: [fmt.Sprintf("%s=%s", ...)]. *)
Definition labelPair_String (l : labelPair) : string :=
  Name l +:+ "=" +:+ Value l.

(** ** Panics

    Each constructor is one [panic] site of the sources (or a run-time
    panic of the Go language); the message is given next to it. *)

Inductive panic :=
| IllegalLabelsWrongDimensions
    (* "illegal labels: wrong dimensions" *)
| IllegalLabelsUndeclared (p : labelPair)
    (* "illegal labels: %s does not match defined dimensions" *)
| IllegalLabelsOdd (labels : list string)
    (* "illegal labels: %s" *)
| MissingFingerprint
    (* "illegal invariant: missing fingerprint" *)
| AlreadyRegistered (familyName : string)
    (* "illegal metric: %s is already registered", where [%s] formats the
       family that was refused; the constructor carries its name *)
| IllegalName
    (* "illegal Name; one must be provided" *)
| IllegalHelp
    (* "illegal Help; documentation must be provided" *)
| IndexOutOfRange
    (* runtime error: index out of range *)
| SliceBoundsOutOfRange
    (* runtime error: slice bounds out of range *)
| NilDereference
    (* runtime error: invalid memory address or nil pointer dereference *)
| MakeSliceCapOutOfRange.
    (* runtime error: makeslice: cap out of range *)

(** The error classes of the design (section 7 of the specification). *)
Definition isValidationError (e : panic) : bool :=
  match e with
  | IllegalLabelsWrongDimensions | IllegalLabelsUndeclared _ => true
  | _ => false
  end.

Definition isInvariantViolation (e : panic) : bool :=
  match e with
  | MissingFingerprint | AlreadyRegistered _ => true
  | _ => false
  end.

(** A value or a panic, for the pure helpers. *)
Inductive try (A : Type) :=
| Val (a : A)
| Raise (e : panic).
Arguments Val {A} a.
Arguments Raise {A} e.

(** [func (l labelPairs) Before(o labelPairs) bool]: the loop ranges over
    [l] and indexes [o], so a shorter [o] is an index out of range. *)
Fixpoint labelPairs_Before (l o : labelPairs) : try bool :=
  match l with
  | [] => Val false
  | p :: l' =>
    match o with
    | [] => Raise IndexOutOfRange
    | oi :: o' =>
      if labelPair_Before p oi then Val true
      else labelPairs_Before l' o'
    end
  end.

(** [func (l labelPairs) Less(i, j int) bool], on the two elements. *)
Definition labelPairs_Less (li lj : labelPair) : try bool :=
  Val (labelPair_Before li lj).

(** [func (l labelPairs) fingerprint() uint64]: [fmt.Fprint] of two
    string operands writes them with no space in between. *)
Definition labelPairs_fingerprint (l : labelPairs) : Z :=
  fnv.Sum64
    (fold_left (fun digest p => fnv.Write digest (Name p +:+ Value p))
       l fnv.New64a).

Definition labelPairs_Strings (l : labelPairs) : list string :=
  map labelPair_String l.

(** [strings.Join(a, sep)] *)
Fixpoint strings_Join (a : list string) (sep : string) : string :=
  match a with
  | [] => ""
  | [s] => s
  | s :: rest => s +:+ sep +:+ strings_Join rest sep
  end.

Definition labelPairs_String (l : labelPairs) : string :=
  strings_Join (labelPairs_Strings l) ",".

(** ** sort: [IsSorted] and [Sort]

    The package is Go's standard library. [Sort] moves elements only by
    [Swap] and decides only by [Less]. On a slice of at most six elements
    it is, in every release of Go, the insertion sort below; on a longer
    slice the algorithm depends on the release, but for a [Less] that is a
    strict total order every sorting algorithm returns the same slice
    ([sortFacts.Sort_unique] in Part II). A panic of [Less] leaves the
    slice as the swaps made so far have left it. *)

Module sort.
Section Interface.
Context {A : Type} (Less : A -> A -> try bool).

(** [for i := n - 1; i > 0; i-- { if data.Less(i, i-1) { return false } }] *)
Fixpoint IsSorted_from (prev : A) (l : list A) : try bool :=
  match l with
  | [] => Val true
  | x :: l' =>
    match IsSorted_from x l' with
    | Val true =>
      match Less x prev with
      | Val b => Val (negb b)
      | Raise e => Raise e
      end
    | r => r
    end
  end.

Definition IsSorted (l : list A) : try bool :=
  match l with
  | [] => Val true
  | x :: l' => IsSorted_from x l'
  end.

(** The inner loop of [insertionSort]:
    [for j := i; j > a && data.Less(j, j-1); j-- { data.Swap(j, j-1) }].
    [rp] is the sorted prefix, reversed; the result is the new prefix,
    reversed, and the panic of [Less] if there was one. *)
Fixpoint sink (x : A) (rp : list A) : list A * option panic :=
  match rp with
  | [] => ([x], None)
  | y :: ys =>
    match Less x y with
    | Raise e => (x :: y :: ys, Some e)
    | Val true => let '(r, e) := sink x ys in (y :: r, e)
    | Val false => (x :: y :: ys, None)
    end
  end.

Fixpoint insertionSort (rp rest : list A) : list A * option panic :=
  match rest with
  | [] => (rev rp, None)
  | x :: rest' =>
    match sink x rp with
    | (rp', None) => insertionSort rp' rest'
    | (rp', Some e) => (rev rp' ++ rest', Some e)
    end
  end.

Definition Sort (l : list A) : list A * option panic := insertionSort [] l.

End Interface.
End sort.

(** ** State and panics: a small monad

    A computation over a state [S] ends with a value or with a panic, and
    in both cases with the state it has reached: a Go panic does not undo
    the assignments made before it. *)

Inductive result (S A : Type) :=
| Ok (a : A) (s : S)
| Panic (e : panic) (s : S).
Arguments Ok {S A} a s.
Arguments Panic {S A} e s.

Definition M (S A : Type) : Type := S -> result S A.

Definition ret {S A} (a : A) : M S A := fun s => Ok a s.

Definition bind {S A B} (c : M S A) (k : A -> M S B) : M S B :=
  fun s =>
    match c s with
    | Ok a s' => k a s'
    | Panic e s' => Panic e s'
    end.

Definition throw {S A} (e : panic) : M S A := fun s => Panic e s.

Definition lift {S A} (t : try A) : M S A :=
  match t with
  | Val a => ret a
  | Raise e => throw e
  end.

Notation "x <- c ;; k" := (bind c (fun x => k))
  (at level 100, c at next level, right associativity).
Notation "c ;;; k" := (bind c (fun _ => k))
  (at level 100, right associativity).

(** The state a computation ends in. *)
Definition final {S A} (r : result S A) : S :=
  match r with
  | Ok _ s => s
  | Panic _ s => s
  end.

(** ** Slices

    [a[i]] and [a[lo:hi]] with their bounds checks. Go checks the upper
    bound of a slice expression against the capacity; [slice] checks it
    against the length. [forget] is the only user, and there an upper
    bound between length and capacity can only occur in
    [f.children[:index-1]] of the [default] case, where the next
    expression [f.children[index+1:]] then panics with the same run-time
    error before anything is assigned. *)

Definition index {A} (a : list A) (i : Z) : option A :=
  if i <? 0 then None else a !! Z.to_nat i.

Definition len {A} (a : list A) : Z := Z.of_nat (length a).

Definition slice {A} (a : list A) (lo hi : Z) : option (list A) :=
  if (0 <=? lo) && (lo <=? hi) && (hi <=? len a)
  then Some (take (Z.to_nat (hi - lo)) (drop (Z.to_nat lo) a))
  else None.

(** ** summary.go: metric options *)

Record MetricOptions := {
  MetricOptions_Name : string;
  Subsystem : string;
  Namespace : string;
  Dimensions : list string;
  Help : string
}.

Definition familyName := string.

Definition nonempty (s : string) : bool := negb (String.eqb s "").

(** [func (o *MetricOptions) deriveName() familyName] *)
Definition MetricOptions_deriveName (o : MetricOptions) : familyName :=
  if nonempty (Namespace o) && nonempty (Subsystem o)
  then Namespace o +:+ "_" +:+ Subsystem o +:+ "_" +:+ MetricOptions_Name o
  else if nonempty (Namespace o)
  then Namespace o +:+ "_" +:+ MetricOptions_Name o
  else if nonempty (Subsystem o)
  then Subsystem o +:+ "_" +:+ MetricOptions_Name o
  else MetricOptions_Name o.

(** [func (o *MetricOptions) validate()] *)
Definition MetricOptions_validate (o : MetricOptions) : try unit :=
  if String.eqb (MetricOptions_Name o) "" then Raise IllegalName
  else if String.eqb (Help o) "" then Raise IllegalHelp
  else Val tt.

(** [func (n familyName) fingerprint() uint64]. No constructor of a family
    calls it. *)
Definition familyName_fingerprint (n : familyName) : Z :=
  fnv.Sum64 (fnv.Write fnv.New64a n).

(** ** fmt: the verb [%f] on a [float64]

    [float64] is IEEE 754 binary64, which is [PrimFloat.float]. [%f]
    prints the exact decimal value of the number rounded to six digits
    after the point, ties to even. *)

Module fmt.

Definition decimal (n : Z) : string :=
  NilZero.string_of_uint (N.to_uint (Z.to_N n)).

Definition zeros (n : nat) : string :=
  string_of_list_ascii (repeat "0"%char n).

Definition pad6 (s : string) : string :=
  zeros (6 - String.length s) +:+ s.

Definition roundHalfEven (num den : Z) : Z :=
  let q := num / den in
  let r := num mod den in
  if 2 * r <? den then q
  else if den <? 2 * r then q + 1
  else if Z.even q then q else q + 1.

Definition fixed6 (millionths : Z) : string :=
  decimal (millionths / 1000000) +:+ "." +:+
  pad6 (decimal (millionths mod 1000000)).

Definition sign (s : bool) : string := if s then "-" else "".

Definition f (x : float) : string :=
  match Prim2SF x with
  | S754_nan => "NaN"
  | S754_infinity s => if s then "-Inf" else "+Inf"
  | S754_zero s => sign s +:+ fixed6 0
  | S754_finite s m e =>
    sign s +:+
    fixed6 (if 0 <=? e
            then Z.pos m * 2 ^ e * 1000000
            else roundHalfEven (Z.pos m * 1000000) (2 ^ (- e)))
  end.

End fmt.

(** ** counter.go: options, counters, families *)

Record CounterOptions := {
  CounterOptions_MetricOptions : MetricOptions;
  DefaultValue : float
}.

(** [*counter]: a location of the counter store. *)
Definition loc := nat.

(** [type counter struct]. The [parent] of a counter is the family of the
    world it lives in. *)
Record counter := {
  Labels : labelPairs;
  counter_Value : float;
  counter_fingerprint : Z
}.

(** [type counterFamily struct]. [fp] is the field [fingerprint()]
    returns. *)
Record counterFamily := {
  children : list loc;
  childrenSet : gmap Z Z;
  options : CounterOptions;
  name : familyName;
  fp : Z
}.

(** A family, the counters it points to, and the next free location. *)
Record world := {
  heap : gmap loc counter;
  next : loc;
  family : counterFamily
}.

Definition set_family (w : world) (f : counterFamily) : world :=
  {| heap := heap w; next := next w; family := f |}.

Definition set_children (f : counterFamily) (cs : list loc) : counterFamily :=
  {| children := cs; childrenSet := childrenSet f;
     options := options f; name := name f; fp := fp f |}.

Definition set_childrenSet (f : counterFamily) (m : gmap Z Z) : counterFamily :=
  {| children := children f; childrenSet := m;
     options := options f; name := name f; fp := fp f |}.

Definition set_Value (c : counter) (v : float) : counter :=
  {| Labels := Labels c; counter_Value := v;
     counter_fingerprint := counter_fingerprint c |}.

Definition deref (p : loc) : M world counter :=
  fun w =>
    match heap w !! p with
    | Some c => Ok c w
    | None => Panic NilDereference w
    end.

(** [&counter{...}] *)
Definition alloc (c : counter) : M world loc :=
  fun w =>
    Ok (next w)
       {| heap := <[next w := c]> (heap w); next := S (next w);
          family := family w |}.

Definition update (p : loc) (g : counter -> counter) : M world unit :=
  fun w =>
    match heap w !! p with
    | Some c =>
      Ok tt {| heap := <[p := g c]> (heap w); next := next w;
               family := family w |}
    | None => Panic NilDereference w
    end.

(** [func (c *counter) Before(o *counter) bool], as [counterChildren.Less]
    calls it on two children. *)
Definition counterChildren_Less (h : gmap loc counter) (ci cj : loc) : try bool :=
  match h !! ci, h !! cj with
  | Some c, Some o => labelPairs_Before (Labels c) (Labels o)
  | _, _ => Raise NilDereference
  end.

(** [func (f *counterFamily) find(fingerprint uint64)], returning a counter
    and a flag;
    [(nil, false)] is [None]. *)
Definition counterFamily_find (fingerprint : Z) : M world (option loc) :=
  fun w =>
    match childrenSet (family w) !! fingerprint with
    | None => Ok None w
    | Some i =>
      match index (children (family w)) i with
      | Some c => Ok (Some c) w
      | None => Panic IndexOutOfRange w
      end
    end.

(** [for i, c := range f.children { f.childrenSet[c.fingerprint] = i }] *)
Fixpoint reindex (h : gmap loc counter) (cs : list loc) (i : Z) (m : gmap Z Z)
  : gmap Z Z * option panic :=
  match cs with
  | [] => (m, None)
  | c :: cs' =>
    match h !! c with
    | Some cv => reindex h cs' (i + 1) (<[counter_fingerprint cv := i]> m)
    | None => (m, Some NilDereference)
    end
  end.

(** [func (f *counterFamily) register(c *counter)] *)
Definition counterFamily_register (c : loc) : M world unit :=
  fun w =>
    let f := family w in
    match sort.Sort (counterChildren_Less (heap w)) (children f ++ [c]) with
    | (cs, Some e) => Panic e (set_family w (set_children f cs))
    | (cs, None) =>
      let f1 := set_children f cs in
      match reindex (heap w) cs 0 (childrenSet f1) with
      | (m, Some e) => Panic e (set_family w (set_childrenSet f1 m))
      | (m, None) => Ok tt (set_family w (set_childrenSet f1 m))
      end
    end.

(** [func (f *counterFamily) forget(fingerprint uint64)]; [gaugeFamily]
    and [summaryFamily] have the same function, with the type of the
    children renamed. *)
Definition counterFamily_forget (fingerprint : Z) : M world unit :=
  fun w =>
    let f := family w in
    match childrenSet f !! fingerprint with
    | None => Panic MissingFingerprint w
    | Some i =>
      let f1 := set_childrenSet f (delete fingerprint (childrenSet f)) in
      let stop := Panic SliceBoundsOutOfRange (set_family w f1) in
      let done cs := Ok tt (set_family w (set_children f1 cs)) in
      if i =? 0 then
        match slice (children f) 1 (len (children f)) with
        | Some cs => done cs
        | None => stop
        end
      else if i =? len (children f) - 1 then
        match slice (children f) 0 (i - 1) with
        | Some cs => done cs
        | None => stop
        end
      else if len (children f) - 1 <? 0 then
        Panic MakeSliceCapOutOfRange (set_family w f1)
      else
        match slice (children f) 0 (i - 1) with
        | Some before =>
          match slice (children f) (i + 1) (len (children f)) with
          | Some after => done (before ++ after)
          | None => stop
          end
        | None => stop
        end
    end.

(** [func (f *counterFamily) ForgetAll()] *)
Definition counterFamily_ForgetAll : M world unit :=
  fun w => Ok tt (set_family w (set_childrenSet (set_children (family w) []) ∅)).

(** [func (c *counter) Reset()] *)
Definition counter_Reset (c : loc) : M world unit :=
  fun w => update c (fun cv => set_Value cv (DefaultValue (options (family w)))) w.

(** [func (f *counterFamily) ResetAll()] *)
Fixpoint ResetAll_loop (cs : list loc) : M world unit :=
  match cs with
  | [] => ret tt
  | c :: cs' => counter_Reset c ;;; ResetAll_loop cs'
  end.

Definition counterFamily_ResetAll : M world unit :=
  fun w => ResetAll_loop (children (family w)) w.

(** [func (f *counterFamily) shouldDump] (the options are not looked at) *)
Definition counterFamily_shouldDump (w : world) : bool :=
  0 <? len (children (family w)).

(** The mutations of a counter. *)
Definition counter_Increment (c : loc) : M world unit :=
  update c (fun cv => set_Value cv (counter_Value cv + 1)%float).
Definition counter_IncrementBy (c : loc) (v : float) : M world unit :=
  update c (fun cv => set_Value cv (counter_Value cv + v)%float).
Definition counter_Decrement (c : loc) : M world unit :=
  update c (fun cv => set_Value cv (counter_Value cv - 1)%float).
Definition counter_DecrementBy (c : loc) (v : float) : M world unit :=
  update c (fun cv => set_Value cv (counter_Value cv - v)%float).
Definition counter_Set (c : loc) (v : float) : M world unit :=
  update c (fun cv => set_Value cv v).

(** [func (c *counter) Forget()] *)
Definition counter_Forget (c : loc) : M world unit :=
  cv <- deref c ;; counterFamily_forget (counter_fingerprint cv).

(** [func (c *counter) asText() string]: [fmt.Sprintf("{%s}: %f", ...)];
    [labelPairs] is a [Stringer]. *)
Definition counter_asText (c : counter) : string :=
  "{" +:+ labelPairs_String (Labels c) +:+ "}: " +:+ fmt.f (counter_Value c).

(** [func (f *counterFamily) dumpText(w io.Writer, o *dumpOptions) error]:
    one [fmt.Fprintf(w, "%s%s\n", f.name, child.asText())] per child, and
    the first error of the writer ends the loop. The writer is any state
    [W] with a [Write] that may fail with an error [E]. *)
Section Dump.
Context {W E : Type} (Write : string -> W -> W * option E).

Definition newline : string := String (ascii_of_nat 10) "".

Fixpoint dumpText_loop (h : gmap loc counter) (nm : familyName)
    (cs : list loc) : M W (option E) :=
  match cs with
  | [] => ret None
  | child :: cs' =>
    fun w =>
      match h !! child with
      | None => Panic NilDereference w
      | Some c =>
        match Write (nm +:+ counter_asText c +:+ newline) w with
        | (w', Some err) => Ok (Some err) w'
        | (w', None) => dumpText_loop h nm cs' w'
        end
      end
  end.

Definition counterFamily_dumpText (st : world) : M W (option E) :=
  dumpText_loop (heap st) (name (family st)) (children (family st)).

End Dump.

(** A writer that appends to a buffer and never fails, as [bytes.Buffer]. *)
Definition Buffer_Write (s : string) (buf : string) : string * option Empty_set :=
  (buf +:+ s, None).

(** ** counter.go: partials *)

(** [type counterPartial struct]; the [parent] is the family of the
    world. Here a partial is the value of its [labels]: what
    [NewChild(...)] has built and [Apply] is called on once. Partials as
    objects that are extended and applied again, with the array their
    labels share with the counter, are in the store further down. *)
Record counterPartial := { labels : labelPairs }.

(** The loop of [NewChild] and [With]:
    [for i := 0; i < len(labels); i += 2 { ... labels[i], labels[i+1] ... }],
    on an even number of strings. *)
Fixpoint pairUp (ls : list string) : labelPairs :=
  match ls with
  | n :: v :: rest => {| Name := n; Value := v |} :: pairUp rest
  | _ => []
  end.

Definition odd_len (ls : list string) : bool := Nat.odd (length ls).

(** [func (f *counterFamily) NewChild(labels ...string) CounterPartial] *)
Definition counterFamily_NewChild (ls : list string) : try counterPartial :=
  if odd_len ls then Raise (IllegalLabelsOdd ls)
  else Val {| labels := pairUp ls |}.

(** [func (p *counterPartial) With(labels ...string)] *)
Definition counterPartial_With (p : counterPartial) (ls : list string)
  : try counterPartial :=
  if odd_len ls then Raise (IllegalLabelsOdd ls)
  else Val {| labels := labels p ++ pairUp ls |}.

(** [func (p *counterPartial) Clone() CounterPartial] *)
Definition counterPartial_Clone (p : counterPartial) : counterPartial :=
  {| labels := labels p |}.

(** The second loop of [validate], over the set of dimensions not yet
    accounted for. *)
Fixpoint validate_loop (unaccountedForDimensions : gset string)
    (ls : labelPairs) : try unit :=
  match ls with
  | [] => Val tt
  | p :: ls' =>
    if decide (Name p ∈ unaccountedForDimensions)
    then validate_loop (unaccountedForDimensions ∖ {[Name p]}) ls'
    else Raise (IllegalLabelsUndeclared p)
  end.

(** [func (p *counterPartial) validate()] *)
Definition counterPartial_validate (dims : list string) (ls : labelPairs)
  : try unit :=
  if negb (len ls =? len dims) then Raise IllegalLabelsWrongDimensions
  else validate_loop (list_to_set dims) ls.

(** [if !sort.IsSorted(p.labels) { sort.Sort(p.labels) }]: the labels of
    the partial after the first statement of [Apply]. *)
Definition canonicalize (ls : labelPairs) : labelPairs :=
  match sort.IsSorted labelPairs_Less ls with
  | Val true => ls
  | _ => fst (sort.Sort labelPairs_Less ls)
  end.

(** [func (p *counterPartial) Apply() Counter] *)
Definition counterPartial_Apply (p : counterPartial) : M world loc :=
  let sorted := canonicalize (labels p) in
  let fingerprint := labelPairs_fingerprint sorted in
  found <- counterFamily_find fingerprint ;;
  match found with
  | Some c => ret c
  | None =>
    fun w =>
      (lift (counterPartial_validate
               (Dimensions (CounterOptions_MetricOptions (options (family w))))
               sorted) ;;;
       c <- alloc {| Labels := sorted;
                     counter_Value := DefaultValue (options (family w));
                     counter_fingerprint := fingerprint |} ;;
       counterFamily_register c ;;;
       ret c) w
  end.

(** ** The registry *)

(** What the registry asks of a [Family]: its name and its fingerprint. *)
Record Family := {
  Family_familyName : familyName;
  Family_fingerprint : Z
}.

(** [func (f *counterFamily) familyName()] and [fingerprint()]. *)
Definition counterFamily_Family (f : counterFamily) : Family :=
  {| Family_familyName := name f; Family_fingerprint := fp f |}.

Record registry := {
  families : list Family;
  familiesSet : gmap Z Z
}.

(** [func (f families) Less(i, j int) bool] *)
Definition families_Less (fi fj : Family) : try bool :=
  Val (GoString.lt (Family_familyName fi) (Family_familyName fj)).

(** [for i, f := range r.families { r.familiesSet[f.fingerprint()] = i }] *)
Fixpoint reindexFamilies (fs : list Family) (i : Z) (m : gmap Z Z) : gmap Z Z :=
  match fs with
  | [] => m
  | f :: fs' => reindexFamilies fs' (i + 1) (<[Family_fingerprint f := i]> m)
  end.

(** [func (r *registry) register(f Family)] *)
Definition registry_register (f : Family) : M registry unit :=
  fun r =>
    match familiesSet r !! Family_fingerprint f with
    | Some _ => Panic (AlreadyRegistered (Family_familyName f)) r
    | None =>
      let fs := fst (sort.Sort families_Less (families r ++ [f])) in
      Ok tt {| families := fs;
               familiesSet := reindexFamilies fs 0 (familiesSet r) |}
    end.

(** [func newRegistry() *registry] *)
Definition newRegistry : registry :=
  {| families := []; familiesSet := ∅ |}.

(** The struct literal of [NewCounterFamily]: [fp] is not among its
    fields, so it has the zero value. [NewGaugeFamily] and
    [NewSummaryFamily] build their families the same way. *)
Definition counterFamily_literal (o : CounterOptions) : counterFamily :=
  {| children := [];
     childrenSet := ∅;
     options := o;
     name := MetricOptions_deriveName (CounterOptions_MetricOptions o);
     fp := 0 |}.

(** [func NewCounterFamily(o CounterOptions) CounterFamily], on the
    registry it registers into. *)
Definition NewCounterFamily (o : CounterOptions) : M registry counterFamily :=
  lift (MetricOptions_validate (CounterOptions_MetricOptions o)) ;;;
  registry_register (counterFamily_Family (counterFamily_literal o)) ;;;
  ret (counterFamily_literal o).

(** The world of a family that has no child yet. *)
Definition newWorld (f : counterFamily) : world :=
  {| heap := ∅; next := 0%nat; family := f |}.

(** ** Vocabulary of the specification *)

(** [a] is not after [b], for a comparison [lt]. *)
Definition notAfter {A} (lt : A -> A -> bool) (a b : A) : Prop := lt b a = false.

(** A label set in canonical form: ascending by [(name, value)]. *)
Definition canonical (l : labelPairs) : Prop :=
  StronglySorted (notAfter labelPair_Before) l.

Definition names (l : labelPairs) : list string := map Name l.

(** The label set has exactly one pair per declared dimension: as many
    pairs as dimensions, no name twice, no name that is not declared. *)
Definition matchesDimensions (dims : list string) (l : labelPairs) : Prop :=
  length l = length dims /\ NoDup (names l) /\ incl (names l) dims.

(** The flat argument list [name, value, name, value, ...] of [NewChild]. *)
Definition flatten (l : labelPairs) : list string :=
  flat_map (fun p => [Name p; Value p]) l.

(** The registries the program can build: [newRegistry()], and what a
    call of [register] leaves behind, whether it returned or panicked. *)
Inductive registered : registry -> Prop :=
| registered_new : registered newRegistry
| registered_step (r : registry) (f : Family) :
    registered r -> registered (final (registry_register f r)).

(** What a caller can do with a family and the counters it has handed
    out. *)
Inductive op :=
| OpApply (p : counterPartial)
| OpIncrement (c : loc)
| OpIncrementBy (c : loc) (v : float)
| OpDecrement (c : loc)
| OpDecrementBy (c : loc) (v : float)
| OpSet (c : loc) (v : float)
| OpReset (c : loc)
| OpForget (c : loc)
| OpForgetAll
| OpResetAll.

Definition run (o : op) : M world unit :=
  match o with
  | OpApply p => counterPartial_Apply p ;;; ret tt
  | OpIncrement c => counter_Increment c
  | OpIncrementBy c v => counter_IncrementBy c v
  | OpDecrement c => counter_Decrement c
  | OpDecrementBy c v => counter_DecrementBy c v
  | OpSet c v => counter_Set c v
  | OpReset c => counter_Reset c
  | OpForget c => counter_Forget c
  | OpForgetAll => counterFamily_ForgetAll
  | OpResetAll => counterFamily_ResetAll
  end.

Definition runAll (ops : list op) (w : world) : world :=
  fold_left (fun w o => final (run o w)) ops w.

(** The states of a family declared with the options [o]: the new family,
    and what any operation leaves behind, whether it returned or
    panicked. *)
Inductive reachable (o : CounterOptions) : world -> Prop :=
| reachable_new : reachable o (newWorld (counterFamily_literal o))
| reachable_step (w : world) (a : op) :
    reachable o w -> reachable o (final (run a w)).

(** The order on label sets of section 4.1: decided at the first position
    where the two sequences differ, by [(name, value)]. *)
Fixpoint lexBefore (l o : labelPairs) : bool :=
  match l, o with
  | p :: l', q :: o' =>
    if labelPair_Before p q then true
    else if labelPair_Before q p then false
    else lexBefore l' o'
  | _, _ => false
  end.

(** The invariant of section 3 on a family, in three parts. *)
Definition childrenSorted (w : world) : Prop :=
  forall i j p q c d,
    (i < j)%nat ->
    children (family w) !! i = Some p -> children (family w) !! j = Some q ->
    heap w !! p = Some c -> heap w !! q = Some d ->
    lexBefore (Labels d) (Labels c) = false.

Definition indexConsistent (w : world) : Prop :=
  forall i p c,
    children (family w) !! i = Some p -> heap w !! p = Some c ->
    childrenSet (family w) !! counter_fingerprint c = Some (Z.of_nat i).

Definition indexLive (w : world) : Prop :=
  forall fingerprint,
    is_Some (childrenSet (family w) !! fingerprint) <->
    exists p c, p ∈ children (family w) /\ heap w !! p = Some c /\
                counter_fingerprint c = fingerprint.

Definition familyInvariant (w : world) : Prop :=
  childrenSorted w /\ indexConsistent w /\ indexLive w.

(** One line of the text dump, as section 6 describes it. *)
Definition textLine (nm : familyName) (c : counter) : string :=
  nm +:+ "{" +:+
  strings_Join (map (fun p => Name p +:+ "=" +:+ Value p) (Labels c)) "," +:+
  "}: " +:+ fmt.f (counter_Value c) +:+ newline.

(** Every child of the family is a counter of the store, and every
    counter of the store carries a canonical label set. *)
Definition wellFormed (w : world) : Prop :=
  (forall p, p ∈ children (family w) -> is_Some (heap w !! p)) /\
  (forall p c, heap w !! p = Some c -> canonical (Labels c)).

(** The lines of a dump, one after the other. *)
Definition joinLines (ls : list string) : string :=
  fold_right String.append "" ls.

(** ** The line of the text dump, in the words of the specification

    Section 6: one line per instance,
    [<family-name>{<sorted label=value pairs, comma-joined>}: <numeric
    value, fixed-point>]. The definitions below say what these words
    mean without the functions of the program: they are what the output
    of [dumpText] is compared with. *)

(** The items with a comma between each two of them. *)
Definition commaJoined (items : list string) : string :=
  match items with
  | [] => ""
  | first :: others =>
    first +:+ fold_right (fun item rest => "," +:+ item +:+ rest) "" others
  end.

(** The digit a character stands for. *)
Definition digitValue (c : ascii) : option Z :=
  let n := Z.of_nat (nat_of_ascii c) in
  if (48 <=? n) && (n <=? 57) then Some (n - 48) else None.

(** The number a string of decimal digits denotes, read from the left. *)
Fixpoint numeralValue_from (acc : Z) (s : string) : option Z :=
  match s with
  | "" => Some acc
  | String c s' =>
    match digitValue c with
    | Some d => numeralValue_from (10 * acc + d) s'
    | None => None
    end
  end.

Definition numeralValue (s : string) : option Z := numeralValue_from 0 s.

(** [num] is the fixed-point numeral of [millionths] millionths: a minus
    sign if [negative], the integer part in decimal digits with no
    leading zero, a point, and six decimal digits. *)
Definition fixedPointNumeral (negative : bool) (millionths : Z) (num : string)
  : Prop :=
  exists (ip fp : string) (i f : Z),
    num = (if negative then "-" else "") +:+ ip +:+ "." +:+ fp /\
    (ip = "0" \/ exists c r, ip = String c r /\ c <> "0"%char) /\
    String.length fp = 6%nat /\
    numeralValue ip = Some i /\
    numeralValue fp = Some f /\
    millionths = i * 1000000 + f.

(** [n] is the integer nearest to [num / den], and the even one of the
    two nearest when [num / den] lies half-way between them. *)
Definition nearest (num den n : Z) : Prop :=
  2 * Z.abs (n * den - num) <= den /\
  (2 * Z.abs (n * den - num) = den -> Z.even n = true).

(** [num] is the value [x] in fixed point: the numeral of the magnitude
    of [x] rounded to the nearest millionth, with the sign of [x]. A
    finite [float64] is [m * 2 ^ e] for the mantissa [m] and exponent [e]
    of [Prim2SF]. An infinity and a NaN have no numeral; for them this
    is the name [%f] prints. *)
Definition fixedPoint (x : float) (num : string) : Prop :=
  match Prim2SF x with
  | S754_zero s => fixedPointNumeral s 0 num
  | S754_finite s m e =>
    exists n : Z,
      nearest (Z.pos m * 1000000 * 2 ^ Z.max e 0) (2 ^ Z.max (- e) 0) n /\
      fixedPointNumeral s n num
  | S754_infinity s => num = if s then "-Inf" else "+Inf"
  | S754_nan => num = "NaN"
  end.

(** [line] is the line of the counter [c] in the text dump of the family
    named [nm]. *)
Definition specTextLine (nm : familyName) (c : counter) (line : string) : Prop :=
  exists num : string,
    fixedPoint (counter_Value c) num /\
    line = nm +:+ "{" +:+
           commaJoined (map (fun p => Name p +:+ "=" +:+ Value p) (Labels c)) +:+
           "}: " +:+ num +:+ newline.

(** The state of a family on which [find] and [register] work as meant:
    every child is a counter of the store with one pair per dimension, the
    index gives the position of every child, every entry of the index is
    the position of the child with that fingerprint, and the locations in
    use are below the next free one. *)
Definition consistent (w : world) : Prop :=
  (forall p, p ∈ children (family w) ->
     exists c, heap w !! p = Some c /\
       length (Labels c) =
       length (Dimensions (CounterOptions_MetricOptions (options (family w))))) /\
  indexConsistent w /\
  (forall k i, childrenSet (family w) !! k = Some i ->
     exists p c, 0 <= i /\ children (family w) !! Z.to_nat i = Some p /\
                 heap w !! p = Some c /\ counter_fingerprint c = k) /\
  (forall p, is_Some (heap w !! p) -> (p < next w)%nat).

(** The operations that only assign the value of one counter. *)
Definition isMutation (a : op) : bool :=
  match a with
  | OpIncrement _ | OpIncrementBy _ _ | OpDecrement _ | OpDecrementBy _ _
  | OpSet _ _ | OpReset _ => true
  | _ => false
  end.

Definition isForget (a : op) : bool :=
  match a with
  | OpForget _ => true
  | _ => false
  end.

(** ** The rest of the registry, the test driver, a failing writer *)

(** [func (r *registry) collectFamilies(o *dumpOptions) (f families)] and
    [func (f families) dumpText(w io.Writer, o *dumpOptions) error], which
    is what [registry.dump] runs for the text format. The two methods of a
    [Family] they call are parameters: whether the family should be
    dumped, and what its [dumpText] does to the writer. *)
Section RegistryDump.
Context {W E : Type}.
Context (Family_shouldDump : Family -> bool).
Context (Family_dumpText : Family -> W -> W * option E).

(** [for _, family := range r.families {
       if !family.shouldDump(o) { continue }; f = append(f, family) }] *)
Fixpoint collect (fs : list Family) : list Family :=
  match fs with
  | [] => []
  | family :: fs' =>
    if Family_shouldDump family then family :: collect fs' else collect fs'
  end.

Definition registry_collectFamilies (r : registry) : list Family :=
  collect (families r).

(** [for _, family := range f {
       if err := family.dumpText(w, o); err != nil { return err } }] *)
Fixpoint families_dumpText (fs : list Family) (w : W) : W * option E :=
  match fs with
  | [] => (w, None)
  | family :: fs' =>
    match Family_dumpText family w with
    | (w', Some err) => (w', Some err)
    | (w', None) => families_dumpText fs' w'
    end
  end.

Definition registry_dumpText (r : registry) (w : W) : W * option E :=
  families_dumpText (registry_collectFamilies r) w.

End RegistryDump.

(** [type dummyFamily struct] of [registry_test.go], as the registry sees
    it. *)
Definition dummyFamily (nm : familyName) (fingerprint : Z) : Family :=
  {| Family_familyName := nm; Family_fingerprint := fingerprint |}.

(** [func testRegistration]: [r.register(f)] under a [recover]; the result
    says whether [register] returned, and the registry is what the call
    has left. *)
Definition testRegistration (f : Family) (r : registry) : bool * registry :=
  match registry_register f r with
  | Ok _ r' => (true, r')
  | Panic _ r' => (false, r')
  end.

(** The inner loop of [TestRegister]: the families of one scenario, one
    after the other, on one registry. *)
Fixpoint registerAll (fs : list Family) (r : registry) : list bool * registry :=
  match fs with
  | [] => ([], r)
  | f :: fs' =>
    let '(s, r') := testRegistration f r in
    let '(ss, r'') := registerAll fs' r' in
    (s :: ss, r'')
  end.

(** A writer that takes [room] more writes and then fails; it keeps what
    it has taken. *)
Definition Limited_Write (s : string) (w : list string * nat)
  : (list string * nat) * option unit :=
  match snd w with
  | O => (w, Some tt)
  | S room => ((fst w ++ [s], room), None)
  end.

(** ** More vocabulary *)

(** The bytes a label set feeds to the digest: every name followed by its
    value, in the order of the pairs. *)
Definition written (l : labelPairs) : string :=
  fold_right (fun p acc => Name p +:+ Value p +:+ acc) "" l.

(** Every child is a counter of the store; every counter of the store has
    a location in use, a canonical label set with one pair per declared
    dimension, and the fingerprint of its own label set. *)
Definition countersValid (o : CounterOptions) (w : world) : Prop :=
  options (family w) = o /\
  (forall p, p ∈ children (family w) -> is_Some (heap w !! p)) /\
  (forall p c, heap w !! p = Some c ->
     (p < next w)%nat /\
     canonical (Labels c) /\
     matchesDimensions (Dimensions (CounterOptions_MetricOptions o)) (Labels c) /\
     counter_fingerprint c = labelPairs_fingerprint (Labels c)).

(** For a sequence of fingerprints presented one after the other, whether
    each one is new: not among [seen] and not presented before. *)
Fixpoint firstSeen (seen ks : list Z) : list bool :=
  match ks with
  | [] => []
  | k :: ks' =>
    if bool_decide (k ∈ seen) then false :: firstSeen seen ks'
    else true :: firstSeen (k :: seen) ks'
  end.

(** Families in ascending order of their names. *)
Definition byName (a b : Family) : Prop :=
  GoString.lt (Family_familyName b) (Family_familyName a) = false.

(** The state of a registry: the families are sorted by name, no two have
    the same fingerprint, and the index holds exactly the position of
    every family under its fingerprint. *)
Definition registryInvariant (r : registry) : Prop :=
  StronglySorted byName (families r) /\
  NoDup (map Family_fingerprint (families r)) /\
  (forall (i : nat) f, families r !! i = Some f ->
     familiesSet r !! Family_fingerprint f = Some (Z.of_nat i)) /\
  (forall k i, familiesSet r !! k = Some i ->
     exists f, 0 <= i /\ families r !! Z.to_nat i = Some f /\
               Family_fingerprint f = k).

(** ** Partials and counters that share label arrays

    [counterPartial_Apply] above takes the labels of a partial as a
    value: it is [NewChild(...).Apply()], a partial that is applied once.
    In the program a partial is an object. [With] appends to [p.labels]
    in place, [Apply] sorts [p.labels] in place, and the counter that
    [Apply] creates has [Labels: p.labels], the same backing array. The
    store below has the arrays, so that a partial that is used again
    after [Apply] acts on the labels of the counter it has created. The
    functions of the family ([find], [validate], [register], [forget],
    ...) are the ones above, run on the family and the counters of the
    store. *)

(** [*counterPartial], and the backing arrays of the [labelPairs]. *)
Definition ploc := nat.
Definition aloc := nat.

(** A [labelPairs] value: the backing array, the length and the capacity.
    Every [labelPairs] of the program starts at the first element of its
    array. *)
Record sliceHeader := {
  header_array : aloc;
  header_len : nat;
  header_cap : nat
}.

(** [type counter struct], with its [Labels] as the slice it is. *)
Record counterStruct := {
  struct_Labels : sliceHeader;
  struct_Value : float;
  struct_fingerprint : Z
}.

(** The arrays, the partials and the counters in use, and the family. *)
Record store := {
  arrays : gmap aloc (list labelPair);
  nextArray : aloc;
  partials : gmap ploc sliceHeader;
  nextPartial : ploc;
  counters : gmap loc counterStruct;
  nextCounter : loc;
  store_family : counterFamily
}.

Definition set_arrays (st : store) (m : gmap aloc (list labelPair)) : store :=
  {| arrays := m; nextArray := nextArray st;
     partials := partials st; nextPartial := nextPartial st;
     counters := counters st; nextCounter := nextCounter st;
     store_family := store_family st |}.

Definition set_partial (st : store) (p : ploc) (s : sliceHeader) : store :=
  {| arrays := arrays st; nextArray := nextArray st;
     partials := <[p := s]> (partials st); nextPartial := nextPartial st;
     counters := counters st; nextCounter := nextCounter st;
     store_family := store_family st |}.

Definition set_store_family (st : store) (f : counterFamily) : store :=
  {| arrays := arrays st; nextArray := nextArray st;
     partials := partials st; nextPartial := nextPartial st;
     counters := counters st; nextCounter := nextCounter st;
     store_family := f |}.

(** [make]: a new array. *)
Definition newArray (a : list labelPair) (st : store) : aloc * store :=
  (nextArray st,
   {| arrays := <[nextArray st := a]> (arrays st); nextArray := S (nextArray st);
      partials := partials st; nextPartial := nextPartial st;
      counters := counters st; nextCounter := nextCounter st;
      store_family := store_family st |}).

(** [&counterPartial{labels: s, parent: f}] *)
Definition newPartial (s : sliceHeader) (st : store) : ploc * store :=
  (nextPartial st,
   {| arrays := arrays st; nextArray := nextArray st;
      partials := <[nextPartial st := s]> (partials st);
      nextPartial := S (nextPartial st);
      counters := counters st; nextCounter := nextCounter st;
      store_family := store_family st |}).

(** [&counter{...}] *)
Definition newCounter (c : counterStruct) (st : store) : loc * store :=
  (nextCounter st,
   {| arrays := arrays st; nextArray := nextArray st;
      partials := partials st; nextPartial := nextPartial st;
      counters := <[nextCounter st := c]> (counters st);
      nextCounter := S (nextCounter st);
      store_family := store_family st |}).

(** The elements of a slice. *)
Definition elements (st : store) (s : sliceHeader) : labelPairs :=
  take (header_len s) (default [] (arrays st !! header_array s)).

(** Assigning the elements of a slice, one by one, as [Swap] does: the
    array keeps what lies beyond them. *)
Definition assign (s : sliceHeader) (l : labelPairs) (st : store) : store :=
  match arrays st !! header_array s with
  | Some a =>
    set_arrays st (<[header_array s := l ++ drop (length l) a]> (arrays st))
  | None => st
  end.

(** The zero value of [labelPair]. *)
Definition zeroPair : labelPair := {| Name := ""; Value := "" |}.

Section Shared.

(** The capacity the runtime chooses when [append] has to grow a slice of
    capacity [c]; the new array has room for the appended element
    whatever this is. *)
Variable growslice : nat -> nat.

(** [append(s, x)] *)
Definition append (s : sliceHeader) (x : labelPair) (st : store)
  : sliceHeader * store :=
  if decide (header_len s < header_cap s)%nat then
    ({| header_array := header_array s; header_len := S (header_len s);
        header_cap := header_cap s |},
     match arrays st !! header_array s with
     | Some a =>
       set_arrays st (<[header_array s := <[header_len s := x]> a]> (arrays st))
     | None => st
     end)
  else
    let cap := Nat.max (S (header_len s)) (growslice (header_cap s)) in
    let '(a, st') :=
      newArray
        (elements st s ++ x :: replicate (cap - S (header_len s)) zeroPair) st in
    ({| header_array := a; header_len := S (header_len s); header_cap := cap |}, st').

(** [for ... { s = append(s, labelPair{...}) }] *)
Fixpoint appendAll (s : sliceHeader) (l : labelPairs) (st : store)
  : sliceHeader * store :=
  match l with
  | [] => (s, st)
  | x :: l' => let '(s', st') := append s x st in appendAll s' l' st'
  end.

(** [func (f *counterFamily) NewChild(labels ...string) CounterPartial] *)
Definition store_NewChild (ls : list string) : M store ploc :=
  fun st =>
    if odd_len ls then Panic (IllegalLabelsOdd ls) st
    else
      let '(a, st0) := newArray [] st in
      let pairs := {| header_array := a; header_len := 0; header_cap := 0 |} in
      let '(pairs', st1) := appendAll pairs (pairUp ls) st0 in
      let '(p, st2) := newPartial pairs' st1 in
      Ok p st2.

(** [func (p *counterPartial) With(labels ...string)] *)
Definition store_With (p : ploc) (ls : list string) : M store unit :=
  fun st =>
    match partials st !! p with
    | None => Panic NilDereference st
    | Some s =>
      if odd_len ls then Panic (IllegalLabelsOdd ls) st
      else
        let '(s', st') := appendAll s (pairUp ls) st in
        Ok tt (set_partial st' p s')
    end.

(** [func (p *counterPartial) Clone() CounterPartial] *)
Definition store_Clone (p : ploc) : M store ploc :=
  fun st =>
    match partials st !! p with
    | None => Panic NilDereference st
    | Some s =>
      let '(a, st0) := newArray (elements st s) st in
      let labels := {| header_array := a; header_len := header_len s;
                       header_cap := header_len s |} in
      let '(q, st1) := newPartial labels st0 in
      Ok q st1
    end.

End Shared.

(** The counter a [counterStruct] is, with the elements of its [Labels]. *)
Definition materialize (st : store) (c : counterStruct) : counter :=
  {| Labels := elements st (struct_Labels c);
     counter_Value := struct_Value c;
     counter_fingerprint := struct_fingerprint c |}.

(** The family and its counters, as the functions of the family see
    them. *)
Definition view (st : store) : world :=
  {| heap := materialize st <$> counters st;
     next := nextCounter st;
     family := store_family st |}.

(** [func (p *counterPartial) Apply() Counter] *)
Definition store_Apply (p : ploc) : M store loc :=
  fun st =>
    match partials st !! p with
    | None => Panic NilDereference st
    | Some s =>
      let sorted := canonicalize (elements st s) in
      let st1 := assign s sorted st in
      let fingerprint := labelPairs_fingerprint sorted in
      match counterFamily_find fingerprint (view st1) with
      | Panic e _ => Panic e st1
      | Ok (Some c) _ => Ok c st1
      | Ok None _ =>
        let o := options (store_family st1) in
        match counterPartial_validate
                (Dimensions (CounterOptions_MetricOptions o)) sorted with
        | Raise e => Panic e st1
        | Val _ =>
          let '(c, st2) :=
            newCounter {| struct_Labels := s;
                          struct_Value := DefaultValue o;
                          struct_fingerprint := fingerprint |} st1 in
          match counterFamily_register c (view st2) with
          | Ok _ w => Ok c (set_store_family st2 (family w))
          | Panic e w => Panic e (set_store_family st2 (family w))
          end
        end
      end
    end.

(** What an operation of the family or of a counter leaves in the store:
    it assigns the family and the values of counters. *)
Definition absorb (st : store) (w : world) : store :=
  {| arrays := arrays st; nextArray := nextArray st;
     partials := partials st; nextPartial := nextPartial st;
     counters :=
       map_imap (fun c cs =>
                   Some match heap w !! c with
                        | Some cv =>
                          {| struct_Labels := struct_Labels cs;
                             struct_Value := counter_Value cv;
                             struct_fingerprint := struct_fingerprint cs |}
                        | None => cs
                        end) (counters st);
     nextCounter := nextCounter st;
     store_family := family w |}.

Definition onFamily {A} (m : M world A) : M store A :=
  fun st =>
    match m (view st) with
    | Ok a w => Ok a (absorb st w)
    | Panic e w => Panic e (absorb st w)
    end.

Inductive storeOp :=
| DoNewChild (ls : list string)
| DoWith (p : ploc) (ls : list string)
| DoClone (p : ploc)
| DoApply (p : ploc)
| DoFamily (a : op).

Definition store_run (growslice : nat -> nat) (a : storeOp) : M store unit :=
  match a with
  | DoNewChild ls => store_NewChild growslice ls ;;; ret tt
  | DoWith p ls => store_With growslice p ls
  | DoClone p => store_Clone p ;;; ret tt
  | DoApply p => store_Apply p ;;; ret tt
  | DoFamily (OpApply q) =>
    p <- store_NewChild growslice (flatten (labels q)) ;; store_Apply p ;;; ret tt
  | DoFamily a => onFamily (run a)
  end.

Definition store_runAll (growslice : nat -> nat) (ops : list storeOp) (st : store)
  : store :=
  fold_left (fun st a => final (store_run growslice a st)) ops st.

Definition newStore (f : counterFamily) : store :=
  {| arrays := ∅; nextArray := 0%nat; partials := ∅; nextPartial := 0%nat;
     counters := ∅; nextCounter := 0%nat; store_family := f |}.

Inductive reachableStore (growslice : nat -> nat) (o : CounterOptions)
  : store -> Prop :=
| reachableStore_new : reachableStore growslice o (newStore (counterFamily_literal o))
| reachableStore_step (st : store) (a : storeOp) :
    reachableStore growslice o st ->
    reachableStore growslice o (final (store_run growslice a st)).

(** Small slices double their capacity when they grow. *)
Definition doubling (c : nat) : nat := (2 * c)%nat.

(** The options of a family used with a partial that is kept, extended
    and applied again. *)
Definition reuse_options : CounterOptions :=
  {| CounterOptions_MetricOptions :=
       {| MetricOptions_Name := "requests"; Subsystem := ""; Namespace := "";
          Dimensions := ["b"; "c"; "d"]; Help := "h" |};
     DefaultValue := 0%float |}.

(** [p := f.NewChild("b", "1", "c", "2", "d", "3"); p.Apply();
     p.With("a", "0")]: the partial [p] has created a counter and has
    then been given a fourth pair, which fits into the array the counter
    shares. *)
Definition reuse_store : store :=
  store_runAll doubling
    [DoNewChild ["b"; "1"; "c"; "2"; "d"; "3"]; DoApply 0%nat;
     DoWith 0%nat ["a"; "0"]]
    (newStore (counterFamily_literal reuse_options)).

(** *** Vocabulary for the store *)

Definition isApply (a : op) : bool :=
  match a with
  | OpApply _ => true
  | _ => false
  end.

(** The slice of a partial: its array is in the store and is as long as the
    capacity. *)
Definition partialSlice (st : store) (s : sliceHeader) : Prop :=
  exists a, arrays st !! header_array s = Some a /\
            length a = header_cap s /\ (header_len s <= header_cap s)%nat.

Definition arraysBelowNext (st : store) : Prop :=
  forall b, is_Some (arrays st !! b) -> (b < nextArray st)%nat.

Definition storeValid (o : CounterOptions) (st : store) : Prop :=
  options (store_family st) = o /\
  arraysBelowNext st /\
  (forall p s, partials st !! p = Some s -> partialSlice st s) /\
  (forall p q s t, partials st !! p = Some s -> partials st !! q = Some t ->
     header_array s = header_array t -> p = q) /\
  (forall c cs, counters st !! c = Some cs ->
     exists a, arrays st !! header_array (struct_Labels cs) = Some a /\
       (header_len (struct_Labels cs) <= length a)%nat /\
       header_len (struct_Labels cs)
         = length (Dimensions (CounterOptions_MetricOptions o)) /\
       canonical (elements st (struct_Labels cs))) /\
  (forall c cs p s, counters st !! c = Some cs -> partials st !! p = Some s ->
     header_array (struct_Labels cs) = header_array s ->
     (header_len (struct_Labels cs) <= header_len s)%nat) /\
  (forall c, c ∈ children (store_family st) -> is_Some (counters st !! c)).
Arguments storeValid : simpl never.

(** What a run of [append]s on the slice [s], with the elements [l],
    has done when it has left the slice [s'] and the store [st']: only
    arrays have changed; the new slice holds the elements of [s] followed
    by [l], in the array of [s] or in a new one; every array that was
    there is as long as it was, is as it was if it is not the array of
    [s], and keeps what [s] had in it if it is. *)
Definition appended (s : sliceHeader) (l : labelPairs) (st : store)
    (s' : sliceHeader) (st' : store) : Prop :=
  partials st' = partials st /\ nextPartial st' = nextPartial st /\
  counters st' = counters st /\ nextCounter st' = nextCounter st /\
  store_family st' = store_family st /\
  (nextArray st <= nextArray st')%nat /\
  arraysBelowNext st' /\
  partialSlice st' s' /\
  elements st' s' = elements st s ++ l /\
  header_len s' = (header_len s + length l)%nat /\
  (header_array s' = header_array s \/ (nextArray st <= header_array s')%nat) /\
  (forall b a0, arrays st !! b = Some a0 ->
     exists a1, arrays st' !! b = Some a1 /\ length a1 = length a0 /\
       (b <> header_array s -> a1 = a0) /\
       take (header_len s) a1 = take (header_len s) a0).

(** The outcome of an operation on the store and of its counterpart on
    the family agree: both return the same value or both panic in the
    same way, and the family and the counters of the store afterwards
    are what the counterpart has left. *)
Definition agree {A} (r : result world A) (r' : result store A) : Prop :=
  match r, r' with
  | Ok a w, Ok a' st' => a = a' /\ view st' = w
  | Panic e w, Panic e' st' => e = e' /\ view st' = w
  | _, _ => False
  end.

(** * Part II: properties *)

(** ** Go strings *)

Module GoStringFacts.
Import GoString.

Lemma ascii_compare_refl (c : ascii) : Ascii.compare c c = Eq.
Proof. unfold Ascii.compare. apply N.compare_refl. Qed.

Lemma compare_refl (s : string) : String.compare s s = Eq.
Proof.
  induction s as [|c s IH]; simpl; [reflexivity|].
  now rewrite ascii_compare_refl.
Qed.

Lemma ascii_compare_lt_trans (a b c : ascii) :
  Ascii.compare a b = Lt -> Ascii.compare b c = Lt -> Ascii.compare a c = Lt.
Proof.
  unfold Ascii.compare. rewrite !N.compare_lt_iff. lia.
Qed.

Lemma compare_lt_trans (s1 : string) : forall s2 s3,
  String.compare s1 s2 = Lt -> String.compare s2 s3 = Lt ->
  String.compare s1 s3 = Lt.
Proof.
  induction s1 as [|a s1 IH]; intros [|b s2] [|c s3]; simpl; try congruence.
  destruct (Ascii.compare a b) eqn:Hab; try discriminate;
    destruct (Ascii.compare b c) eqn:Hbc; try discriminate; intros H1 H2.
  - apply Ascii.compare_eq_iff in Hab, Hbc. subst.
    rewrite ascii_compare_refl. eauto.
  - apply Ascii.compare_eq_iff in Hab. subst. now rewrite Hbc.
  - apply Ascii.compare_eq_iff in Hbc. subst. now rewrite Hab.
  - now rewrite (ascii_compare_lt_trans a b c).
Qed.

Lemma lt_irrefl (s : string) : lt s s = false.
Proof. unfold lt, String.ltb. now rewrite compare_refl. Qed.

Lemma lt_trans (a b c : string) :
  lt a b = true -> lt b c = true -> lt a c = true.
Proof.
  unfold lt, String.ltb.
  destruct (String.compare a b) eqn:Hab; try discriminate.
  destruct (String.compare b c) eqn:Hbc; try discriminate.
  now rewrite (compare_lt_trans a b c).
Qed.

Lemma lt_asym (a b : string) : lt a b = true -> lt b a = false.
Proof.
  unfold lt, String.ltb. rewrite (String.compare_antisym b a).
  now destruct (String.compare a b).
Qed.

Lemma lt_total (a b : string) : lt a b = false -> lt b a = false -> a = b.
Proof.
  unfold lt, String.ltb. rewrite (String.compare_antisym b a).
  destruct (String.compare a b) eqn:E; simpl; try discriminate.
  intros _ _. now apply String.compare_eq_iff.
Qed.

End GoStringFacts.

(** ** [labelPair.Before] is a strict total order *)

Lemma labelPair_Before_irrefl (a : labelPair) : labelPair_Before a a = false.
Proof.
  unfold labelPair_Before. now rewrite !GoStringFacts.lt_irrefl.
Qed.

Lemma labelPair_Before_spec (a b : labelPair) :
  labelPair_Before a b = true <->
  GoString.lt (Name a) (Name b) = true \/
  (Name a = Name b /\ GoString.lt (Value a) (Value b) = true).
Proof.
  unfold labelPair_Before.
  destruct (GoString.lt (Name a) (Name b)) eqn:E1; [tauto|].
  destruct (GoString.lt (Name b) (Name a)) eqn:E2.
  - split; [discriminate|]. intros [?|[Heq _]]; [discriminate|].
    rewrite Heq, GoStringFacts.lt_irrefl in E2. discriminate.
  - pose proof (GoStringFacts.lt_total _ _ E1 E2).
    destruct (GoString.lt (Value a) (Value b)); split; auto.
    intros [?|[_ ?]]; discriminate.
Qed.

Lemma labelPair_Before_trans (a b c : labelPair) :
  labelPair_Before a b = true -> labelPair_Before b c = true ->
  labelPair_Before a c = true.
Proof.
  rewrite !labelPair_Before_spec.
  intros [H1|[E1 H1]] [H2|[E2 H2]].
  - left. eapply GoStringFacts.lt_trans; eauto.
  - left. now rewrite <- E2.
  - left. now rewrite E1.
  - right. split; [congruence|]. eapply GoStringFacts.lt_trans; eauto.
Qed.

Lemma labelPair_Before_total (a b : labelPair) :
  labelPair_Before a b = false -> labelPair_Before b a = false -> a = b.
Proof.
  unfold labelPair_Before. destruct a as [n1 v1], b as [n2 v2]; simpl.
  destruct (GoString.lt n1 n2) eqn:E1; [discriminate|].
  destruct (GoString.lt n2 n1) eqn:E2; [discriminate|].
  destruct (GoString.lt v1 v2) eqn:E3; [discriminate|].
  destruct (GoString.lt v2 v1) eqn:E4; [discriminate|].
  intros _ _. f_equal; now apply GoStringFacts.lt_total.
Qed.

(** ** [sort.Sort] for a [Less] that is a strict total order *)

Module sortFacts.

(** Whatever [Less] answers, and whether or not it panics, [Sort] only
    rearranges the slice. *)
Section Any.
Context {A : Type} (Less : A -> A -> try bool).

Lemma sink_Permutation_any x rp : fst (sort.sink Less x rp) ≡ₚ x :: rp.
Proof using Type.
  induction rp as [|y ys IH]; simpl; [reflexivity|].
  destruct (Less x y) as [[|]|e]; try reflexivity.
  destruct (sort.sink Less x ys) as [r e]; simpl in *.
  rewrite IH. apply perm_swap.
Qed.

Lemma insertionSort_Permutation_any rp rest :
  fst (sort.insertionSort Less rp rest) ≡ₚ rp ++ rest.
Proof using Type.
  revert rp. induction rest as [|x rest IH]; intros rp; simpl.
  - rewrite app_nil_r. symmetry. apply Permutation_rev.
  - pose proof (sink_Permutation_any x rp) as Hp.
    destruct (sort.sink Less x rp) as [rp' [e|]]; simpl in *.
    + rewrite <- Permutation_rev, Hp. simpl. apply Permutation_middle.
    + rewrite IH, Hp. simpl. apply Permutation_middle.
Qed.

Lemma Sort_Permutation_any l : fst (sort.Sort Less l) ≡ₚ l.
Proof using Type. apply (insertionSort_Permutation_any []). Qed.

Lemma sink_defined x rp :
  (forall y, y ∈ rp -> exists b, Less x y = Val b) ->
  snd (sort.sink Less x rp) = None.
Proof using Type.
  induction rp as [|y ys IH]; simpl; intros Hdef; [reflexivity|].
  destruct (Hdef y) as [[|] ->]; [left| |reflexivity].
  destruct (sort.sink Less x ys) as [r e] eqn:E; simpl in *.
  apply IH. intros z Hz. apply Hdef. now right.
Qed.

Lemma insertionSort_defined rest : forall rp,
  (forall a b, a ∈ rp ++ rest -> b ∈ rp ++ rest -> exists v, Less a b = Val v) ->
  snd (sort.insertionSort Less rp rest) = None.
Proof using Type.
  induction rest as [|x rest IH]; intros rp Hdef; simpl; [reflexivity|].
  pose proof (sink_Permutation_any x rp) as Hp.
  pose proof (sink_defined x rp) as Hn.
  destruct (sort.sink Less x rp) as [rp' e]; simpl in *.
  rewrite Hn.
  - apply IH. intros a b Ha Hb.
    apply Hdef; rewrite <- Permutation_middle;
      rewrite app_comm_cons, <- Hp; assumption.
  - intros y Hy. apply Hdef.
    + apply elem_of_app. right. left.
    + apply elem_of_app. now left.
Qed.

Lemma Sort_defined l :
  (forall a b, a ∈ l -> b ∈ l -> exists v, Less a b = Val v) ->
  snd (sort.Sort Less l) = None.
Proof using Type. intros H. now apply (insertionSort_defined l []). Qed.

End Any.

Section Total.
Context {A : Type} (lt : A -> A -> bool).
Hypothesis lt_irrefl : forall a, lt a a = false.
Hypothesis lt_trans : forall a b c, lt a b = true -> lt b c = true -> lt a c = true.
Hypothesis lt_total : forall a b, lt a b = false -> lt b a = false -> a = b.

Let Less (a b : A) : try bool := Val (lt a b).
Let le : relation A := notAfter lt.
Let ge : relation A := flip le.

Lemma strict_asym a b : lt a b = true -> lt b a = false.
Proof using lt_irrefl lt_trans.
  intros H. destruct (lt b a) eqn:E; [|reflexivity].
  rewrite <- (lt_irrefl a). symmetry. eauto.
Qed.

Lemma le_trans : Transitive le.
Proof using lt_irrefl lt_trans lt_total.
  intros a b c Hab Hbc. unfold le, notAfter in *.
  destruct (lt c a) eqn:Hca; [|reflexivity].
  destruct (lt a b) eqn:E1.
  - rewrite <- Hbc. symmetry. eauto.
  - assert (a = b) by auto. subst. congruence.
Qed.

Lemma le_antisym : AntiSymm (=) le.
Proof using lt_total. intros a b Hab Hba. now apply lt_total. Qed.

Lemma ge_trans : Transitive ge.
Proof using lt_irrefl lt_trans lt_total.
  intros a b c Hab Hbc. unfold ge, flip in *. eapply le_trans; eauto.
Qed.

Lemma ge_antisym : AntiSymm (=) ge.
Proof using lt_total. intros a b Hab Hba. now apply lt_total. Qed.

Lemma sink_total x rp : snd (sort.sink Less x rp) = None.
Proof using Type.
  induction rp as [|y ys IH]; simpl; [reflexivity|].
  destruct (lt x y); [|reflexivity].
  destruct (sort.sink Less x ys); simpl in *. exact IH.
Qed.

Lemma sink_Permutation x rp : fst (sort.sink Less x rp) ≡ₚ x :: rp.
Proof using Type.
  induction rp as [|y ys IH]; simpl; [reflexivity|].
  destruct (lt x y); [|reflexivity].
  destruct (sort.sink Less x ys) as [r e]; simpl in *.
  rewrite IH. apply perm_swap.
Qed.

Lemma sink_sorted x rp :
  StronglySorted ge rp -> StronglySorted ge (fst (sort.sink Less x rp)).
Proof using lt_irrefl lt_trans lt_total.
  induction rp as [|y ys IH]; simpl; intros Hs.
  - repeat constructor.
  - apply StronglySorted_inv in Hs as [Hys Hall].
    destruct (lt x y) eqn:E.
    + pose proof (sink_Permutation x ys) as Hp.
      destruct (sort.sink Less x ys) as [r e]; simpl in *.
      constructor; [auto|].
      rewrite Hp. constructor; [|exact Hall].
      unfold ge, flip, le, notAfter. now apply strict_asym.
    + simpl. constructor; [constructor; auto|].
      constructor; [exact E|].
      eapply Forall_impl; [exact Hall|]. simpl. intros z Hz.
      eapply ge_trans; [|exact Hz]. exact E.
Qed.

Lemma insertionSort_total rp rest :
  snd (sort.insertionSort Less rp rest) = None.
Proof using Type.
  revert rp. induction rest as [|x rest IH]; intros rp; simpl; [reflexivity|].
  pose proof (sink_total x rp) as Hn.
  destruct (sort.sink Less x rp) as [rp' e]; simpl in Hn. subst e. apply IH.
Qed.

Lemma insertionSort_Permutation rp rest :
  fst (sort.insertionSort Less rp rest) ≡ₚ rp ++ rest.
Proof using Type.
  revert rp. induction rest as [|x rest IH]; intros rp; simpl.
  - rewrite app_nil_r. symmetry. apply Permutation_rev.
  - pose proof (sink_total x rp) as Hn. pose proof (sink_Permutation x rp) as Hp.
    destruct (sort.sink Less x rp) as [rp' e]; simpl in *. subst e.
    rewrite IH, Hp. simpl. apply Permutation_middle.
Qed.

Lemma StronglySorted_rev (R : relation A) l :
  StronglySorted R l -> StronglySorted (flip R) (rev l).
Proof using Type.
  induction 1 as [|x l Hl IH Hall]; simpl; [constructor|].
  apply StronglySorted_app_2; [|exact IH|repeat constructor].
  intros a b Ha Hb. apply list_elem_of_singleton in Hb. subst b.
  apply list_elem_of_In, in_rev, list_elem_of_In in Ha.
  rewrite Forall_forall in Hall. now apply Hall.
Qed.

Lemma insertionSort_sorted rp rest :
  StronglySorted ge rp ->
  StronglySorted le (fst (sort.insertionSort Less rp rest)).
Proof using lt_irrefl lt_trans lt_total.
  revert rp. induction rest as [|x rest IH]; intros rp Hs; simpl.
  - apply (StronglySorted_rev ge). exact Hs.
  - pose proof (sink_total x rp) as Hn. pose proof (sink_sorted x rp Hs) as Hs'.
    destruct (sort.sink Less x rp) as [rp' e]; simpl in *. subst e. now apply IH.
Qed.

(** [Sort] does not panic and returns the ascending permutation. *)
Lemma Sort_total l : snd (sort.Sort Less l) = None.
Proof using Type. apply insertionSort_total. Qed.

Lemma Sort_Permutation l : fst (sort.Sort Less l) ≡ₚ l.
Proof using Type. apply (insertionSort_Permutation []). Qed.

Lemma Sort_sorted l : StronglySorted le (fst (sort.Sort Less l)).
Proof using lt_irrefl lt_trans lt_total.
  apply insertionSort_sorted. constructor.
Qed.

(** There is one ascending arrangement of a slice: whatever algorithm
    [sort.Sort] runs, this is what it returns. *)
Lemma Sort_unique l l' :
  l' ≡ₚ l -> StronglySorted le l' -> l' = fst (sort.Sort Less l).
Proof using lt_irrefl lt_trans lt_total.
  intros Hp Hs.
  apply (StronglySorted_unique le (AntiSymm0 := le_antisym)); [exact Hs|apply Sort_sorted|].
  rewrite Hp. symmetry. apply Sort_Permutation.
Qed.

Lemma IsSorted_from_spec prev l :
  sort.IsSorted_from Less prev l = Val true -> Sorted le (prev :: l).
Proof using Type.
  revert prev. induction l as [|x l IH]; intros prev; simpl.
  - repeat constructor.
  - destruct (sort.IsSorted_from Less x l) as [[|]|] eqn:E; try discriminate.
    destruct (lt x prev) eqn:E'; simpl; [discriminate|]. intros _.
    constructor; [now apply IH|]. constructor. exact E'.
Qed.

Lemma IsSorted_spec l :
  sort.IsSorted Less l = Val true -> StronglySorted le l.
Proof using lt_irrefl lt_trans lt_total.
  intros H. apply (Sorted_StronglySorted le (Transitive0 := le_trans)).
  destruct l as [|x l]; [constructor|]. now apply IsSorted_from_spec.
Qed.

End Total.
End sortFacts.

(** ** Canonical label sets *)

Create HintDb order.
Local Hint Resolve labelPair_Before_irrefl labelPair_Before_trans
  labelPair_Before_total : order.

Ltac unfold_Less :=
  change labelPairs_Less with (fun a b => Val (labelPair_Before a b)) in *.

Lemma labelPairs_Sort_total (l : labelPairs) :
  snd (sort.Sort labelPairs_Less l) = None.
Proof. unfold_Less. apply sortFacts.Sort_total. Qed.

Lemma labelPairs_Sort_canonical (l : labelPairs) :
  canonical (fst (sort.Sort labelPairs_Less l)).
Proof. unfold_Less. apply sortFacts.Sort_sorted; eauto with order. Qed.

Lemma canonicalize_canonical (l : labelPairs) : canonical (canonicalize l).
Proof.
  unfold canonicalize.
  destruct (sort.IsSorted labelPairs_Less l) as [[|]|] eqn:E;
    try apply labelPairs_Sort_canonical.
  unfold_Less. eapply sortFacts.IsSorted_spec; eauto with order.
Qed.

Lemma canonicalize_Permutation (l : labelPairs) : canonicalize l ≡ₚ l.
Proof.
  unfold canonicalize. unfold_Less.
  destruct (sort.IsSorted _ l) as [[|]|];
    try apply sortFacts.Sort_Permutation.
  reflexivity.
Qed.

Lemma canonical_unique (l1 l2 : labelPairs) :
  canonical l1 -> canonical l2 -> l1 ≡ₚ l2 -> l1 = l2.
Proof.
  apply StronglySorted_unique. intros a b Hab Hba.
  now apply labelPair_Before_total.
Qed.

(** Canonicalizing forgets the order in which the pairs were given. *)
Lemma canonicalize_perm (l1 l2 : labelPairs) :
  l1 ≡ₚ l2 -> canonicalize l1 = canonicalize l2.
Proof.
  intros Hp. apply canonical_unique; try apply canonicalize_canonical.
  now rewrite !canonicalize_Permutation.
Qed.

Lemma canonicalize_idem (l : labelPairs) :
  canonicalize (canonicalize l) = canonicalize l.
Proof. apply canonicalize_perm, canonicalize_Permutation. Qed.

(** C3. The fingerprint of the canonicalized label set does not depend on
    the order in which its pairs were given: for every label set [L] and
    every permutation [L'] of it,
    [fingerprint (canonicalize L) = fingerprint (canonicalize L')]. *)
Theorem fingerprint_canonicalize_perm (L L' : labelPairs) :
  Permutation L L' ->
  labelPairs_fingerprint (canonicalize L) =
  labelPairs_fingerprint (canonicalize L').
Proof. intros Hp. now rewrite (canonicalize_perm L L' Hp). Qed.

Lemma fingerprint_canonicalize_perm_witness :
  let a := {| Name := "method"; Value := "GET" |} in
  let b := {| Name := "code"; Value := "200" |} in
  Permutation [a; b] [b; a] /\
  labelPairs_fingerprint (canonicalize [a; b]) =
  labelPairs_fingerprint (canonicalize [b; a]).
Proof.
  split; [apply perm_swap|].
  apply fingerprint_canonicalize_perm. apply perm_swap.
Defined.

(** ** The order on label sets *)

(** C5. [labelPairs.Before] answers [true] as soon as some position has a
    smaller pair on the left, also behind a position where the left pair
    is the larger one. On the label sets [l = [a=2, b=1]] and
    [o = [a=1, b=2]], which have the same length and the same dimensions
    and differ first at position 0 with [l]'s pair the larger,
    [l.Before(o)] is [true], and so is [o.Before(l)]. *)
Theorem labelPairs_Before_both_true :
  let l := [ {| Name := "a"; Value := "2" |}; {| Name := "b"; Value := "1" |} ] in
  let o := [ {| Name := "a"; Value := "1" |}; {| Name := "b"; Value := "2" |} ] in
  length l = length o /\ names l = names o /\
  canonical l /\ canonical o /\
  (exists l0 o0, l !! 0%nat = Some l0 /\ o !! 0%nat = Some o0 /\
                 labelPair_Before o0 l0 = true /\ labelPair_Before l0 o0 = false) /\
  labelPairs_Before l o = Val true /\
  labelPairs_Before o l = Val true.
Proof.
  simpl. repeat split; try reflexivity.
  - repeat constructor.
  - repeat constructor.
  - eexists _, _. repeat split; reflexivity.
Qed.

(** ** Validation of a label set against the declared dimensions *)

Lemma validate_loop_ok (ls : labelPairs) : forall un : gset string,
  validate_loop un ls = Val tt <->
  NoDup (names ls) /\ (forall n, In n (names ls) -> n ∈ un).
Proof.
  induction ls as [|p ls IH]; intros un; simpl.
  - split; [intros _; split; [constructor|intros ? []]|reflexivity].
  - destruct (decide (Name p ∈ un)) as [Hin|Hout].
    + rewrite IH, NoDup_cons. split.
      * intros [Hnd Hall]. repeat split; [|exact Hnd|].
        -- intros Hp%list_elem_of_In. apply Hall in Hp.
           apply elem_of_difference in Hp as [_ Hp]. apply Hp.
           now apply elem_of_singleton.
        -- intros n [<-|Hn]; [exact Hin|]. apply Hall in Hn.
           now apply elem_of_difference in Hn as [Hn _].
      * intros [[Hp Hnd] Hall]. split; [exact Hnd|].
        intros n Hn. apply elem_of_difference. split; [auto|].
        intros ->%elem_of_singleton. apply Hp. now apply list_elem_of_In.
    + split; [discriminate|]. intros [_ Hall]. destruct Hout. auto.
Qed.

Lemma validate_ok (dims : list string) (ls : labelPairs) :
  counterPartial_validate dims ls = Val tt <-> matchesDimensions dims ls.
Proof.
  unfold counterPartial_validate, matchesDimensions, len.
  destruct (Z.of_nat (length ls) =? Z.of_nat (length dims)) eqn:E; simpl.
  - apply Z.eqb_eq, Nat2Z.inj in E. rewrite validate_loop_ok. split.
    + intros [Hnd Hall]. repeat split; auto.
      intros n Hn. apply Hall in Hn.
      now apply elem_of_list_to_set, list_elem_of_In in Hn.
    + intros (_ & Hnd & Hincl). split; [exact Hnd|].
      intros n Hn. apply elem_of_list_to_set, list_elem_of_In. auto.
  - apply Z.eqb_neq in E. split; [discriminate|].
    intros (Hlen & _). lia.
Qed.

Lemma validate_loop_raises (ls : labelPairs) : forall (un : gset string) e,
  validate_loop un ls = Raise e -> isValidationError e = true.
Proof.
  induction ls as [|p ls IH]; intros un e; simpl; [discriminate|].
  destruct (decide (Name p ∈ un)); [apply IH|].
  intros [= <-]. reflexivity.
Qed.

Lemma validate_raises (dims : list string) (ls : labelPairs) e :
  counterPartial_validate dims ls = Raise e -> isValidationError e = true.
Proof.
  unfold counterPartial_validate.
  destruct (negb _); [intros [= <-]; reflexivity|apply validate_loop_raises].
Qed.

Lemma matchesDimensions_perm (dims : list string) (l l' : labelPairs) :
  l ≡ₚ l' -> matchesDimensions dims l -> matchesDimensions dims l'.
Proof.
  intros Hp (Hlen & Hnd & Hincl). unfold matchesDimensions, names in *.
  assert (Hn : map Name l ≡ₚ map Name l') by now apply Permutation_map.
  repeat split.
  - now rewrite <- Hp.
  - now rewrite <- Hn.
  - intros n Hn'. apply Hincl.
    apply list_elem_of_In. rewrite Hn. now apply list_elem_of_In.
Qed.

(** A label set of the right size whose names are declared and distinct
    leaves no declared dimension out. *)
Lemma matchesDimensions_covers (dims : list string) (l : labelPairs) :
  matchesDimensions dims l -> incl dims (names l).
Proof.
  intros (Hlen & Hnd & Hincl).
  apply NoDup_length_incl; [now apply NoDup_ListNoDup| |exact Hincl].
  unfold names. rewrite length_map. lia.
Qed.

(** ** [Apply]: the path that finds and the path that creates *)

Lemma Apply_found (p : counterPartial) (w : world) (i : Z) (c : loc) :
  childrenSet (family w)
    !! labelPairs_fingerprint (canonicalize (labels p)) = Some i ->
  index (children (family w)) i = Some c ->
  counterPartial_Apply p w = Ok c w.
Proof.
  intros Hset Hidx. unfold counterPartial_Apply, bind, counterFamily_find.
  now rewrite Hset, Hidx.
Qed.

Lemma Apply_invalid (p : counterPartial) (w : world) (e : panic) :
  childrenSet (family w)
    !! labelPairs_fingerprint (canonicalize (labels p)) = None ->
  counterPartial_validate
    (Dimensions (CounterOptions_MetricOptions (options (family w))))
    (canonicalize (labels p)) = Raise e ->
  counterPartial_Apply p w = Panic e w.
Proof.
  intros Hset Hval. unfold counterPartial_Apply, bind, counterFamily_find.
  rewrite Hset. unfold lift. now rewrite Hval.
Qed.

Lemma Apply_created (p : counterPartial) (w : world) :
  childrenSet (family w)
    !! labelPairs_fingerprint (canonicalize (labels p)) = None ->
  counterPartial_validate
    (Dimensions (CounterOptions_MetricOptions (options (family w))))
    (canonicalize (labels p)) = Val tt ->
  counterPartial_Apply p w =
  (c <- alloc {| Labels := canonicalize (labels p);
                 counter_Value := DefaultValue (options (family w));
                 counter_fingerprint :=
                   labelPairs_fingerprint (canonicalize (labels p)) |} ;;
   counterFamily_register c ;;; ret c) w.
Proof.
  intros Hset Hval. unfold counterPartial_Apply, bind, counterFamily_find.
  rewrite Hset. unfold lift. now rewrite Hval.
Qed.

Lemma pairUp_flatten (l : labelPairs) : pairUp (flatten l) = l.
Proof.
  induction l as [|[n v] l IH]; simpl; [reflexivity|]. now rewrite IH.
Qed.

Lemma odd_len_flatten (l : labelPairs) : odd_len (flatten l) = false.
Proof.
  unfold odd_len. induction l as [|[n v] l IH]; [reflexivity|].
  simpl flatten. simpl length. now rewrite Nat.odd_succ_succ.
Qed.

(** [NewChild] with the pairs written out flat builds the partial that
    holds these pairs, in this order. *)
Lemma NewChild_flatten (l : labelPairs) :
  counterFamily_NewChild (flatten l) = Val {| labels := l |}.
Proof.
  unfold counterFamily_NewChild. now rewrite odd_len_flatten, pairUp_flatten.
Qed.

(** [With] appends the pairs it is given to those of the partial. *)
Lemma With_flatten (p : counterPartial) (l : labelPairs) :
  counterPartial_With p (flatten l) = Val {| labels := labels p ++ l |}.
Proof.
  unfold counterPartial_With. now rewrite odd_len_flatten, pairUp_flatten.
Qed.

(** C7. On a family in any state, [Apply] of a label set that is not
    present by fingerprint and that has the wrong number of pairs, or
    leaves a declared dimension out, or carries a name that is not
    declared, panics with one of the two "illegal labels" messages of
    [validate], and the family (its children, its index) and the counters
    are as they were. *)
Theorem Apply_mismatch_panics (w : world) (p : counterPartial) :
  let dims := Dimensions (CounterOptions_MetricOptions (options (family w))) in
  childrenSet (family w)
    !! labelPairs_fingerprint (canonicalize (labels p)) = None ->
  (length (labels p) <> length dims \/
   (exists d, In d dims /\ ~ In d (names (labels p))) \/
   (exists n, In n (names (labels p)) /\ ~ In n dims)) ->
  exists e,
    counterPartial_Apply p w = Panic e w /\
    isValidationError e = true /\
    children (family (final (counterPartial_Apply p w))) = children (family w) /\
    childrenSet (family (final (counterPartial_Apply p w))) = childrenSet (family w).
Proof.
  intros dims Hmiss Hbad.
  destruct (counterPartial_validate dims (canonicalize (labels p))) as [[]|e] eqn:Hv.
  - exfalso. apply validate_ok in Hv.
    apply (matchesDimensions_perm _ _ (labels p)) in Hv;
      [|apply canonicalize_Permutation].
    pose proof (matchesDimensions_covers _ _ Hv) as Hcov.
    destruct Hv as (Hlen & Hnd & Hincl).
    destruct Hbad as [Hl|[(d & Hd & Hnot)|(n & Hn & Hnot)]]; auto.
  - exists e. rewrite (Apply_invalid p w e Hmiss Hv). simpl.
    repeat split. eapply validate_raises; eauto.
Qed.

Lemma Apply_mismatch_panics_witness :
  let o := {| CounterOptions_MetricOptions :=
                {| MetricOptions_Name := "requests"; Subsystem := "";
                   Namespace := ""; Dimensions := ["a"; "b"]; Help := "h" |};
              DefaultValue := 0%float |} in
  let w := newWorld (counterFamily_literal o) in
  let p := {| labels := [ {| Name := "a"; Value := "x" |} ] |} in
  exists e,
    counterPartial_Apply p w = Panic e w /\
    isValidationError e = true /\
    children (family (final (counterPartial_Apply p w))) = children (family w) /\
    childrenSet (family (final (counterPartial_Apply p w))) = childrenSet (family w).
Proof.
  intros o w p. apply (Apply_mismatch_panics w p).
  - reflexivity.
  - left. simpl. lia.
Defined.

(** The first child of a family: where [register] puts it and what the
    index says afterwards. *)
Lemma register_first (h : gmap loc counter) (n : loc) (f : counterFamily)
    (c : loc) (cv : counter) :
  h !! c = Some cv ->
  children f = [] ->
  counterFamily_register c {| heap := h; next := n; family := f |} =
  Ok tt {| heap := h; next := n;
           family := set_childrenSet (set_children f [c])
                       (<[counter_fingerprint cv := 0]> (childrenSet f)) |}.
Proof.
  intros Hc Hnil. unfold counterFamily_register. simpl. rewrite Hnil. simpl.
  now rewrite Hc.
Qed.

Lemma Apply_first (p : counterPartial) (f : counterFamily) :
  children f = [] ->
  childrenSet f = ∅ ->
  matchesDimensions (Dimensions (CounterOptions_MetricOptions (options f)))
    (labels p) ->
  counterPartial_Apply p (newWorld f) =
  Ok 0%nat
     {| heap := {[ 0%nat :=
                   {| Labels := canonicalize (labels p);
                      counter_Value := DefaultValue (options f);
                      counter_fingerprint :=
                        labelPairs_fingerprint (canonicalize (labels p)) |} ]};
        next := 1%nat;
        family := set_childrenSet (set_children f [0%nat])
                    {[ labelPairs_fingerprint (canonicalize (labels p)) := 0 ]} |}.
Proof.
  intros Hnil Hset Hm. rewrite Apply_created; simpl.
  - unfold bind, alloc. simpl.
    erewrite register_first; [|apply lookup_insert_eq|exact Hnil].
    simpl. unfold ret. now rewrite Hset.
  - rewrite Hset. apply lookup_empty.
  - apply validate_ok. eapply matchesDimensions_perm; [|exact Hm].
    symmetry. apply canonicalize_Permutation.
Qed.

(** On a family that has just been declared, with any options, two
    [NewChild(L).Apply()] calls in a row, the second with the pairs of [L]
    given in any other order, return the same counter (the same location,
    not an equal copy), the second call leaves the family as the first
    left it, and the family has one child. [L] has one pair per declared
    dimension. [Apply_twice_consistent] below has the same for every
    family whose index is consistent. *)
Theorem Apply_twice_same_instance (o : CounterOptions) (L L' : labelPairs) :
  matchesDimensions (Dimensions (CounterOptions_MetricOptions o)) L ->
  Permutation L L' ->
  exists (c : loc) (w1 : world),
    (p <- lift (counterFamily_NewChild (flatten L)) ;; counterPartial_Apply p)
      (newWorld (counterFamily_literal o)) = Ok c w1 /\
    (p' <- lift (counterFamily_NewChild (flatten L')) ;; counterPartial_Apply p')
      w1 = Ok c w1 /\
    is_Some (heap w1 !! c) /\
    length (children (family w1)) = 1%nat.
Proof.
  intros Hm Hp. eexists _, _. rewrite !NewChild_flatten. unfold lift, bind, ret.
  split; [apply Apply_first; [reflexivity|reflexivity|exact Hm]|].
  split; [|split].
  - eapply (Apply_found _ _ 0); simpl.
    + rewrite <- (canonicalize_perm L L' Hp). apply lookup_insert_eq.
    + reflexivity.
  - simpl. rewrite lookup_singleton_eq. eauto.
  - reflexivity.
Qed.

Lemma Apply_twice_same_instance_witness :
  let o := {| CounterOptions_MetricOptions :=
                {| MetricOptions_Name := "requests"; Subsystem := "";
                   Namespace := ""; Dimensions := ["method"; "code"];
                   Help := "h" |};
              DefaultValue := 0%float |} in
  let L := [ {| Name := "method"; Value := "GET" |};
             {| Name := "code"; Value := "200" |} ] in
  let L' := [ {| Name := "code"; Value := "200" |};
              {| Name := "method"; Value := "GET" |} ] in
  exists (c : loc) (w1 : world),
    (p <- lift (counterFamily_NewChild (flatten L)) ;; counterPartial_Apply p)
      (newWorld (counterFamily_literal o)) = Ok c w1 /\
    (p' <- lift (counterFamily_NewChild (flatten L')) ;; counterPartial_Apply p')
      w1 = Ok c w1 /\
    is_Some (heap w1 !! c) /\
    length (children (family w1)) = 1%nat.
Proof.
  intros o L L'. apply (Apply_twice_same_instance o L L').
  - split; [reflexivity|]. split.
    + apply NoDup_ListNoDup. repeat constructor; simpl; intuition discriminate.
    + intros n [<-|[<-|[]]]; simpl; auto.
  - apply perm_swap.
Defined.

(** ** Fingerprints that coincide *)

Lemma append_assoc (a b c : string) : (a +:+ b) +:+ c = a +:+ (b +:+ c).
Proof.
  induction a as [|x a IH]; [reflexivity|].
  change (String x ((a +:+ b) +:+ c) = String x (a +:+ (b +:+ c))).
  now rewrite IH.
Qed.

(** Moving bytes from the end of a name to the front of its value does
    not change what the digest is fed. *)
Lemma fingerprint_shift (a b c : string) :
  labelPairs_fingerprint [ {| Name := a +:+ b; Value := c |} ] =
  labelPairs_fingerprint [ {| Name := a; Value := b +:+ c |} ].
Proof.
  unfold labelPairs_fingerprint. cbn [fold_left Name Value].
  now rewrite append_assoc.
Qed.

(** C9. The fingerprint is not injective on canonical label sets: the
    label sets [ab=c] and [a=bc] are different, both canonical, and have
    the same fingerprint; on a family with the one dimension [ab], after
    [Apply] has created the counter of [ab=c], [Apply] of [a=bc] returns
    that same counter. *)
Theorem fingerprint_not_injective :
  let l1 := [ {| Name := "ab"; Value := "c" |} ] in
  let l2 := [ {| Name := "a"; Value := "bc" |} ] in
  let o := {| CounterOptions_MetricOptions :=
                {| MetricOptions_Name := "requests"; Subsystem := "";
                   Namespace := ""; Dimensions := ["ab"]; Help := "h" |};
              DefaultValue := 0%float |} in
  l1 <> l2 /\ canonical l1 /\ canonical l2 /\
  labelPairs_fingerprint l1 = labelPairs_fingerprint l2 /\
  exists (c : loc) (w1 : world),
    counterPartial_Apply {| labels := l1 |} (newWorld (counterFamily_literal o))
      = Ok c w1 /\
    (exists cv, heap w1 !! c = Some cv /\ Labels cv = l1) /\
    counterPartial_Apply {| labels := l2 |} w1 = Ok c w1.
Proof.
  intros l1 l2 o. split; [discriminate|].
  split; [repeat constructor|]. split; [repeat constructor|].
  split; [apply (fingerprint_shift "a" "b" "c")|].
  eexists _, _. split; [|split].
  - apply Apply_first; [reflexivity|reflexivity|].
    split; [reflexivity|]. split.
    + apply NoDup_ListNoDup. repeat constructor. simpl. tauto.
    + intros n [<-|[]]. simpl. auto.
  - eexists. split; [apply lookup_insert_eq|reflexivity].
  - eapply (Apply_found _ _ 0); [|reflexivity].
    vm_compute. reflexivity.
Qed.

(** ** The registry *)

Lemma reindexFamilies_keeps (fs : list Family) : forall i (m : gmap Z Z) k,
  is_Some (m !! k) -> is_Some (reindexFamilies fs i m !! k).
Proof.
  induction fs as [|f fs IH]; intros i m k Hk; simpl; [exact Hk|].
  apply IH. destruct (decide (Family_fingerprint f = k)) as [->|Hne].
  - rewrite lookup_insert_eq. eauto.
  - now rewrite lookup_insert_ne.
Qed.

Lemma reindexFamilies_covers (fs : list Family) : forall i (m : gmap Z Z) f,
  In f fs -> is_Some (reindexFamilies fs i m !! Family_fingerprint f).
Proof.
  induction fs as [|g fs IH]; intros i m f; simpl; [intros []|].
  intros [->|Hin]; [|now apply IH].
  apply reindexFamilies_keeps. rewrite lookup_insert_eq. eauto.
Qed.

Lemma families_Sort_Permutation (fs : list Family) :
  fst (sort.Sort families_Less fs) ≡ₚ fs.
Proof.
  change families_Less with
    (fun a b => Val (GoString.lt (Family_familyName a) (Family_familyName b))).
  apply sortFacts.Sort_Permutation.
Qed.

(** Every family in the sequence of a registry has its fingerprint in the
    index. *)
Lemma registered_indexed (r : registry) :
  registered r ->
  forall f, In f (families r) -> is_Some (familiesSet r !! Family_fingerprint f).
Proof.
  induction 1 as [|r g Hr IH]; [intros f []|].
  unfold registry_register.
  destruct (familiesSet r !! Family_fingerprint g) eqn:E; simpl; [exact IH|].
  intros f Hf. now apply reindexFamilies_covers.
Qed.

(** [register] panics exactly when the fingerprint is in the index, and
    then it has changed nothing. *)
Lemma register_panics_iff (r : registry) (f : Family) :
  (exists e r', registry_register f r = Panic e r') <->
  is_Some (familiesSet r !! Family_fingerprint f).
Proof.
  unfold registry_register.
  destruct (familiesSet r !! Family_fingerprint f) eqn:E.
  - split; eauto.
  - split; [intros (e & r' & [=])|intros [? [=]]].
Qed.

Lemma register_same_fingerprint (r : registry) (f g : Family) :
  registered r -> In g (families r) ->
  Family_fingerprint f = Family_fingerprint g ->
  registry_register f r = Panic (AlreadyRegistered (Family_familyName f)) r.
Proof.
  intros Hr Hg Hfp. destruct (registered_indexed r Hr g Hg) as [i Hi].
  unfold registry_register. now rewrite Hfp, Hi.
Qed.

(** C6. In a registry that holds a family declared with options of
    derived name [N], registering a second family whose options have the
    same derived name panics with "illegal metric: N is already
    registered", and the registry (its sequence of families, their
    number, its index) is as it was. Every constructor leaves the
    fingerprint of its family at the zero value, and it is the fingerprint
    that [register] looks up. *)
Theorem register_same_name_panics (r : registry) (o1 o2 : CounterOptions) :
  let N := MetricOptions_deriveName (CounterOptions_MetricOptions o1) in
  registered r ->
  In (counterFamily_Family (counterFamily_literal o1)) (families r) ->
  MetricOptions_deriveName (CounterOptions_MetricOptions o2) = N ->
  let after := registry_register
                 (counterFamily_Family (counterFamily_literal o2)) r in
  after = Panic (AlreadyRegistered N) r /\
  isInvariantViolation (AlreadyRegistered N) = true /\
  length (families (final after)) = length (families r) /\
  familiesSet (final after) = familiesSet r.
Proof.
  intros N Hr Hin HN after. unfold after.
  rewrite (register_same_fingerprint r
             (counterFamily_Family (counterFamily_literal o2))
             (counterFamily_Family (counterFamily_literal o1)) Hr Hin eq_refl).
  simpl. rewrite HN. repeat split.
Qed.

Lemma register_same_name_panics_witness :
  let mo ns sub :=
    {| MetricOptions_Name := "total"; Subsystem := sub; Namespace := ns;
       Dimensions := ["method"]; Help := "h" |} in
  let o1 := {| CounterOptions_MetricOptions := mo "http" "requests";
               DefaultValue := 0%float |} in
  let o2 := {| CounterOptions_MetricOptions := mo "http" "requests";
               DefaultValue := 1%float |} in
  let r := final (NewCounterFamily o1 newRegistry) in
  let after := registry_register
                 (counterFamily_Family (counterFamily_literal o2)) r in
  after = Panic (AlreadyRegistered "http_requests_total") r /\
  isInvariantViolation (AlreadyRegistered "http_requests_total") = true /\
  length (families (final after)) = length (families r) /\
  familiesSet (final after) = familiesSet r.
Proof.
  intros mo o1 o2 r after.
  apply (register_same_name_panics r o1 o2).
  - apply (registered_step newRegistry
             (counterFamily_Family (counterFamily_literal o1))).
    apply registered_new.
  - vm_compute. left. reflexivity.
  - reflexivity.
Defined.

(** C10. Name derivation is not injective: the options with namespace
    ["a"], no subsystem and name ["b"], and the options with no namespace,
    subsystem ["a"] and name ["b"], are different and both derive
    ["a_b"]; declaring a family with the first on a new registry
    succeeds, and declaring one with the second then panics in
    [register]: a family named ["a_b"] is already registered. *)
Theorem deriveName_not_injective :
  let o1 := {| CounterOptions_MetricOptions :=
                 {| MetricOptions_Name := "b"; Subsystem := ""; Namespace := "a";
                    Dimensions := []; Help := "h" |};
               DefaultValue := 0%float |} in
  let o2 := {| CounterOptions_MetricOptions :=
                 {| MetricOptions_Name := "b"; Subsystem := "a"; Namespace := "";
                    Dimensions := []; Help := "h" |};
               DefaultValue := 0%float |} in
  CounterOptions_MetricOptions o1 <> CounterOptions_MetricOptions o2 /\
  MetricOptions_deriveName (CounterOptions_MetricOptions o1) = "a_b" /\
  MetricOptions_deriveName (CounterOptions_MetricOptions o2) = "a_b" /\
  exists (f1 : counterFamily) (r1 : registry),
    NewCounterFamily o1 newRegistry = Ok f1 r1 /\
    name f1 = "a_b" /\
    length (families r1) = 1%nat /\
    NewCounterFamily o2 r1 = Panic (AlreadyRegistered "a_b") r1.
Proof.
  intros o1 o2. split; [discriminate|]. split; [reflexivity|].
  split; [reflexivity|]. eexists _, _.
  split; [vm_compute; reflexivity|]. repeat split.
Qed.

(** ** What every reachable state of a family satisfies *)

Lemma slice_elem_of {A} (a b : list A) (lo hi : Z) (x : A) :
  slice a lo hi = Some b -> x ∈ b -> x ∈ a.
Proof.
  unfold slice. destruct (_ && _); [|discriminate]. intros [= <-] Hx.
  now apply subseteq_take, subseteq_drop in Hx.
Qed.

Lemma wellFormed_children (w : world) (cs : list loc) (m : gmap Z Z) :
  wellFormed w ->
  (forall p, p ∈ cs -> p ∈ children (family w)) ->
  wellFormed (set_family w (set_childrenSet (set_children (family w) cs) m)).
Proof. intros [Hc Hl] Hsub. split; simpl; auto. Qed.

Lemma update_wellFormed (w : world) (p : loc) (g : counter -> counter) :
  (forall c, Labels (g c) = Labels c) ->
  wellFormed w -> wellFormed (final (update p g w)).
Proof.
  intros Hg [Hc Hl]. unfold update.
  destruct (heap w !! p) as [c|] eqn:E; simpl; [|split; auto].
  split; simpl.
  - intros q Hq. destruct (decide (p = q)) as [->|Hne].
    + rewrite lookup_insert_eq. eauto.
    + rewrite lookup_insert_ne by exact Hne. auto.
  - intros q c'. destruct (decide (p = q)) as [->|Hne].
    + rewrite lookup_insert_eq. intros [= <-]. rewrite Hg. eauto.
    + rewrite lookup_insert_ne by exact Hne. eauto.
Qed.

Lemma ResetAll_loop_wellFormed (cs : list loc) : forall w,
  wellFormed w -> wellFormed (final (ResetAll_loop cs w)).
Proof.
  induction cs as [|c cs IH]; intros w Hw; simpl; [exact Hw|].
  unfold bind. pose proof (update_wellFormed w c
    (fun cv => set_Value cv (DefaultValue (options (family w))))
    (fun _ => eq_refl) Hw) as H1.
  unfold counter_Reset.
  destruct (update c _ w) as [[] w'|e w']; simpl in *; auto.
Qed.

Lemma forget_wellFormed (w : world) (fingerprint : Z) :
  wellFormed w -> wellFormed (final (counterFamily_forget fingerprint w)).
Proof.
  intros Hw. unfold counterFamily_forget.
  destruct (childrenSet (family w) !! fingerprint) as [i|]; [|exact Hw].
  assert (Hkeep : forall m,
    wellFormed (set_family w (set_childrenSet (family w) m))).
  { intros m. destruct Hw. split; simpl; auto. }
  assert (Hcut : forall m cs,
    (forall p, p ∈ cs -> p ∈ children (family w)) ->
    wellFormed (set_family w (set_children (set_childrenSet (family w) m) cs))).
  { intros m cs Hsub. destruct Hw. split; simpl; auto. }
  repeat match goal with
  | |- context [if ?b then _ else _] => destruct b
  | |- context [match slice ?a ?lo ?hi with _ => _ end] =>
      let E := fresh "E" in destruct (slice a lo hi) eqn:E
  end; simpl; try apply Hkeep; apply Hcut; intros p Hp;
  try (apply elem_of_app in Hp as [Hp|Hp]); eauto using slice_elem_of.
Qed.

Lemma register_children (w : world) (c : loc) :
  children (family (final (counterFamily_register c w)))
    ≡ₚ children (family w) ++ [c].
Proof.
  unfold counterFamily_register.
  pose proof (sortFacts.Sort_Permutation_any
                (counterChildren_Less (heap w)) (children (family w) ++ [c])) as Hp.
  destruct (sort.Sort _ _) as [cs [e|]]; simpl in *; [exact Hp|].
  destruct (reindex _ _ _ _) as [m [e|]]; simpl; exact Hp.
Qed.

Lemma register_heap (w : world) (c : loc) :
  heap (final (counterFamily_register c w)) = heap w.
Proof.
  unfold counterFamily_register.
  destruct (sort.Sort _ _) as [cs [e|]]; simpl; [reflexivity|].
  destruct (reindex _ _ _ _) as [m [e|]]; reflexivity.
Qed.

Lemma Apply_wellFormed (w : world) (p : counterPartial) :
  wellFormed w -> wellFormed (final (counterPartial_Apply p w)).
Proof.
  intros Hw. unfold counterPartial_Apply, bind, counterFamily_find.
  destruct (childrenSet (family w) !! _) as [i|].
  { destruct (index _ i); exact Hw. }
  unfold lift. destruct (counterPartial_validate _ _) as [[]|e]; [|exact Hw].
  unfold ret, throw, alloc. simpl.
  set (cv := {| Labels := canonicalize (labels p) |}).
  set (w1 := {| heap := <[next w := cv]> (heap w) |}).
  assert (Hw1 : wellFormed (final (counterFamily_register (next w) w1))).
  { destruct Hw as [Hc Hl]. split.
    - intros q Hq. rewrite register_heap. rewrite register_children in Hq.
      simpl in *. destruct (decide (next w = q)) as [->|Hne].
      + rewrite lookup_insert_eq. eauto.
      + rewrite lookup_insert_ne by exact Hne.
        apply elem_of_app in Hq as [Hq|Hq%list_elem_of_singleton]; [auto|].
        congruence.
    - intros q c'. rewrite register_heap. simpl.
      destruct (decide (next w = q)) as [->|Hne].
      + rewrite lookup_insert_eq. intros [= <-]. apply canonicalize_canonical.
      + rewrite lookup_insert_ne by exact Hne. eauto. }
  destruct (counterFamily_register (next w) w1); exact Hw1.
Qed.

Lemma run_wellFormed (a : op) (w : world) :
  wellFormed w -> wellFormed (final (run a w)).
Proof.
  intros Hw. destruct a; simpl;
    try (apply update_wellFormed; [reflexivity|exact Hw]).
  - unfold bind. pose proof (Apply_wellFormed w p Hw).
    destruct (counterPartial_Apply p w); assumption.
  - unfold counter_Forget, bind, deref.
    destruct (heap w !! c); [|exact Hw]. now apply forget_wellFormed.
  - apply wellFormed_children; [exact Hw|]. intros p Hp. inversion Hp.
  - now apply ResetAll_loop_wellFormed.
Qed.

Lemma reachable_wellFormed (o : CounterOptions) (w : world) :
  reachable o w -> wellFormed w.
Proof.
  induction 1 as [|w a Hr IH]; [|now apply run_wellFormed].
  split; simpl.
  - intros p Hp. inversion Hp.
  - intros p c. rewrite lookup_empty. discriminate.
Qed.

Lemma run_name (a : op) (w : world) :
  name (family (final (run a w))) = name (family w).
Proof.
  assert (Hu : forall p g, name (family (final (update p g w))) = name (family w)).
  { intros p g. unfold update. destruct (heap w !! p); reflexivity. }
  destruct a; simpl; try exact (Hu _ _); try reflexivity.
  - unfold bind, counterPartial_Apply, bind, counterFamily_find.
    destruct (childrenSet (family w) !! _) as [i|].
    { destruct (index _ i); reflexivity. }
    unfold lift. destruct (counterPartial_validate _ _) as [[]|e]; [|reflexivity].
    unfold ret, throw, alloc, counterFamily_register. simpl.
    destruct (sort.Sort _ _) as [cs [e|]]; simpl; [reflexivity|].
    destruct (reindex _ _ _ _) as [m [e|]]; reflexivity.
  - unfold counter_Forget, bind, deref, counterFamily_forget.
    destruct (heap w !! c); [|reflexivity].
    destruct (childrenSet (family w) !! _); [|reflexivity].
    repeat match goal with
    | |- context [if ?b then _ else _] => destruct b
    | |- context [match slice ?a ?lo ?hi with _ => _ end] =>
        destruct (slice a lo hi)
    end; reflexivity.
  - unfold counterFamily_ResetAll. generalize (children (family w)).
    intros cs. revert w Hu. induction cs as [|c cs IH]; intros w Hu; [reflexivity|].
    simpl. unfold bind, counter_Reset.
    pose proof (Hu c (fun cv => set_Value cv (DefaultValue (options (family w))))) as H1.
    destruct (update c _ w) as [[] w'|e w'] eqn:E; simpl in *; [|exact H1].
    rewrite <- H1. apply IH. intros p g. unfold update.
    destruct (heap w' !! p); reflexivity.
Qed.

Lemma reachable_runAll (o : CounterOptions) (ops : list op) : forall w,
  reachable o w -> reachable o (runAll ops w).
Proof.
  induction ops as [|a ops IH]; intros w Hw; [exact Hw|].
  apply IH. now apply reachable_step.
Qed.

Lemma reachable_name (o : CounterOptions) (w : world) :
  reachable o w ->
  name (family w) = MetricOptions_deriveName (CounterOptions_MetricOptions o).
Proof.
  induction 1 as [|w a Hr IH]; [reflexivity|]. now rewrite run_name.
Qed.

(** ** The text dump *)

Lemma asText_textLine (nm : familyName) (c : counter) :
  nm +:+ counter_asText c +:+ newline = textLine nm c.
Proof.
  unfold textLine, counter_asText, labelPairs_String, labelPairs_Strings.
  now rewrite !append_assoc.
Qed.

Lemma dumpText_loop_lines (h : gmap loc counter) (nm : familyName)
    (cs : list loc) : forall (cvs : list counter) (buf : string),
  Forall2 (fun p c => h !! p = Some c) cs cvs ->
  dumpText_loop Buffer_Write h nm cs buf =
  Ok None (buf +:+ joinLines (map (textLine nm) cvs)).
Proof.
  induction cs as [|p cs IH]; intros cvs buf Hall.
  - apply Forall2_nil_inv_l in Hall as ->. simpl. unfold ret. f_equal.
    induction buf as [|x buf IHb]; [reflexivity|].
    change (String x buf = String x (buf +:+ "")). now rewrite <- IHb.
  - apply Forall2_cons_inv_l in Hall as (c & cvs' & Hp & Hall & ->).
    simpl. rewrite Hp. unfold Buffer_Write. rewrite (IH cvs' _ Hall).
    now rewrite asText_textLine, append_assoc.
Qed.

Lemma children_counters (w : world) :
  wellFormed w ->
  exists cvs : list counter,
    Forall2 (fun p c => heap w !! p = Some c) (children (family w)) cvs /\
    Forall (fun c => canonical (Labels c)) cvs.
Proof.
  intros [Hc Hl]. induction (children (family w)) as [|p cs IH].
  - exists []. split; constructor.
  - destruct (Hc p) as [c Hp]; [left|].
    destruct IH as (cvs & H2 & Hcan); [intros q Hq; apply Hc; now right|].
    exists (c :: cvs). split; constructor; eauto.
Qed.

(** *** The program's line against the specification's *)

Lemma strings_Join_commaJoined (items : list string) :
  strings_Join items "," = commaJoined items.
Proof.
  destruct items as [|first others]; [reflexivity|].
  revert first. induction others as [|item others IH]; intros first.
  - simpl. induction first as [|x first IHf]; [reflexivity|].
    change (String x first = String x (first +:+ "")). now rewrite <- IHf.
  - change (first +:+ "," +:+ strings_Join (item :: others) "," =
            first +:+ "," +:+ item +:+
            fold_right (fun item rest => "," +:+ item +:+ rest) "" others).
    rewrite (IH item). reflexivity.
Qed.

Lemma numeralValue_from_acc (s : string) : forall acc,
  numeralValue_from acc s =
  (fun v => acc * 10 ^ Z.of_nat (String.length s) + v) <$> numeralValue_from 0 s.
Proof.
  induction s as [|c s IH]; intros acc; simpl.
  - f_equal. lia.
  - destruct (digitValue c) as [d|]; [|reflexivity].
    rewrite (IH (10 * acc + d)), (IH (10 * 0 + d)).
    destruct (numeralValue_from 0 s) as [v|]; simpl; [|reflexivity].
    f_equal. rewrite Nat2Z.inj_succ, Z.pow_succ_r by lia. lia.
Qed.

Lemma length_string_of_uint (d : Decimal.uint) :
  Z.of_nat (String.length (NilEmpty.string_of_uint d))
  = Z.of_N (DecimalPos.Unsigned.usize d).
Proof.
  induction d; simpl String.length; simpl DecimalPos.Unsigned.usize;
    try reflexivity; rewrite Nat2Z.inj_succ, IHd; lia.
Qed.

Lemma of_uint_cons (d : Decimal.uint) (k : Decimal.uint -> Decimal.uint) :
  Decimal.rev (k d) = Decimal.revapp d (k Decimal.Nil) ->
  Z.of_N (Pos.of_uint (k d)) =
  Z.of_N (DecimalPos.Unsigned.of_lu (k Decimal.Nil))
    * 10 ^ Z.of_N (DecimalPos.Unsigned.usize d)
  + Z.of_N (Pos.of_uint d).
Proof.
  intros Hrev.
  rewrite (DecimalPos.Unsigned.of_uint_alt (k d)), Hrev,
    DecimalPos.Unsigned.of_lu_revapp, <- DecimalPos.Unsigned.of_uint_alt.
  rewrite N2Z.inj_add, N2Z.inj_mul, N2Z.inj_pow. simpl Z.of_N at 3. lia.
Qed.

Lemma numeralValue_string_of_uint (d : Decimal.uint) :
  numeralValue (NilEmpty.string_of_uint d) = Some (Z.of_N (Pos.of_uint d)).
Proof.
  unfold numeralValue.
  induction d as [|d IH|d IH|d IH|d IH|d IH|d IH|d IH|d IH|d IH|d IH];
    [reflexivity|..];
    cbn [NilEmpty.string_of_uint numeralValue_from];
    match goal with
    | |- context [digitValue ?c] =>
      let v := eval vm_compute in (digitValue c) in
      change (digitValue c) with v; cbv iota beta
    end;
    rewrite numeralValue_from_acc, IH; cbn [fmap option_fmap option_map];
    f_equal; rewrite length_string_of_uint;
    match goal with
    | |- _ = Z.of_N (Pos.of_uint (?k d)) =>
      rewrite (of_uint_cons d k eq_refl)
    end; simpl DecimalPos.Unsigned.of_lu; lia.
Qed.

Lemma numeralValue_decimal (n : Z) :
  0 <= n -> numeralValue (fmt.decimal n) = Some n.
Proof.
  intros Hn. unfold fmt.decimal, NilZero.string_of_uint.
  pose proof (DecimalN.Unsigned.of_to (Z.to_N n)) as Hof.
  unfold N.of_uint in Hof.
  destruct (N.to_uint (Z.to_N n)) eqn:E;
    try (rewrite <- E at 1; rewrite <- E in Hof;
         rewrite numeralValue_string_of_uint, Hof; f_equal; lia).
  simpl in Hof. vm_compute. f_equal. lia.
Qed.

Lemma decimal_no_leading_zero (n : Z) :
  fmt.decimal n = "0" \/
  exists c r, fmt.decimal n = String c r /\ c <> "0"%char.
Proof.
  unfold fmt.decimal.
  pose proof (DecimalN.Unsigned.to_of (N.to_uint (Z.to_N n))) as Hnorm.
  rewrite DecimalN.Unsigned.of_to in Hnorm.
  set (d := N.to_uint (Z.to_N n)) in *. clearbody d.
  unfold Decimal.unorm in Hnorm.
  pose proof (DecimalFacts.nzhead_nonzero d) as Hnz.
  destruct (Decimal.nzhead d) eqn:E; subst d;
    try (left; reflexivity);
    try (right; eexists _, _; split; [reflexivity|discriminate]).
  destruct (Hnz _ eq_refl).
Qed.

Lemma numeralValue_from_lower (s : string) : forall acc v,
  0 <= acc -> numeralValue_from acc s = Some v ->
  acc * 10 ^ Z.of_nat (String.length s) <= v.
Proof.
  induction s as [|c s IH]; intros acc v Hacc; simpl.
  - intros [= <-]. lia.
  - unfold digitValue.
    destruct (_ && _) eqn:E; [|discriminate].
    apply andb_true_iff in E as [E1 E2].
    apply Z.leb_le in E1. intros Hv. apply IH in Hv; [|lia].
    rewrite Nat2Z.inj_succ, Z.pow_succ_r by lia.
    etransitivity; [|exact Hv].
    assert (0 <= 10 ^ Z.of_nat (String.length s)) by (apply Z.pow_nonneg; lia).
    nia.
Qed.

Lemma length_decimal (n : Z) (k : nat) :
  0 <= n < 10 ^ Z.of_nat k -> (1 <= k)%nat ->
  (String.length (fmt.decimal n) <= k)%nat.
Proof.
  intros Hn Hk. pose proof (numeralValue_decimal n (proj1 Hn)) as Hv.
  destruct (decimal_no_leading_zero n) as [->|(c & r & Hs & Hc)]; [simpl; lia|].
  rewrite Hs in *. unfold numeralValue in Hv. simpl in Hv.
  destruct (digitValue c) as [d|] eqn:Hd; [|discriminate].
  assert (1 <= d).
  { unfold digitValue in Hd. destruct (_ && _) eqn:E; [|discriminate].
    injection Hd as <-. apply andb_true_iff in E as [E1 E2].
    apply Z.leb_le in E1.
    destruct (Z.eq_dec (Z.of_nat (nat_of_ascii c)) 48) as [H48|]; [|lia].
    destruct Hc. rewrite <- (ascii_nat_embedding c).
    replace (nat_of_ascii c) with 48%nat by lia. reflexivity. }
  apply numeralValue_from_lower in Hv; [|lia].
  simpl String.length.
  destruct (Nat.le_gt_cases (S (String.length r)) k) as [|Hgt]; [assumption|].
  exfalso.
  assert (10 ^ Z.of_nat k <= 10 ^ Z.of_nat (String.length r))
    by (apply Z.pow_le_mono_r; lia).
  assert (0 < 10 ^ Z.of_nat (String.length r)) by (apply Z.pow_pos_nonneg; lia).
  nia.
Qed.

Lemma length_zeros (n : nat) : String.length (fmt.zeros n) = n.
Proof.
  unfold fmt.zeros. induction n as [|n IH]; simpl; [reflexivity|].
  now rewrite IH.
Qed.

Lemma length_append (a b : string) :
  String.length (a +:+ b) = (String.length a + String.length b)%nat.
Proof.
  induction a as [|c a IH]; [reflexivity|].
  change (S (String.length (a +:+ b)) = S (String.length a + String.length b)).
  now rewrite IH.
Qed.

Lemma numeralValue_zeros (n : nat) (s : string) :
  numeralValue (fmt.zeros n +:+ s) = numeralValue s.
Proof.
  unfold fmt.zeros, numeralValue. induction n as [|n IH]; [reflexivity|].
  change (numeralValue_from 0
            (String "0" (string_of_list_ascii (repeat "0"%char n) +:+ s))
          = numeralValue_from 0 s).
  cbn [numeralValue_from].
  change (digitValue "0") with (Some 0). exact IH.
Qed.

Lemma fixed6_numeral (negative : bool) (n : Z) :
  0 <= n -> fixedPointNumeral negative n (fmt.sign negative +:+ fmt.fixed6 n).
Proof.
  intros Hn. unfold fmt.fixed6.
  assert (0 <= n / 1000000) by (apply Z.div_pos; lia).
  assert (0 <= n mod 1000000 < 1000000) by (apply Z.mod_pos_bound; lia).
  exists (fmt.decimal (n / 1000000)), (fmt.pad6 (fmt.decimal (n mod 1000000))),
         (n / 1000000), (n mod 1000000).
  split; [reflexivity|]. split; [apply decimal_no_leading_zero|].
  assert (Hlen : (String.length (fmt.decimal (n mod 1000000)) <= 6)%nat)
    by (apply length_decimal; [simpl; lia|lia]).
  split; [unfold fmt.pad6; rewrite length_append, length_zeros; lia|].
  split; [apply numeralValue_decimal; lia|].
  split; [unfold fmt.pad6; rewrite numeralValue_zeros;
          apply numeralValue_decimal; lia|].
  pose proof (Z.div_mod n 1000000). lia.
Qed.

Lemma roundHalfEven_nearest (num den : Z) :
  0 < den -> nearest num den (fmt.roundHalfEven num den).
Proof.
  intros Hden. unfold nearest, fmt.roundHalfEven.
  pose proof (Z.div_mod num den ltac:(lia)) as Hdm.
  pose proof (Z.mod_pos_bound num den Hden) as Hr.
  set (q := num / den) in *. set (r := num mod den) in *. clearbody q r.
  destruct (Z.ltb_spec (2 * r) den); [split; [nia|intros; nia]|].
  destruct (Z.ltb_spec den (2 * r)); [split; [nia|intros; nia]|].
  destruct (Z.even q) eqn:Eq; [split; [nia|auto]|].
  split; [nia|]. intros _. rewrite Z.even_add, Eq. reflexivity.
Qed.

Lemma roundHalfEven_nonneg (num den : Z) :
  0 <= num -> 0 < den -> 0 <= fmt.roundHalfEven num den.
Proof.
  intros Hn Hd. unfold fmt.roundHalfEven.
  assert (0 <= num / den) by (apply Z.div_pos; lia).
  repeat destruct (_ <? _); try destruct (Z.even _); lia.
Qed.

Lemma f_fixedPoint (x : float) : fixedPoint x (fmt.f x).
Proof.
  unfold fixedPoint, fmt.f. destruct (Prim2SF x) as [s|s| |s m e]; try reflexivity.
  - apply fixed6_numeral. lia.
  - destruct (Z.leb_spec 0 e) as [He|He].
    + exists (Z.pos m * 2 ^ e * 1000000). split; [|apply fixed6_numeral].
      * rewrite Z.max_l, Z.max_r by lia. split; [lia|intros; lia].
      * assert (0 <= 2 ^ e) by (apply Z.pow_nonneg; lia). nia.
    + assert (0 < 2 ^ (- e)) by (apply Z.pow_pos_nonneg; lia).
      exists (fmt.roundHalfEven (Z.pos m * 1000000) (2 ^ (- e))).
      split; [|apply fixed6_numeral, roundHalfEven_nonneg; lia].
      rewrite Z.max_r, Z.max_l by lia. rewrite Z.pow_0_r, Z.mul_1_r.
      now apply roundHalfEven_nearest.
Qed.

Lemma nearest_unique (num den n n' : Z) :
  0 < den -> nearest num den n -> nearest num den n' -> n = n'.
Proof.
  intros Hden [H1 E1] [H2 E2].
  destruct (Z.eq_dec n n') as [|Hne]; [assumption|exfalso].
  assert (Hcases : n' = n + 1 \/ n = n' + 1) by nia.
  assert (Ht1 : 2 * Z.abs (n * den - num) = den) by nia.
  assert (Ht2 : 2 * Z.abs (n' * den - num) = den) by nia.
  specialize (E1 Ht1). specialize (E2 Ht2).
  destruct Hcases as [->| ->]; rewrite Z.even_add in *;
    [rewrite E1 in E2|rewrite E2 in E1]; discriminate.
Qed.

Lemma digitValue_range (c : ascii) (d : Z) : digitValue c = Some d -> 0 <= d <= 9.
Proof.
  unfold digitValue. destruct (_ && _) eqn:E; [|discriminate].
  intros [= <-]. apply andb_true_iff in E as [E1 E2].
  apply Z.leb_le in E1, E2. lia.
Qed.

Lemma digitValue_inj (c c' : ascii) (d : Z) :
  digitValue c = Some d -> digitValue c' = Some d -> c = c'.
Proof.
  unfold digitValue.
  destruct (_ && _); [|discriminate]. destruct (_ && _); [|discriminate].
  intros [= <-] [= H]. rewrite <- (ascii_nat_embedding c), <- (ascii_nat_embedding c').
  f_equal. lia.
Qed.

Lemma numeralValue_upper (s : string) (v : Z) :
  numeralValue s = Some v -> 0 <= v < 10 ^ Z.of_nat (String.length s).
Proof.
  unfold numeralValue. revert v. induction s as [|c s IH]; intros v; simpl.
  - intros [= <-]. lia.
  - destruct (digitValue c) as [d|] eqn:Hd; [|discriminate].
    rewrite numeralValue_from_acc.
    destruct (numeralValue_from 0 s) as [u|]; [|discriminate].
    intros [= <-]. specialize (IH u eq_refl). apply digitValue_range in Hd.
    rewrite Nat2Z.inj_succ, Z.pow_succ_r by lia. nia.
Qed.

Lemma numeralValue_cons (c : ascii) (s : string) (v : Z) :
  numeralValue (String c s) = Some v ->
  exists d u, digitValue c = Some d /\ numeralValue s = Some u /\
              v = d * 10 ^ Z.of_nat (String.length s) + u.
Proof.
  unfold numeralValue. simpl.
  destruct (digitValue c) as [d|]; [|discriminate].
  rewrite numeralValue_from_acc.
  destruct (numeralValue_from 0 s) as [u|]; [|discriminate].
  intros [= <-]. exists d, u. split; [reflexivity|]. split; [reflexivity|lia].
Qed.

Lemma numeralValue_inj (a : string) : forall (b : string) (v : Z),
  String.length a = String.length b ->
  numeralValue a = Some v -> numeralValue b = Some v -> a = b.
Proof.
  induction a as [|c a IH]; intros [|c' b] v Hlen Ha Hb; try discriminate;
    [reflexivity|].
  injection Hlen as Hlen.
  apply numeralValue_cons in Ha as (d & u & Hd & Hu & ->).
  apply numeralValue_cons in Hb as (d' & u' & Hd' & Hu' & Heq).
  pose proof (numeralValue_upper a u Hu). pose proof (numeralValue_upper b u' Hu').
  rewrite Hlen in *. set (P := 10 ^ Z.of_nat (String.length b)) in *.
  assert (d = d') as <-.
  { destruct (Z.lt_trichotomy d d') as [Hlt|[Heq'|Hlt]]; [exfalso|assumption|exfalso].
    - assert (d * P + P <= d' * P) by nia. lia.
    - assert (d' * P + P <= d * P) by nia. lia. }
  assert (u = u') as <- by lia.
  f_equal; [eapply digitValue_inj; eauto|eapply IH; eauto].
Qed.

Lemma numeralValue_canonical_inj (a b : string) (v : Z) :
  (a = "0" \/ exists c r, a = String c r /\ c <> "0"%char) ->
  (b = "0" \/ exists c r, b = String c r /\ c <> "0"%char) ->
  numeralValue a = Some v -> numeralValue b = Some v -> a = b.
Proof.
  assert (Hlow : forall s c r u, s = String c r -> c <> "0"%char ->
            numeralValue s = Some u -> 10 ^ Z.of_nat (String.length r) <= u).
  { intros s c r u -> Hc Hu.
    apply numeralValue_cons in Hu as (d & u' & Hd & Hu' & ->).
    pose proof (numeralValue_upper r u' Hu').
    pose proof (digitValue_range c d Hd).
    assert (d <> 0).
    { intros ->. apply Hc. eapply digitValue_inj; [exact Hd|reflexivity]. }
    assert (0 < 10 ^ Z.of_nat (String.length r)) by (apply Z.pow_pos_nonneg; lia).
    nia. }
  intros [->|(c & r & Ha & Hc)] [->|(c' & r' & Hb & Hc')] Hva Hvb;
    [reflexivity| | |].
  - vm_compute in Hva. injection Hva as <-. pose proof (Hlow _ _ _ _ Hb Hc' Hvb).
    assert (0 < 10 ^ Z.of_nat (String.length r')) by (apply Z.pow_pos_nonneg; lia).
    lia.
  - vm_compute in Hvb. injection Hvb as <-. pose proof (Hlow _ _ _ _ Ha Hc Hva).
    assert (0 < 10 ^ Z.of_nat (String.length r)) by (apply Z.pow_pos_nonneg; lia).
    lia.
  - pose proof (Hlow _ _ _ _ Ha Hc Hva) as La.
    pose proof (Hlow _ _ _ _ Hb Hc' Hvb) as Lb.
    pose proof (numeralValue_upper a v Hva) as Ua.
    pose proof (numeralValue_upper b v Hvb) as Ub.
    subst a b. simpl String.length in *.
    rewrite Nat2Z.inj_succ, Z.pow_succ_r in Ua, Ub by lia.
    eapply numeralValue_inj; [|exact Hva|exact Hvb]. simpl. f_equal.
    destruct (Nat.lt_trichotomy (String.length r) (String.length r'))
      as [Hlt|[Heq|Hlt]]; [exfalso|assumption|exfalso].
    + assert (10 * 10 ^ Z.of_nat (String.length r)
              <= 10 ^ Z.of_nat (String.length r')).
      { rewrite <- Z.pow_succ_r by lia. apply Z.pow_le_mono_r; lia. }
      lia.
    + assert (10 * 10 ^ Z.of_nat (String.length r')
              <= 10 ^ Z.of_nat (String.length r)).
      { rewrite <- Z.pow_succ_r by lia. apply Z.pow_le_mono_r; lia. }
      lia.
Qed.

Lemma fixedPointNumeral_unique (negative : bool) (n : Z) (a b : string) :
  fixedPointNumeral negative n a -> fixedPointNumeral negative n b -> a = b.
Proof.
  intros (ip & fp & i & f & -> & Hip & Hfl & Hi & Hf & Hn)
         (ip' & fp' & i' & f' & -> & Hip' & Hfl' & Hi' & Hf' & Hn').
  pose proof (numeralValue_upper fp f Hf) as Uf.
  pose proof (numeralValue_upper fp' f' Hf') as Uf'.
  rewrite Hfl in Uf. rewrite Hfl' in Uf'.
  change (10 ^ Z.of_nat 6) with 1000000 in Uf, Uf'.
  assert (i = i' /\ f = f') as [<- <-] by lia.
  assert (ip = ip') as <- by (eapply numeralValue_canonical_inj; eauto).
  assert (fp = fp') as <-
    by (eapply numeralValue_inj; [|exact Hf|exact Hf']; congruence).
  reflexivity.
Qed.

Lemma fixedPoint_unique (x : float) (a b : string) :
  fixedPoint x a -> fixedPoint x b -> a = b.
Proof.
  unfold fixedPoint. destruct (Prim2SF x) as [s|s| |s m e].
  - apply fixedPointNumeral_unique.
  - congruence.
  - congruence.
  - intros (n & Hn & Ha) (n' & Hn' & Hb).
    assert (n = n') as <-.
    { eapply nearest_unique; [|exact Hn|exact Hn'].
      apply Z.pow_pos_nonneg; lia. }
    eapply fixedPointNumeral_unique; eauto.
Qed.

Lemma textLine_specTextLine (nm : familyName) (c : counter) :
  specTextLine nm c (textLine nm c).
Proof.
  exists (fmt.f (counter_Value c)). split; [apply f_fixedPoint|].
  unfold textLine. now rewrite strings_Join_commaJoined.
Qed.

Lemma specTextLine_unique (nm : familyName) (c : counter) (l1 l2 : string) :
  specTextLine nm c l1 -> specTextLine nm c l2 -> l1 = l2.
Proof.
  intros (n1 & H1 & ->) (n2 & H2 & ->).
  now rewrite (fixedPoint_unique _ _ _ H1 H2).
Qed.

(** C8. The text dump of a counter family, in any state the family can
    reach, writes one line per child, in the order of the children, and
    every line is the line the specification describes: the family name,
    the label set of the child (which is sorted by name and value) as
    [name=value] items with a comma between each two, between braces, a
    colon and a space, and the value in fixed point, that is its numeral
    rounded to the nearest millionth with six digits after the point. The
    description determines the line. A family with the dimension
    [method] and default value 0, after
    [NewChild("method", "GET").Apply()] and [IncrementBy(5)], dumps the
    line [requests{method=GET}: 5.000000]; and a family with two
    dimensions dumps its two children, with the values 2.5 and 1/128,
    as [{code=200,method=GET}: 2.500000] and
    [{code=500,method=GET}: 0.007812]. *)
Theorem dumpText_one_line_per_child :
  (forall (o : CounterOptions) (w : world) (buf : string),
     reachable o w ->
     exists (cvs : list counter) (lines : list string),
       Forall2 (fun p c => heap w !! p = Some c) (children (family w)) cvs /\
       Forall (fun c => canonical (Labels c)) cvs /\
       Forall2 (specTextLine (MetricOptions_deriveName
                                (CounterOptions_MetricOptions o))) cvs lines /\
       counterFamily_dumpText Buffer_Write w buf =
       Ok None (buf +:+ joinLines lines)) /\
  (forall (nm : familyName) (c : counter) (l1 l2 : string),
     specTextLine nm c l1 -> specTextLine nm c l2 -> l1 = l2) /\
  (let o := {| CounterOptions_MetricOptions :=
                 {| MetricOptions_Name := "requests"; Subsystem := "";
                    Namespace := ""; Dimensions := ["method"]; Help := "h" |};
               DefaultValue := 0%float |} in
   exists (c : loc) (w : world),
     (p <- lift (counterFamily_NewChild ["method"; "GET"]) ;;
      c <- counterPartial_Apply p ;;
      counter_IncrementBy c 5%float ;;;
      ret c) (newWorld (counterFamily_literal o)) = Ok c w /\
     counterFamily_dumpText Buffer_Write w "" =
     Ok None ("requests{method=GET}: 5.000000" +:+ newline)) /\
  (let o := {| CounterOptions_MetricOptions :=
                 {| MetricOptions_Name := "total"; Subsystem := "requests";
                    Namespace := "http"; Dimensions := ["method"; "code"];
                    Help := "h" |};
               DefaultValue := 0%float |} in
   exists (c1 c2 : loc) (w : world),
     (p1 <- lift (counterFamily_NewChild ["method"; "GET"; "code"; "500"]) ;;
      c1 <- counterPartial_Apply p1 ;;
      p2 <- lift (counterFamily_NewChild ["method"; "GET"; "code"; "200"]) ;;
      c2 <- counterPartial_Apply p2 ;;
      counter_Set c1 0.0078125%float ;;;
      counter_IncrementBy c2 2.5%float ;;;
      ret (c1, c2)) (newWorld (counterFamily_literal o)) = Ok (c1, c2) w /\
     counterFamily_dumpText Buffer_Write w "" =
     Ok None
        ("http_requests_total{code=200,method=GET}: 2.500000" +:+ newline +:+
         "http_requests_total{code=500,method=GET}: 0.007812" +:+ newline)).
Proof.
  split; [|split; [exact specTextLine_unique|split]].
  - intros o w buf Hr.
    destruct (children_counters w (reachable_wellFormed o w Hr))
      as (cvs & H2 & Hcan).
    set (nm := MetricOptions_deriveName (CounterOptions_MetricOptions o)).
    exists cvs, (map (textLine nm) cvs).
    split; [exact H2|]. split; [exact Hcan|]. split.
    + clear. induction cvs as [|c cvs IH]; constructor;
        [apply textLine_specTextLine|exact IH].
    + unfold counterFamily_dumpText, nm. rewrite <- (reachable_name o w Hr).
      now apply dumpText_loop_lines.
  - intros o. eexists _, _. split; [vm_compute; reflexivity|].
    vm_compute. reflexivity.
  - intros o. eexists _, _, _. split; [vm_compute; reflexivity|].
    vm_compute. reflexivity.
Qed.

Lemma dumpText_one_line_per_child_witness :
  let o := {| CounterOptions_MetricOptions :=
                {| MetricOptions_Name := "total"; Subsystem := "requests";
                   Namespace := "http"; Dimensions := ["method"; "code"];
                   Help := "h" |};
              DefaultValue := 0%float |} in
  let P m c := {| labels := [ {| Name := "method"; Value := m |};
                              {| Name := "code"; Value := c |} ] |} in
  let ops := [OpApply (P "GET" "200"); OpApply (P "GET" "500");
              OpIncrementBy 0%nat 2.5%float; OpDecrementBy 1%nat 0.75%float] in
  let w := runAll ops (newWorld (counterFamily_literal o)) in
  reachable o w /\
  exists (cvs : list counter) (lines : list string),
    Forall2 (fun p c => heap w !! p = Some c) (children (family w)) cvs /\
    Forall (fun c => canonical (Labels c)) cvs /\
    Forall2 (specTextLine (MetricOptions_deriveName
                             (CounterOptions_MetricOptions o))) cvs lines /\
    counterFamily_dumpText Buffer_Write w "" = Ok None ("" +:+ joinLines lines).
Proof.
  intros o P ops w.
  assert (Hr : reachable o w) by apply reachable_runAll, reachable_new.
  split; [exact Hr|].
  exact (proj1 dumpText_one_line_per_child o w "" Hr).
Defined.

(** ** [forget] *)

(** C1. [forget] does not remove exactly the child at the position the
    index gives. On a family with the three children [k=1], [k=2], [k=3]
    at positions 0, 1, 2, forgetting the fingerprint of the middle one
    returns normally and leaves the single child [k=3]: the children at
    positions 0 and 1 are both gone, and the index still sends the
    fingerprint of [k=1] to 0 and that of [k=3] to 2. *)
Theorem forget_middle_removes_two :
  let o := {| CounterOptions_MetricOptions :=
                {| MetricOptions_Name := "requests"; Subsystem := "";
                   Namespace := ""; Dimensions := ["k"]; Help := "h" |};
              DefaultValue := 0%float |} in
  let P v := {| labels := [ {| Name := "k"; Value := v |} ] |} in
  let fingerprint v := labelPairs_fingerprint (labels (P v)) in
  let w3 := runAll [OpApply (P "1"); OpApply (P "2"); OpApply (P "3")]
              (newWorld (counterFamily_literal o)) in
  children (family w3) = [0; 1; 2]%nat /\
  familyInvariant w3 /\
  childrenSet (family w3) !! fingerprint "2" = Some 1 /\
  exists w',
    counterFamily_forget (fingerprint "2") w3 = Ok tt w' /\
    children (family w') = [2%nat] /\
    children (family w') <> [0; 2]%nat /\
    childrenSet (family w') !! fingerprint "1" = Some 0 /\
    childrenSet (family w') !! fingerprint "3" = Some 2.
Proof.
  intros o P fingerprint w3.
  set (C v := {| Labels := labels (P v); counter_Value := 0%float;
                 counter_fingerprint := fingerprint v |}).
  assert (Hch : children (family w3) = [0; 1; 2]%nat)
    by (vm_compute; reflexivity).
  assert (Hheap : heap w3 =
            <[2%nat := C "3"]> (<[1%nat := C "2"]> (<[0%nat := C "1"]> ∅)))
    by (vm_compute; reflexivity).
  assert (Hset : childrenSet (family w3) =
            <[fingerprint "3" := 2]>
              (<[fingerprint "2" := 1]> (<[fingerprint "1" := 0]> ∅)))
    by (vm_compute; reflexivity).
  assert (Hforget : exists w',
    counterFamily_forget (fingerprint "2") w3 = Ok tt w' /\
    children (family w') = [2%nat] /\
    children (family w') <> [0; 2]%nat /\
    childrenSet (family w') !! fingerprint "1" = Some 0 /\
    childrenSet (family w') !! fingerprint "3" = Some 2).
  { exists (final (counterFamily_forget (fingerprint "2") w3)).
    split; [vm_compute; reflexivity|].
    split; [vm_compute; reflexivity|].
    split; [vm_compute; intros [=]|].
    split; vm_compute; reflexivity. }
  assert (Hlookup : forall p c, heap w3 !! p = Some c ->
            (p = 0%nat /\ c = C "1") \/ (p = 1%nat /\ c = C "2") \/
            (p = 2%nat /\ c = C "3")).
  { intros p c. rewrite Hheap.
    destruct (decide (p = 2%nat)) as [->|H2];
      [rewrite lookup_insert_eq; intros [= <-]; auto|].
    rewrite lookup_insert_ne by auto.
    destruct (decide (p = 1%nat)) as [->|H1];
      [rewrite lookup_insert_eq; intros [= <-]; auto|].
    rewrite lookup_insert_ne by auto.
    destruct (decide (p = 0%nat)) as [->|H0];
      [rewrite lookup_insert_eq; intros [= <-]; auto|].
    rewrite lookup_insert_ne, lookup_empty by auto. intros [=]. }
  assert (Hf12 : fingerprint "1" <> fingerprint "2") by (vm_compute; intros [=]).
  assert (Hf13 : fingerprint "1" <> fingerprint "3") by (vm_compute; intros [=]).
  assert (Hf23 : fingerprint "2" <> fingerprint "3") by (vm_compute; intros [=]).
  clearbody w3 fingerprint.
  split; [exact Hch|]. split; [|split; [|exact Hforget]].
  - split; [|split].
    + intros i j p q c d Hij Hi Hj Hp Hq. rewrite Hch in Hi, Hj.
      apply Hlookup in Hp, Hq.
      destruct i as [|[|[|i]]]; simpl in Hi; [| | |discriminate Hi];
        injection Hi as <-;
        (destruct j as [|[|[|j]]]; simpl in Hj; [| | |discriminate Hj];
         try lia; injection Hj as <-);
        destruct Hp as [[Ep ->]|[[Ep ->]|[Ep ->]]]; try discriminate Ep;
        destruct Hq as [[Eq ->]|[[Eq ->]|[Eq ->]]]; try discriminate Eq;
        reflexivity.
    + intros i p c Hi Hp. rewrite Hch in Hi. apply Hlookup in Hp. rewrite Hset.
      destruct i as [|[|[|i]]]; simpl in Hi; [| | |discriminate Hi];
        injection Hi as <-;
        destruct Hp as [[Ep ->]|[[Ep ->]|[Ep ->]]]; try discriminate Ep;
        simpl counter_fingerprint.
      * rewrite !lookup_insert_ne by auto. apply lookup_insert_eq.
      * rewrite lookup_insert_ne by auto. apply lookup_insert_eq.
      * apply lookup_insert_eq.
    + intros k. rewrite Hset, Hch, Hheap. split.
      * intros Hk.
        destruct (decide (fingerprint "3" = k)) as [<-|H3].
        { exists 2%nat, (C "3").
          split; [repeat constructor|]. split; [|reflexivity].
          apply lookup_insert_eq. }
        rewrite lookup_insert_ne in Hk by exact H3.
        destruct (decide (fingerprint "2" = k)) as [<-|H2].
        { exists 1%nat, (C "2").
          split; [repeat constructor|]. split; [|reflexivity].
          rewrite lookup_insert_ne by discriminate. apply lookup_insert_eq. }
        rewrite lookup_insert_ne in Hk by exact H2.
        destruct (decide (fingerprint "1" = k)) as [<-|H1].
        { exists 0%nat, (C "1").
          split; [repeat constructor|]. split; [|reflexivity].
          rewrite !lookup_insert_ne by discriminate. apply lookup_insert_eq. }
        rewrite lookup_insert_ne, lookup_empty in Hk by exact H1.
        destruct Hk as [? [=]].
      * intros (p & c & Hp & Hc & <-). rewrite <- Hheap in Hc.
        apply Hlookup in Hc.
        destruct Hc as [[_ ->]|[[_ ->]|[_ ->]]]; simpl counter_fingerprint.
        -- rewrite !lookup_insert_ne by auto. rewrite lookup_insert_eq. eauto.
        -- rewrite lookup_insert_ne by auto. rewrite lookup_insert_eq. eauto.
        -- rewrite lookup_insert_eq. eauto.
  - rewrite Hset. rewrite lookup_insert_ne by auto. apply lookup_insert_eq.
Qed.

(** C4. The invariant does not survive [forget]. After two children have
    been created and the first one forgotten, the family has the one
    child [k=2] at position 0 while the index sends its fingerprint to 1:
    the index does not give the position of the child, and the next
    [Apply] of [k=2] panics with an index out of range. *)
Theorem forget_breaks_invariant :
  let o := {| CounterOptions_MetricOptions :=
                {| MetricOptions_Name := "requests"; Subsystem := "";
                   Namespace := ""; Dimensions := ["k"]; Help := "h" |};
              DefaultValue := 0%float |} in
  let P v := {| labels := [ {| Name := "k"; Value := v |} ] |} in
  let w := runAll [OpApply (P "1"); OpApply (P "2"); OpForget 0%nat]
             (newWorld (counterFamily_literal o)) in
  reachable o w /\
  children (family w) = [1%nat] /\
  childrenSet (family w) !! labelPairs_fingerprint (labels (P "2")) = Some 1 /\
  ~ indexConsistent w /\
  ~ familyInvariant w /\
  counterPartial_Apply (P "2") w = Panic IndexOutOfRange w.
Proof.
  intros o P w.
  assert (Hbad : ~ indexConsistent w).
  { intros H. specialize (H 0%nat 1%nat
      {| Labels := labels (P "2"); counter_Value := 0%float;
         counter_fingerprint := labelPairs_fingerprint (labels (P "2")) |}).
    vm_compute in H. specialize (H eq_refl eq_refl). discriminate. }
  split; [apply reachable_runAll, reachable_new|].
  split; [vm_compute; reflexivity|]. split; [vm_compute; reflexivity|].
  split; [exact Hbad|]. split; [intros (_ & H & _); auto|].
  vm_compute. reflexivity.
Qed.

(** C2. Two [NewChild(L).Apply()] calls do not return the same counter on
    every family. On the family with the dimension [k], after the
    children [k=1] and [k=2] have been created and the counter [k=2] has
    called [Forget], the family has no child left (the last-element case
    of [forget] has dropped [k=1] as well) while the index still sends
    the fingerprint of [k=1] to position 0. [k=1] has one pair per
    dimension, and [NewChild("k", "1").Apply()] panics with an index out
    of range in [find] and changes nothing, so the second call panics in
    the same way: neither call returns a counter and the family has no
    child. *)
Theorem Apply_twice_fails_after_Forget :
  let o := {| CounterOptions_MetricOptions :=
                {| MetricOptions_Name := "requests"; Subsystem := "";
                   Namespace := ""; Dimensions := ["k"]; Help := "h" |};
              DefaultValue := 0%float |} in
  let P v := {| labels := [ {| Name := "k"; Value := v |} ] |} in
  let twice :=
    c1 <- (p <- lift (counterFamily_NewChild ["k"; "1"]) ;; counterPartial_Apply p) ;;
    c2 <- (p <- lift (counterFamily_NewChild ["k"; "1"]) ;; counterPartial_Apply p) ;;
    ret (c1, c2) in
  let w := runAll [OpApply (P "1"); OpApply (P "2"); OpForget 1%nat]
             (newWorld (counterFamily_literal o)) in
  reachable o w /\
  matchesDimensions (Dimensions (CounterOptions_MetricOptions o)) (labels (P "1")) /\
  children (family w) = [] /\
  childrenSet (family w) !! labelPairs_fingerprint (labels (P "1")) = Some 0 /\
  (p <- lift (counterFamily_NewChild ["k"; "1"]) ;; counterPartial_Apply p) w
    = Panic IndexOutOfRange w /\
  twice w = Panic IndexOutOfRange w /\
  length (children (family w)) <> 1%nat.
Proof.
  intros o P twice w.
  split; [apply reachable_runAll, reachable_new|].
  split.
  { split; [reflexivity|]. split.
    - apply NoDup_ListNoDup. repeat constructor. simpl. tauto.
    - intros n [<-|[]]. left. reflexivity. }
  assert (Hch : children (family w) = []) by (vm_compute; reflexivity).
  split; [exact Hch|]. split; [vm_compute; reflexivity|].
  split; [vm_compute; reflexivity|]. split; [vm_compute; reflexivity|].
  rewrite Hch. discriminate.
Qed.

(** Without any [forget]: two children whose label sets differ first at
    the dimension [a] end up in the order the second dimension gives,
    because [labelPairs.Before] is what [register] sorts by. *)
Lemma register_breaks_sortedness :
  let o := {| CounterOptions_MetricOptions :=
                {| MetricOptions_Name := "requests"; Subsystem := "";
                   Namespace := ""; Dimensions := ["a"; "b"]; Help := "h" |};
              DefaultValue := 0%float |} in
  let P x y := {| labels := [ {| Name := "a"; Value := x |};
                              {| Name := "b"; Value := y |} ] |} in
  let w := runAll [OpApply (P "1" "2"); OpApply (P "2" "1")]
             (newWorld (counterFamily_literal o)) in
  reachable o w /\
  children (family w) = [1; 0]%nat /\
  lexBefore (labels (P "1" "2")) (labels (P "2" "1")) = true /\
  ~ childrenSorted w.
Proof.
  intros o P w.
  split; [apply reachable_runAll, reachable_new|].
  split; [vm_compute; reflexivity|]. split; [reflexivity|].
  intros H.
  specialize (H 0%nat 1%nat 1%nat 0%nat
    {| Labels := labels (P "2" "1"); counter_Value := 0%float;
       counter_fingerprint := labelPairs_fingerprint (labels (P "2" "1")) |}
    {| Labels := labels (P "1" "2"); counter_Value := 0%float;
       counter_fingerprint := labelPairs_fingerprint (labels (P "1" "2")) |}).
  vm_compute in H. specialize (H ltac:(lia) eq_refl eq_refl eq_refl eq_refl).
  discriminate.
Qed.

(** ** Families whose counters are never forgotten *)

Lemma labelPairs_Before_defined (l : labelPairs) : forall o : labelPairs,
  (length l <= length o)%nat -> exists b, labelPairs_Before l o = Val b.
Proof.
  induction l as [|p l IH]; intros o Hlen; simpl; [eauto|].
  destruct o as [|q o]; simpl in Hlen; [lia|].
  destruct (labelPair_Before p q); [eauto|]. apply IH. lia.
Qed.

(** The loop that rebuilds the index: entries of other fingerprints stay,
    and when no two children share a fingerprint every child gets its
    position. *)
Lemma reindex_spec (h : gmap loc counter) (cs : list loc) :
  forall (i0 : Z) (m : gmap Z Z),
  (forall p, p ∈ cs -> is_Some (h !! p)) ->
  exists m',
    reindex h cs i0 m = (m', None) /\
    (forall k,
       (forall p c, p ∈ cs -> h !! p = Some c -> counter_fingerprint c <> k) ->
       m' !! k = m !! k) /\
    (forall k, is_Some (m' !! k) ->
       is_Some (m !! k) \/
       exists p c, p ∈ cs /\ h !! p = Some c /\ counter_fingerprint c = k) /\
    ((forall j1 j2 p1 p2 c1 c2,
        cs !! j1 = Some p1 -> cs !! j2 = Some p2 ->
        h !! p1 = Some c1 -> h !! p2 = Some c2 ->
        counter_fingerprint c1 = counter_fingerprint c2 -> j1 = j2) ->
     forall (j : nat) p c,
       cs !! j = Some p -> h !! p = Some c ->
       m' !! counter_fingerprint c = Some (i0 + Z.of_nat j)).
Proof.
  induction cs as [|c cs IH]; intros i0 m Hall; simpl.
  - exists m. split; [reflexivity|]. split; [reflexivity|].
    split; [auto|]. intros _ j p c Hj. rewrite lookup_nil in Hj. discriminate.
  - destruct (Hall c) as [cv Hc]; [left|]. rewrite Hc.
    destruct (IH (i0 + 1) (<[counter_fingerprint cv := i0]> m))
      as (m' & Hre & Hkeep & Hdom & Hpos).
    { intros p Hp. apply Hall. now right. }
    exists m'. split; [exact Hre|]. split; [|split].
    + intros k Hk. rewrite Hkeep.
      * apply lookup_insert_ne. apply (Hk c cv); [left|exact Hc].
      * intros p c' Hp. apply Hk. now right.
    + intros k Hk. apply Hdom in Hk as [Hk|(p & c' & Hp & Hc' & Hfp)].
      * destruct (decide (counter_fingerprint cv = k)) as [<-|Hne].
        -- right. exists c, cv. split; [left|]. auto.
        -- rewrite lookup_insert_ne in Hk by exact Hne. now left.
      * right. exists p, c'. split; [now right|]. auto.
    + intros Hinj j p c' Hj Hp. destruct j as [|j]; simpl in Hj.
      * injection Hj as <-. rewrite Hc in Hp. injection Hp as <-.
        rewrite Hkeep.
        -- rewrite lookup_insert_eq. f_equal. lia.
        -- intros q d Hq Hd Hfp.
           apply list_elem_of_lookup in Hq as [j' Hj'].
           specialize (Hinj (S j') 0%nat q c d cv Hj' eq_refl Hd Hc Hfp).
           discriminate.
      * replace (i0 + Z.of_nat (S j)) with (i0 + 1 + Z.of_nat j) by lia.
        apply (Hpos (fun j1 j2 p1 p2 c1 c2 H1 H2 H3 H4 H5 =>
                 eq_add_S _ _ (Hinj (S j1) (S j2) p1 p2 c1 c2 H1 H2 H3 H4 H5))
                 j p c' Hj Hp).
Qed.

Lemma consistent_NoDup (w : world) : consistent w -> NoDup (children (family w)).
Proof.
  intros (Hch & Hidx & _ & _). apply NoDup_alt. intros i j p Hi Hj.
  destruct (Hch p) as (c & Hc & _); [eapply list_elem_of_lookup_2; eauto|].
  pose proof (Hidx i p c Hi Hc) as H1. pose proof (Hidx j p c Hj Hc) as H2.
  rewrite H1 in H2. injection H2 as H2. lia.
Qed.

Lemma consistent_fingerprint_inj (w : world) (p q : loc) (c d : counter) :
  consistent w ->
  p ∈ children (family w) -> q ∈ children (family w) ->
  heap w !! p = Some c -> heap w !! q = Some d ->
  counter_fingerprint c = counter_fingerprint d -> p = q.
Proof.
  intros (_ & Hidx & _ & _) [i Hi]%list_elem_of_lookup [j Hj]%list_elem_of_lookup
    Hc Hd Hfp.
  pose proof (Hidx i p c Hi Hc) as H1. pose proof (Hidx j q d Hj Hd) as H2.
  rewrite Hfp, H2 in H1. injection H1 as H1.
  apply Nat2Z.inj in H1. subst j. congruence.
Qed.

(** [Apply] on the path that creates, on a consistent family. *)
Lemma Apply_created_consistent (p : counterPartial) (w : world) :
  let fingerprint := labelPairs_fingerprint (canonicalize (labels p)) in
  let cv := {| Labels := canonicalize (labels p);
               counter_Value := DefaultValue (options (family w));
               counter_fingerprint := fingerprint |} in
  consistent w ->
  childrenSet (family w) !! fingerprint = None ->
  matchesDimensions
    (Dimensions (CounterOptions_MetricOptions (options (family w)))) (labels p) ->
  exists w1,
    counterPartial_Apply p w = Ok (next w) w1 /\
    consistent w1 /\
    heap w1 = <[next w := cv]> (heap w) /\
    children (family w1) ≡ₚ children (family w) ++ [next w] /\
    options (family w1) = options (family w).
Proof.
  intros fingerprint cv Hw Hmiss Hm.
  pose proof (consistent_NoDup w Hw) as Hnd.
  pose proof Hw as (Hch & Hidx & Hlive & Hfresh).
  set (dims := Dimensions (CounterOptions_MetricOptions (options (family w)))) in *.
  set (n := next w). set (h' := <[n := cv]> (heap w)).
  assert (Hn : n ∉ children (family w)).
  { intros Hin. destruct (Hch n Hin) as (c & Hc & _).
    assert (n < next w)%nat by (apply Hfresh; eauto). unfold n in *. lia. }
  assert (Hold : forall q, q ∈ children (family w) -> h' !! q = heap w !! q).
  { intros q Hq. unfold h'. apply lookup_insert_ne. intros <-. auto. }
  assert (Hlab : forall a, a ∈ children (family w) ++ [n] ->
            exists ca, h' !! a = Some ca /\ length (Labels ca) = length dims).
  { intros a [Ha|Ha%list_elem_of_singleton]%elem_of_app.
    - rewrite (Hold a Ha). auto.
    - subst a. exists cv. split; [apply lookup_insert_eq|]. simpl.
      rewrite (Permutation_length (canonicalize_Permutation (labels p))).
      apply Hm. }
  assert (Hinj : forall a b ca cb,
            a ∈ children (family w) ++ [n] -> b ∈ children (family w) ++ [n] ->
            h' !! a = Some ca -> h' !! b = Some cb ->
            counter_fingerprint ca = counter_fingerprint cb -> a = b).
  { assert (Hnew : forall a ca, a ∈ children (family w) -> h' !! a = Some ca ->
              counter_fingerprint ca <> fingerprint).
    { intros a ca Ha Hca Hfp. rewrite (Hold a Ha) in Hca.
      apply list_elem_of_lookup in Ha as [i Hi].
      pose proof (Hidx i a ca Hi Hca) as H1. rewrite Hfp in H1. congruence. }
    intros a b ca cb [Ha|Ha%list_elem_of_singleton]%elem_of_app
      [Hb|Hb%list_elem_of_singleton]%elem_of_app Hca Hcb Hfp.
    - rewrite (Hold a Ha) in Hca. rewrite (Hold b Hb) in Hcb.
      eapply consistent_fingerprint_inj; eauto.
    - subst b. unfold h' in Hcb. rewrite lookup_insert_eq in Hcb.
      injection Hcb as <-. destruct (Hnew a ca Ha Hca Hfp).
    - subst a. unfold h' in Hca. rewrite lookup_insert_eq in Hca.
      injection Hca as <-. symmetry in Hfp. destruct (Hnew b cb Hb Hcb Hfp).
    - congruence. }
  rewrite Apply_created;
    [|exact Hmiss
     |apply validate_ok; eapply matchesDimensions_perm; [|exact Hm];
      symmetry; apply canonicalize_Permutation].
  unfold bind, alloc, ret, counterFamily_register. simpl.
  fold fingerprint cv n h'.
  pose proof (sortFacts.Sort_Permutation_any (counterChildren_Less h')
                (children (family w) ++ [n])) as Hperm.
  pose proof (sortFacts.Sort_defined (counterChildren_Less h')
                (children (family w) ++ [n])) as Hdef.
  destruct (sort.Sort (counterChildren_Less h') (children (family w) ++ [n]))
    as [cs e]. simpl in Hperm, Hdef. rewrite Hdef; clear Hdef.
  2:{ intros a b Ha Hb. destruct (Hlab a Ha) as (ca & Hca & Hla).
      destruct (Hlab b Hb) as (cb & Hcb & Hlb).
      unfold counterChildren_Less. rewrite Hca, Hcb.
      apply labelPairs_Before_defined. lia. }
  assert (Hcs : forall a, a ∈ cs <-> a ∈ children (family w) ++ [n]).
  { intros a. now rewrite Hperm. }
  assert (Hndcs : NoDup cs).
  { rewrite Hperm. apply NoDup_app. split; [exact Hnd|]. split.
    - intros a Ha ->%list_elem_of_singleton. auto.
    - apply NoDup_singleton. }
  destruct (reindex_spec h' cs 0 (childrenSet (family w)))
    as (m' & Hre & Hkeep & Hdom & Hpos).
  { intros a Ha. apply Hcs in Ha. destruct (Hlab a Ha) as (ca & Hca & _). eauto. }
  simpl. rewrite Hre.
  assert (Hposition : forall (j : nat) a ca,
            cs !! j = Some a -> h' !! a = Some ca ->
            m' !! counter_fingerprint ca = Some (Z.of_nat j)).
  { intros j a ca Hj Hca.
    assert (Hpos' : forall j1 j2 p1 p2 c1 c2,
              cs !! j1 = Some p1 -> cs !! j2 = Some p2 ->
              h' !! p1 = Some c1 -> h' !! p2 = Some c2 ->
              counter_fingerprint c1 = counter_fingerprint c2 -> j1 = j2).
    { intros j1 j2 p1 p2 c1 c2 H1 H2 H3 H4 H5.
      assert (p1 = p2).
      { eapply Hinj; eauto; apply Hcs; eapply list_elem_of_lookup_2; eauto. }
      subst p2. eapply NoDup_lookup; eauto. }
    rewrite (Hpos Hpos' j a ca Hj Hca). reflexivity. }
  eexists. split; [reflexivity|]. split; [|repeat split; auto].
  split; [|split; [|split]]; simpl.
  - intros a Ha. apply Hlab. now apply Hcs.
  - intros j a ca Hj Hca. exact (Hposition j a ca Hj Hca).
  - intros k i Hk.
    assert (Hin : exists a ca, a ∈ cs /\ h' !! a = Some ca /\
                               counter_fingerprint ca = k).
    { destruct (Hdom k) as [[i0 Hi0]|Hin]; [eauto| |exact Hin].
      destruct (Hlive k i0 Hi0) as (a & ca & _ & Ha & Hca & Hfp).
      apply list_elem_of_lookup_2 in Ha.
      exists a, ca. split; [apply Hcs, elem_of_app; now left|].
      rewrite (Hold a Ha). auto. }
    destruct Hin as (a & ca & [j Hj]%list_elem_of_lookup & Hca & <-).
    rewrite (Hposition j a ca Hj Hca) in Hk. injection Hk as <-.
    exists a, ca. rewrite Nat2Z.id. repeat split; auto. lia.
  - intros a [ca Ha]. unfold h' in Ha.
    destruct (decide (n = a)) as [<-|Hne]; [unfold n; lia|].
    rewrite lookup_insert_ne in Ha by exact Hne.
    assert (a < next w)%nat by (apply Hfresh; eauto). lia.
Qed.

Lemma index_of_nat {A} (a : list A) (i : nat) : index a (Z.of_nat i) = a !! i.
Proof.
  unfold index. destruct (Z.ltb_spec (Z.of_nat i) 0); [lia|]. now rewrite Nat2Z.id.
Qed.

(** [Apply] on the path that finds, on a consistent family. *)
Lemma Apply_found_consistent (p : counterPartial) (w : world) (i : Z) :
  consistent w ->
  childrenSet (family w)
    !! labelPairs_fingerprint (canonicalize (labels p)) = Some i ->
  exists c cv,
    counterPartial_Apply p w = Ok c w /\
    heap w !! c = Some cv /\
    counter_fingerprint cv = labelPairs_fingerprint (canonicalize (labels p)).
Proof.
  intros (_ & _ & Hlive & _) Hi.
  destruct (Hlive _ _ Hi) as (c & cv & Hpos & Hc & Hcv & Hfp).
  exists c, cv. split; [|auto].
  apply (Apply_found p w i c Hi). unfold index.
  destruct (Z.ltb_spec i 0); [lia|exact Hc].
Qed.

Lemma Apply_consistent (p : counterPartial) (w : world) :
  consistent w -> consistent (final (counterPartial_Apply p w)).
Proof.
  intros Hw.
  destruct (childrenSet (family w)
              !! labelPairs_fingerprint (canonicalize (labels p))) as [i|] eqn:E.
  - destruct (Apply_found_consistent p w i Hw E) as (c & cv & -> & _). exact Hw.
  - destruct (counterPartial_validate
                (Dimensions (CounterOptions_MetricOptions (options (family w))))
                (canonicalize (labels p))) as [[]|e] eqn:Hv.
    + apply validate_ok in Hv.
      apply (matchesDimensions_perm _ _ (labels p)) in Hv;
        [|apply canonicalize_Permutation].
      destruct (Apply_created_consistent p w Hw E Hv) as (w1 & -> & Hw1 & _).
      exact Hw1.
    + now rewrite (Apply_invalid p w e E Hv).
Qed.

(** On a consistent family, two [Apply] calls with the same pairs in any
    order return the same counter, and the second changes nothing. *)
Lemma Apply_twice_consistent (w : world) (L L' : labelPairs) :
  consistent w ->
  matchesDimensions
    (Dimensions (CounterOptions_MetricOptions (options (family w)))) L ->
  L ≡ₚ L' ->
  exists (c : loc) (w1 : world),
    counterPartial_Apply {| labels := L |} w = Ok c w1 /\
    counterPartial_Apply {| labels := L' |} w1 = Ok c w1 /\
    consistent w1 /\
    is_Some (heap w1 !! c) /\
    (children (family w) = [] -> length (children (family w1)) = 1%nat).
Proof.
  intros Hw Hm Hp.
  assert (Hfp : labelPairs_fingerprint (canonicalize L') =
                labelPairs_fingerprint (canonicalize L))
    by now rewrite (canonicalize_perm L L' Hp).
  destruct (childrenSet (family w) !! labelPairs_fingerprint (canonicalize L))
    as [i|] eqn:E.
  - destruct (Apply_found_consistent {| labels := L |} w i Hw E)
      as (c & cv & HA & Hc & _).
    exists c, w. split; [exact HA|]. split; [|split; [exact Hw|split; [eauto|]]].
    + destruct (Apply_found_consistent {| labels := L' |} w i Hw)
        as (c' & cv' & HA' & _); [simpl; now rewrite Hfp|].
      rewrite HA'. unfold counterPartial_Apply, bind, counterFamily_find in HA, HA'.
      simpl in HA, HA'. rewrite Hfp in HA'. rewrite E in HA, HA'.
      destruct (index (children (family w)) i); congruence.
    + intros Hnil. destruct Hw as (_ & _ & Hlive & _).
      destruct (Hlive _ _ E) as (q & _ & _ & Hq & _).
      rewrite Hnil, lookup_nil in Hq. discriminate.
  - destruct (Apply_created_consistent {| labels := L |} w Hw E Hm)
      as (w1 & HA & Hw1 & Hheap & Hperm & Hopt).
    exists (next w), w1. split; [exact HA|].
    assert (Hin : next w ∈ children (family w1)).
    { rewrite Hperm. apply elem_of_app. right. left. }
    apply list_elem_of_lookup in Hin as [j Hj].
    assert (Hc : heap w1 !! next w =
                 Some {| Labels := canonicalize L;
                         counter_Value := DefaultValue (options (family w));
                         counter_fingerprint :=
                           labelPairs_fingerprint (canonicalize L) |}).
    { rewrite Hheap. apply lookup_insert_eq. }
    split; [|split; [exact Hw1|split; [eauto|]]].
    + apply (Apply_found _ w1 (Z.of_nat j)).
      * simpl. rewrite Hfp. destruct Hw1 as (_ & Hidx & _).
        apply (Hidx j _ _ Hj Hc).
      * now rewrite index_of_nat.
    + intros Hnil. rewrite Hperm, Hnil. reflexivity.
Qed.

Lemma update_consistent (w : world) (p : loc) (g : counter -> counter) :
  (forall c, Labels (g c) = Labels c) ->
  (forall c, counter_fingerprint (g c) = counter_fingerprint c) ->
  consistent w -> consistent (final (update p g w)).
Proof.
  intros HL HF Hw. unfold update.
  destruct (heap w !! p) as [c|] eqn:E; simpl; [|exact Hw].
  destruct Hw as (Hch & Hidx & Hlive & Hfresh).
  assert (Hget : forall q d, <[p := g c]> (heap w) !! q = Some d ->
            exists d', heap w !! q = Some d' /\ Labels d = Labels d' /\
                       counter_fingerprint d = counter_fingerprint d').
  { intros q d. destruct (decide (p = q)) as [<-|Hne].
    - rewrite lookup_insert_eq. intros [= <-]. exists c. auto.
    - rewrite lookup_insert_ne by exact Hne. eauto. }
  assert (Hput : forall q d, heap w !! q = Some d ->
            exists d', <[p := g c]> (heap w) !! q = Some d' /\
                       Labels d' = Labels d /\
                       counter_fingerprint d' = counter_fingerprint d).
  { intros q d Hq. destruct (decide (p = q)) as [<-|Hne].
    - rewrite lookup_insert_eq. rewrite E in Hq. injection Hq as <-. eauto.
    - rewrite lookup_insert_ne by exact Hne. eauto. }
  split; [|split; [|split]]; simpl.
  - intros q Hq. destruct (Hch q Hq) as (d & Hd & Hlen).
    destruct (Hput q d Hd) as (d' & Hd' & Hl' & _).
    exists d'. split; [exact Hd'|]. now rewrite Hl'.
  - intros i q d Hi Hd. simpl in *. apply Hget in Hd as (d' & Hd' & _ & ->).
    now apply (Hidx i q d').
  - intros k i Hk. destruct (Hlive k i Hk) as (q & d & Hpos & Hq & Hd & Hfp).
    destruct (Hput q d Hd) as (d' & Hd' & _ & Hf').
    exists q, d'. repeat split; auto. congruence.
  - intros q [d Hd]. apply Hget in Hd as (d' & Hd' & _). apply Hfresh. eauto.
Qed.

Lemma ResetAll_loop_consistent (cs : list loc) : forall w,
  consistent w -> consistent (final (ResetAll_loop cs w)).
Proof.
  induction cs as [|c cs IH]; intros w Hw; simpl; [exact Hw|].
  unfold bind. pose proof (update_consistent w c
    (fun cv => set_Value cv (DefaultValue (options (family w))))
    (fun _ => eq_refl) (fun _ => eq_refl) Hw) as H1.
  unfold counter_Reset.
  destruct (update c _ w) as [[] w'|e w']; simpl in *; auto.
Qed.

Lemma run_consistent (a : op) (w : world) :
  isForget a = false -> consistent w -> consistent (final (run a w)).
Proof.
  intros Ha Hw. destruct a; simpl; try discriminate Ha;
    try (apply update_consistent; [reflexivity|reflexivity|exact Hw]).
  - unfold bind. pose proof (Apply_consistent p w Hw).
    destruct (counterPartial_Apply p w); assumption.
  - destruct Hw as (_ & _ & _ & Hfresh).
    split; [|split; [|split]]; simpl; auto.
    + intros p Hp. inversion Hp.
    + intros i p c Hi. simpl in Hi. rewrite lookup_nil in Hi. discriminate.
    + intros k i Hk. rewrite lookup_empty in Hk. discriminate.
  - now apply ResetAll_loop_consistent.
Qed.

Lemma newWorld_consistent (o : CounterOptions) :
  consistent (newWorld (counterFamily_literal o)).
Proof.
  split; [|split; [|split]]; simpl.
  - intros p Hp. inversion Hp.
  - intros i p c Hi. simpl in Hi. rewrite lookup_nil in Hi. discriminate.
  - intros k i Hk. rewrite lookup_empty in Hk. discriminate.
  - intros p [c Hc]. rewrite lookup_empty in Hc. discriminate.
Qed.

(** As long as no counter is forgotten, the index of a family gives the
    position of every child and has no other entries. *)
Lemma forget_free_consistent (o : CounterOptions) (ops : list op) :
  forallb (fun a => negb (isForget a)) ops = true ->
  consistent (runAll ops (newWorld (counterFamily_literal o))).
Proof.
  unfold runAll. generalize (newWorld_consistent o).
  generalize (newWorld (counterFamily_literal o)).
  induction ops as [|a ops IH]; intros w Hw Hall; simpl in *; [exact Hw|].
  apply andb_true_iff in Hall as [Ha Hall]. apply negb_true_iff in Ha.
  apply IH; [now apply run_consistent|exact Hall].
Qed.

(** ** What [forget] does, for every family and every position *)

Lemma slice_from {A} (a : list A) (lo : Z) :
  0 <= lo <= len a -> slice a lo (len a) = Some (drop (Z.to_nat lo) a).
Proof.
  intros Hlo. unfold slice, len in *.
  destruct (Z.leb_spec 0 lo); [|lia].
  destruct (Z.leb_spec lo (Z.of_nat (length a))); [|lia].
  destruct (Z.leb_spec (Z.of_nat (length a)) (Z.of_nat (length a))); [|lia].
  simpl. f_equal. apply take_ge. rewrite length_drop. lia.
Qed.

Lemma slice_to {A} (a : list A) (hi : Z) :
  0 <= hi <= len a -> slice a 0 hi = Some (take (Z.to_nat hi) a).
Proof.
  intros Hhi. unfold slice, len in *.
  destruct (Z.leb_spec 0 hi); [|lia].
  destruct (Z.leb_spec hi (Z.of_nat (length a))); [|lia].
  simpl. now rewrite Z.sub_0_r.
Qed.

(** With the index entry [i] of the fingerprint inside the sequence,
    [forget] returns; it keeps all children but the first when [i] is 0,
    drops the last two when [i] is the last position, and otherwise drops
    the children at [i - 1] and [i]; of the index it deletes the one
    entry. *)
Lemma forget_behaviour (w : world) (fingerprint i : Z) :
  let cs := children (family w) in
  childrenSet (family w) !! fingerprint = Some i ->
  0 <= i < len cs ->
  exists w',
    counterFamily_forget fingerprint w = Ok tt w' /\
    heap w' = heap w /\
    childrenSet (family w') = delete fingerprint (childrenSet (family w)) /\
    children (family w') =
      if i =? 0 then drop 1 cs
      else if i =? len cs - 1 then take (Z.to_nat (i - 1)) cs
      else take (Z.to_nat (i - 1)) cs ++ drop (Z.to_nat (i + 1)) cs.
Proof.
  intros cs Hi Hrange. unfold counterFamily_forget. rewrite Hi. fold cs.
  destruct (Z.eqb_spec i 0) as [->|H0].
  - rewrite (slice_from cs 1) by lia. eexists. repeat split.
  - destruct (Z.eqb_spec i (len cs - 1)) as [Hlast|Hmid].
    + rewrite (slice_to cs (i - 1)) by lia. eexists. repeat split.
    + destruct (Z.ltb_spec (len cs - 1) 0); [lia|].
      rewrite (slice_to cs (i - 1)), (slice_from cs (i + 1)) by lia.
      eexists. repeat split.
Qed.

(** ** Known values *)

(** The test vectors of FNV-1a, 64 bits. *)
Example fnv64a_empty : familyName_fingerprint "" = 0xcbf29ce484222325.
Proof. reflexivity. Qed.

Example fnv64a_a : familyName_fingerprint "a" = 0xaf63dc4c8601ec8c.
Proof. vm_compute. reflexivity. Qed.

Example fnv64a_foobar : familyName_fingerprint "foobar" = 0x85944171f73967e8.
Proof. vm_compute. reflexivity. Qed.

Example format_five : fmt.f 5%float = "5.000000".
Proof. vm_compute. reflexivity. Qed.

Example format_minus_three_halves : fmt.f (-1.5)%float = "-1.500000".
Proof. vm_compute. reflexivity. Qed.

Example format_eighth : fmt.f 123456789.125%float = "123456789.125000".
Proof. vm_compute. reflexivity. Qed.

Example format_tie_to_even : fmt.f 0.5%float = "0.500000" /\
  fmt.roundHalfEven 5 10 = 0 /\ fmt.roundHalfEven 15 10 = 2.
Proof. vm_compute. repeat split. Qed.

(** * Part III: further properties of the code *)

(** ** The two orders of [dump.go] *)

(** [labelPair.Before] is a strict total order on pairs: no pair is before
    itself, it is transitive, two pairs are never before each other, and
    of two different pairs one is before the other. This is what
    [sort.Sort] needs of [labelPairs.Less]. *)
Theorem labelPair_Before_strict_total_order :
  (forall a, labelPair_Before a a = false) /\
  (forall a b c, labelPair_Before a b = true -> labelPair_Before b c = true ->
                 labelPair_Before a c = true) /\
  (forall a b, labelPair_Before a b = true -> labelPair_Before b a = false) /\
  (forall a b, a <> b ->
               labelPair_Before a b = true \/ labelPair_Before b a = true).
Proof.
  split; [apply labelPair_Before_irrefl|].
  split; [apply labelPair_Before_trans|]. split.
  - intros a b Hab. destruct (labelPair_Before b a) eqn:Hba; [|reflexivity].
    rewrite <- (labelPair_Before_irrefl a). symmetry.
    eapply labelPair_Before_trans; eauto.
  - intros a b Hne.
    destruct (labelPair_Before a b) eqn:Hab; [now left|].
    destruct (labelPair_Before b a) eqn:Hba; [now right|].
    destruct Hne. now apply labelPair_Before_total.
Qed.

(** What [labelPairs.Before] computes, for any two label sets: it returns
    [true] exactly when at some position both have a pair and the left
    one is before the right one; it returns [false] when there is no such
    position and the right label set is at least as long; and when there
    is no such position and the right one is shorter it panics with an
    index out of range. *)
Theorem labelPairs_Before_decides (l o : labelPairs) :
  match labelPairs_Before l o with
  | Val true =>
    exists (i : nat) p q,
      l !! i = Some p /\ o !! i = Some q /\ labelPair_Before p q = true
  | Val false =>
    (length l <= length o)%nat /\
    forall (i : nat) p q,
      l !! i = Some p -> o !! i = Some q -> labelPair_Before p q = false
  | Raise e =>
    e = IndexOutOfRange /\ (length o < length l)%nat /\
    forall (i : nat) p q,
      l !! i = Some p -> o !! i = Some q -> labelPair_Before p q = false
  end.
Proof.
  revert o. induction l as [|p l IH]; intros o; simpl.
  - split; [lia|]. intros i p q Hp. destruct i; discriminate Hp.
  - destruct o as [|q o]; simpl.
    + split; [reflexivity|]. split; [lia|].
      intros i p' q' _ Hq. destruct i; discriminate Hq.
    + destruct (labelPair_Before p q) eqn:Hpq.
      * exists 0%nat, p, q. auto.
      * specialize (IH o).
        destruct (labelPairs_Before l o) as [[|]|e].
        -- destruct IH as (i & p' & q' & Hp & Hq & Hb).
           exists (S i), p', q'. auto.
        -- destruct IH as [Hlen Hall]. split; [lia|].
           intros [|i] p' q' Hp Hq; simpl in Hp, Hq; [congruence|eauto].
        -- destruct IH as (He & Hlen & Hall). split; [exact He|].
           split; [lia|].
           intros [|i] p' q' Hp Hq; simpl in Hp, Hq; [congruence|eauto].
Qed.

(** [labelPairs.Before] never puts a label set before itself, and on label
    sets of equal length it answers [true] whenever the label sets differ
    first at a position where the left pair is the smaller one: the order
    by first difference is contained in it. *)
Theorem labelPairs_Before_contains_first_difference :
  (forall l, labelPairs_Before l l = Val false) /\
  (forall l o, length l = length o -> lexBefore l o = true ->
               labelPairs_Before l o = Val true).
Proof.
  split.
  - induction l as [|p l IH]; simpl; [reflexivity|].
    now rewrite labelPair_Before_irrefl.
  - induction l as [|p l IH]; intros [|q o] Hlen Hlex; simpl in *;
      try discriminate.
    destruct (labelPair_Before p q); [reflexivity|].
    destruct (labelPair_Before q p); [discriminate|].
    apply IH; [lia|exact Hlex].
Qed.

(** ** The sorting step of [Apply] *)

(** The first statement of [Apply] leaves the labels of the partial as
    the ascending arrangement of the same pairs; an ascending label set
    is left as it is, so doing the step twice is doing it once. *)
Theorem canonicalize_sorts (l : labelPairs) :
  canonical (canonicalize l) /\
  canonicalize l ≡ₚ l /\
  (canonical l -> canonicalize l = l) /\
  canonicalize (canonicalize l) = canonicalize l.
Proof.
  split; [apply canonicalize_canonical|].
  split; [apply canonicalize_Permutation|]. split.
  - intros Hl. apply canonical_unique;
      [apply canonicalize_canonical|exact Hl|apply canonicalize_Permutation].
  - apply canonicalize_idem.
Qed.

(** ** The fingerprint as a function of the bytes written *)

Lemma bytes_app (a b : string) :
  GoString.bytes (a +:+ b) = GoString.bytes a ++ GoString.bytes b.
Proof.
  unfold GoString.bytes. rewrite <- map_app. f_equal.
  induction a as [|x a IH]; [reflexivity|].
  change (x :: list_ascii_of_string (a +:+ b) =
          x :: (list_ascii_of_string a ++ list_ascii_of_string b)).
  now rewrite IH.
Qed.

Lemma Write_app (h : Z) (a b : string) :
  fnv.Write h (a +:+ b) = fnv.Write (fnv.Write h a) b.
Proof. unfold fnv.Write. rewrite bytes_app. apply fold_left_app. Qed.

Lemma fold_Write_written (l : labelPairs) : forall h,
  fold_left (fun digest p => fnv.Write digest (Name p +:+ Value p)) l h =
  fnv.Write h (written l).
Proof.
  induction l as [|p l IH]; intros h; simpl; [reflexivity|].
  rewrite IH, <- Write_app. now rewrite append_assoc.
Qed.

Lemma Write_range (s : string) : forall h,
  0 <= h < fnv.two64 -> 0 <= fnv.Write h s < fnv.two64.
Proof.
  unfold fnv.Write. induction (GoString.bytes s) as [|c cs IH]; intros h Hh;
    simpl; [exact Hh|].
  apply IH. unfold fnv.step. apply Z.mod_pos_bound. reflexivity.
Qed.

(** The fingerprint of a label set is the FNV-1a digest of its names and
    values written one after the other with nothing in between, and it is
    a 64-bit number; two label sets that write the same bytes have the
    same fingerprint. *)
Theorem fingerprint_of_written_bytes :
  (forall l, labelPairs_fingerprint l = fnv.Write fnv.offset64 (written l)) /\
  (forall l, 0 <= labelPairs_fingerprint l < 2 ^ 64) /\
  (forall l l', written l = written l' ->
                labelPairs_fingerprint l = labelPairs_fingerprint l').
Proof.
  assert (H : forall l,
            labelPairs_fingerprint l = fnv.Write fnv.offset64 (written l)).
  { intros l. unfold labelPairs_fingerprint, fnv.Sum64, fnv.New64a.
    apply fold_Write_written. }
  split; [exact H|]. split.
  - intros l. rewrite H. apply Write_range. unfold fnv.offset64, fnv.two64. lia.
  - intros l l' Hw. now rewrite !H, Hw.
Qed.

(** ** [validate] *)

(** [validate] returns exactly for the label sets that have one pair per
    declared dimension (then the declared dimensions are pairwise
    different and every one of them is named), and otherwise panics with
    one of its two "illegal labels" messages. A family whose options name
    a dimension twice accepts no label set. *)
Theorem validate_characterised (dims : list string) (ls : labelPairs) :
  match counterPartial_validate dims ls with
  | Val _ =>
    matchesDimensions dims ls /\ NoDup dims /\
    (forall d, In d dims <-> In d (names ls))
  | Raise e =>
    isValidationError e = true /\ ~ matchesDimensions dims ls
  end.
Proof.
  destruct (counterPartial_validate dims ls) as [[]|e] eqn:Hv.
  - apply validate_ok in Hv. split; [exact Hv|].
    pose proof (matchesDimensions_covers dims ls Hv) as Hcov.
    destruct Hv as (Hlen & Hnd & Hincl). split.
    + apply NoDup_ListNoDup.
      eapply List.NoDup_incl_NoDup;
        [apply NoDup_ListNoDup; exact Hnd| |exact Hincl].
      unfold names. rewrite length_map. lia.
    + intros d. split; [apply Hcov|apply Hincl].
  - split; [eapply validate_raises; eauto|].
    intros Hm. apply validate_ok in Hm. congruence.
Qed.

(** ** Building a partial *)

Lemma pairUp_app (n : nat) : forall xs ys,
  length xs = (2 * n)%nat -> pairUp (xs ++ ys) = pairUp xs ++ pairUp ys.
Proof.
  induction n as [|n IH]; intros xs ys Hlen.
  - destruct xs; [reflexivity|discriminate].
  - destruct xs as [|a [|b xs]]; simpl in Hlen; try lia.
    simpl. f_equal. apply IH. lia.
Qed.

Lemma odd_len_app (xs ys : list string) :
  odd_len (xs ++ ys) = xorb (odd_len xs) (odd_len ys).
Proof. unfold odd_len. rewrite length_app. apply Nat.odd_add. Qed.

Lemma flatten_pairUp (n : nat) : forall xs,
  length xs = (2 * n)%nat -> flatten (pairUp xs) = xs.
Proof.
  induction n as [|n IH]; intros xs Hlen.
  - destruct xs; [reflexivity|discriminate].
  - destruct xs as [|a [|b xs]]; simpl in Hlen; try lia.
    simpl. f_equal. f_equal. apply IH. lia.
Qed.

Lemma flatten_pairUp_even (ls : list string) :
  odd_len ls = false -> flatten (pairUp ls) = ls.
Proof.
  unfold odd_len. intros Hodd.
  apply (flatten_pairUp (Nat.div2 (length ls))).
  rewrite (Nat.div2_odd (length ls)) at 1. rewrite Hodd. simpl. lia.
Qed.

Lemma pairUp_lookup (i : nat) : forall (xs : list string) (n v : string),
  xs !! (2 * i)%nat = Some n -> xs !! (2 * i + 1)%nat = Some v ->
  pairUp xs !! i = Some {| Name := n; Value := v |}.
Proof.
  induction i as [|i IH]; intros [|a [|b xs]] n v Hn Hv; try discriminate.
  - simpl in *. congruence.
  - replace (2 * S i)%nat with (S (S (2 * i))) in Hn by lia.
    replace (2 * S i + 1)%nat with (S (S (2 * i + 1))) in Hv by lia.
    simpl in *. now apply IH.
Qed.

(** [NewChild] and [With] panic on an odd number of strings. On an even
    number [NewChild] builds the partial whose pairs are the strings two
    by two in the order given: the pair at position [i] has the string at
    [2i] as its name and the string at [2i+1] as its value, so that
    writing the pairs out flat gives the strings back. [With] appends the
    pairs of its strings to those of the partial; giving the strings to
    [NewChild] at once or the first part to [NewChild] and the rest to
    [With] builds the same partial. *)
Theorem NewChild_With_compose (xs ys : list string) :
  if odd_len xs then counterFamily_NewChild xs = Raise (IllegalLabelsOdd xs)
  else
    exists p,
      counterFamily_NewChild xs = Val p /\
      flatten (labels p) = xs /\
      (forall (i : nat) (n v : string),
         xs !! (2 * i)%nat = Some n -> xs !! (2 * i + 1)%nat = Some v ->
         labels p !! i = Some {| Name := n; Value := v |}) /\
      if odd_len ys then counterPartial_With p ys = Raise (IllegalLabelsOdd ys)
      else
        exists p' q,
          counterPartial_With p ys = Val p' /\
          counterFamily_NewChild ys = Val q /\
          labels p' = labels p ++ labels q /\
          flatten (labels p') = xs ++ ys /\
          counterFamily_NewChild (xs ++ ys) = Val p'.
Proof.
  assert (Heven : forall zs : list string, odd_len zs = false ->
            exists n, length zs = (2 * n)%nat).
  { intros zs Hz. unfold odd_len in Hz. rewrite <- Nat.negb_even in Hz.
    apply negb_false_iff, Nat.even_spec in Hz. exact Hz. }
  unfold counterFamily_NewChild, counterPartial_With.
  destruct (odd_len xs) eqn:Hx; [reflexivity|].
  destruct (Heven xs Hx) as [n Hn].
  eexists. split; [reflexivity|]. simpl.
  split; [exact (flatten_pairUp n xs Hn)|].
  split; [intros i a v Ha Hv; now apply pairUp_lookup|].
  destruct (odd_len ys) eqn:Hy; [reflexivity|].
  destruct (Heven ys Hy) as [m Hm].
  eexists _, _. split; [reflexivity|]. split; [reflexivity|]. simpl.
  split; [reflexivity|].
  rewrite odd_len_app, Hx, Hy. simpl.
  rewrite <- (pairUp_app n xs ys Hn).
  split; [|reflexivity].
  apply (flatten_pairUp (n + m)). rewrite length_app. lia.
Qed.

(** ** Families with a consistent index *)

Lemma consistent_indexLive (w : world) : consistent w -> indexLive w.
Proof.
  intros (Hch & Hidx & Hlive & _) k. split.
  - intros [i Hi]. destruct (Hlive k i Hi) as (p & c & _ & Hp & Hc & Hfp).
    exists p, c. split; [eapply list_elem_of_lookup_2; eauto|auto].
  - intros (p & c & [i Hi]%list_elem_of_lookup & Hc & <-).
    rewrite (Hidx i p c Hi Hc). eauto.
Qed.

(** On a family whose index is consistent, with any number of children,
    [Apply] of a label set that has one pair per dimension returns a
    counter of the store, [Apply] of the same pairs in any other order
    then returns the same counter and changes nothing, at most one child
    has been added, and the index is consistent again. *)
Theorem Apply_same_counter_on_consistent_family (w : world) (L L' : labelPairs) :
  consistent w ->
  matchesDimensions
    (Dimensions (CounterOptions_MetricOptions (options (family w)))) L ->
  L ≡ₚ L' ->
  exists (c : loc) (w1 : world),
    counterPartial_Apply {| labels := L |} w = Ok c w1 /\
    counterPartial_Apply {| labels := L' |} w1 = Ok c w1 /\
    is_Some (heap w1 !! c) /\
    consistent w1 /\
    (length (children (family w)) <= length (children (family w1))
       <= S (length (children (family w))))%nat.
Proof.
  intros Hw Hm Hp.
  destruct (Apply_twice_consistent w L L' Hw Hm Hp)
    as (c & w1 & H1 & H2 & Hw1 & Hc & _).
  exists c, w1. repeat (split; [assumption|]).
  destruct (childrenSet (family w) !! labelPairs_fingerprint (canonicalize L))
    as [i|] eqn:E.
  - destruct (Apply_found_consistent {| labels := L |} w i Hw E)
      as (c' & cv & HA & _).
    rewrite HA in H1. injection H1 as _ <-. lia.
  - destruct (Apply_created_consistent {| labels := L |} w Hw E Hm)
      as (w1' & HA & _ & _ & Hperm & _).
    rewrite HA in H1. injection H1 as _ <-.
    rewrite (Permutation_length Hperm), length_app. simpl. lia.
Qed.

Lemma Apply_same_counter_on_consistent_family_witness :
  let o := {| CounterOptions_MetricOptions :=
                {| MetricOptions_Name := "requests"; Subsystem := "";
                   Namespace := ""; Dimensions := ["method"; "code"];
                   Help := "h" |};
              DefaultValue := 0%float |} in
  let P m c := [ {| Name := "method"; Value := m |};
                 {| Name := "code"; Value := c |} ] in
  let w := final (run (OpApply {| labels := P "GET" "200" |})
                    (newWorld (counterFamily_literal o))) in
  let L := P "GET" "500" in
  let L' := [ {| Name := "code"; Value := "500" |};
              {| Name := "method"; Value := "GET" |} ] in
  exists (c : loc) (w1 : world),
    counterPartial_Apply {| labels := L |} w = Ok c w1 /\
    counterPartial_Apply {| labels := L' |} w1 = Ok c w1 /\
    is_Some (heap w1 !! c) /\
    consistent w1 /\
    (length (children (family w)) <= length (children (family w1))
       <= S (length (children (family w))))%nat.
Proof.
  intros o P w L L'.
  apply (Apply_same_counter_on_consistent_family w L L').
  - apply run_consistent; [reflexivity|apply newWorld_consistent].
  - split; [reflexivity|]. split.
    + apply NoDup_ListNoDup. repeat constructor; simpl; intuition discriminate.
    + intros n [<-|[<-|[]]]; vm_compute; auto.
  - apply perm_swap.
Defined.

(** Along any sequence of operations on a newly declared family that
    contains no [Forget] ([Apply] of any partial, the mutations,
    [Reset], [ForgetAll], [ResetAll], whether they return or panic), the
    index gives the position of every child, it has an entry exactly for
    the fingerprints of the children, and no counter is a child twice. *)
Theorem forget_free_index_invariant (o : CounterOptions) (ops : list op) :
  forallb (fun a => negb (isForget a)) ops = true ->
  let w := runAll ops (newWorld (counterFamily_literal o)) in
  indexConsistent w /\ indexLive w /\ NoDup (children (family w)).
Proof.
  intros Hops w. pose proof (forget_free_consistent o ops Hops) as Hw.
  fold w in Hw. split; [apply Hw|].
  split; [now apply consistent_indexLive|now apply consistent_NoDup].
Qed.

Lemma forget_free_index_invariant_witness :
  let o := {| CounterOptions_MetricOptions :=
                {| MetricOptions_Name := "requests"; Subsystem := "";
                   Namespace := ""; Dimensions := ["k"]; Help := "h" |};
              DefaultValue := 0%float |} in
  let P v := {| labels := [ {| Name := "k"; Value := v |} ] |} in
  let ops := [OpApply (P "2"); OpApply (P "1"); OpIncrement 0%nat;
              OpApply {| labels := [] |}; OpResetAll; OpApply (P "2")] in
  let w := runAll ops (newWorld (counterFamily_literal o)) in
  indexConsistent w /\ indexLive w /\ NoDup (children (family w)).
Proof.
  intros o P ops. apply (forget_free_index_invariant o ops). reflexivity.
Defined.

(** ** [Forget], [ForgetAll], [ResetAll] *)

Lemma forget_Ok_inv (w w' : world) (fingerprint : Z) :
  counterFamily_forget fingerprint w = Ok tt w' ->
  is_Some (childrenSet (family w) !! fingerprint) /\
  heap w' = heap w /\ next w' = next w /\
  options (family w') = options (family w) /\
  childrenSet (family w') = delete fingerprint (childrenSet (family w)).
Proof.
  unfold counterFamily_forget.
  destruct (childrenSet (family w) !! fingerprint) as [i|]; [|discriminate].
  intros H. split; [eauto|]. revert H.
  repeat match goal with
  | |- context [if ?b then _ else _] => destruct b
  | |- context [match slice ?a ?lo ?hi with _ => _ end] =>
      destruct (slice a lo hi)
  end; intros [= <-]; repeat split.
Qed.

Lemma Forget_on_consistent (w : world) (i : nat) (c : loc) :
  consistent w ->
  children (family w) !! i = Some c ->
  exists cv w',
    heap w !! c = Some cv /\
    counter_Forget c w = Ok tt w' /\
    heap w' = heap w /\
    childrenSet (family w') =
      delete (counter_fingerprint cv) (childrenSet (family w)) /\
    children (family w') =
      match i with
      | O => drop 1 (children (family w))
      | S j => take j (children (family w)) ++ drop (S (S j)) (children (family w))
      end.
Proof.
  intros Hw Hi. pose proof Hw as (Hch & Hidx & _ & _).
  destruct (Hch c) as (cv & Hc & _); [eapply list_elem_of_lookup_2; eauto|].
  pose proof (Hidx i c cv Hi Hc) as Hset.
  pose proof (lookup_lt_Some _ _ _ Hi) as Hlt.
  destruct (forget_behaviour w (counter_fingerprint cv) (Z.of_nat i) Hset)
    as (w' & HF & Hheap & Hset' & Hcs); [unfold len; lia|].
  exists cv, w'. split; [exact Hc|].
  split; [unfold counter_Forget, bind, deref; now rewrite Hc|].
  split; [exact Hheap|]. split; [exact Hset'|].
  rewrite Hcs. destruct i as [|j]; [reflexivity|].
  destruct (Z.eqb_spec (Z.of_nat (S j)) 0); [lia|].
  replace (Z.to_nat (Z.of_nat (S j) - 1)) with j by lia.
  replace (Z.to_nat (Z.of_nat (S j) + 1)) with (S (S j)) by lia.
  destruct (Z.eqb_spec (Z.of_nat (S j)) (len (children (family w)) - 1))
    as [Hlast|_]; [|reflexivity].
  rewrite (drop_ge _ (S (S j))) by (unfold len in Hlast; lia).
  now rewrite app_nil_r.
Qed.

(** [Forget] on a counter of a family with a consistent index returns;
    the index loses the entry of the counter and keeps every other entry
    as it is; of the children, the first one is removed when the counter
    is the first child, and otherwise the counter and the child just
    before it are removed. *)
Theorem Forget_effect (w : world) (i : nat) (c : loc) :
  consistent w ->
  children (family w) !! i = Some c ->
  exists cv w',
    heap w !! c = Some cv /\
    counter_Forget c w = Ok tt w' /\
    heap w' = heap w /\
    childrenSet (family w') =
      delete (counter_fingerprint cv) (childrenSet (family w)) /\
    children (family w') =
      match i with
      | O => drop 1 (children (family w))
      | S j => take j (children (family w)) ++ drop (S (S j)) (children (family w))
      end.
Proof. exact (Forget_on_consistent w i c). Qed.

Lemma Forget_effect_witness :
  let o := {| CounterOptions_MetricOptions :=
                {| MetricOptions_Name := "requests"; Subsystem := "";
                   Namespace := ""; Dimensions := ["k"]; Help := "h" |};
              DefaultValue := 0%float |} in
  let P v := {| labels := [ {| Name := "k"; Value := v |} ] |} in
  let w := final (run (OpApply (P "3"))
             (final (run (OpApply (P "2"))
                (final (run (OpApply (P "1"))
                   (newWorld (counterFamily_literal o))))))) in
  exists cv w',
    heap w !! 2%nat = Some cv /\
    counter_Forget 2%nat w = Ok tt w' /\
    heap w' = heap w /\
    childrenSet (family w') =
      delete (counter_fingerprint cv) (childrenSet (family w)) /\
    children (family w') =
      take 1 (children (family w)) ++ drop 3 (children (family w)).
Proof.
  intros o P w. apply (Forget_effect w 2 2%nat).
  - repeat (apply run_consistent; [reflexivity|]). apply newWorld_consistent.
  - vm_compute. reflexivity.
Defined.

(** [Forget] is not idempotent: when [Forget] on a counter has returned,
    a second [Forget] on the same counter panics with "illegal invariant:
    missing fingerprint" and changes nothing. *)
Theorem Forget_twice_panics (w w' : world) (c : loc) :
  counter_Forget c w = Ok tt w' ->
  counter_Forget c w' = Panic MissingFingerprint w'.
Proof.
  unfold counter_Forget, bind, deref.
  destruct (heap w !! c) as [cv|] eqn:Hc; [|discriminate].
  intros HF. apply forget_Ok_inv in HF as (_ & Hheap & _ & _ & Hset).
  rewrite Hheap, Hc. unfold counterFamily_forget.
  now rewrite Hset, lookup_delete_eq.
Qed.

Lemma Forget_twice_panics_witness :
  let o := {| CounterOptions_MetricOptions :=
                {| MetricOptions_Name := "requests"; Subsystem := "";
                   Namespace := ""; Dimensions := ["k"]; Help := "h" |};
              DefaultValue := 0%float |} in
  let w := final (run (OpApply {| labels := [ {| Name := "k"; Value := "1" |} ] |})
                    (newWorld (counterFamily_literal o))) in
  let w' := final (counter_Forget 0%nat w) in
  counter_Forget 0%nat w = Ok tt w' /\
  counter_Forget 0%nat w' = Panic MissingFingerprint w'.
Proof.
  intros o w w'.
  assert (H : counter_Forget 0%nat w = Ok tt w') by (vm_compute; reflexivity).
  split; [exact H|]. exact (Forget_twice_panics w w' 0%nat H).
Defined.

(** [Forget] on the only child of a family with a consistent index
    leaves the family without children and with an empty index: the
    index is consistent again, [find] misses for every fingerprint and
    [shouldDump] answers [false]. *)
Theorem Forget_only_child (w : world) (c : loc) :
  consistent w ->
  children (family w) = [c] ->
  exists w',
    counter_Forget c w = Ok tt w' /\
    children (family w') = [] /\
    childrenSet (family w') = ∅ /\
    consistent w' /\
    counterFamily_shouldDump w' = false /\
    forall k, counterFamily_find k w' = Ok None w'.
Proof.
  intros Hw Hcs.
  assert (Hi : children (family w) !! 0%nat = Some c) by now rewrite Hcs.
  destruct (Forget_on_consistent w 0 c Hw Hi) as (cv & w' & Hc & HF & Hheap & Hset & Hch).
  rewrite Hcs in Hch. simpl in Hch.
  assert (Hempty : childrenSet (family w') = ∅).
  { rewrite Hset. apply map_eq. intros k. rewrite lookup_empty.
    destruct (decide (counter_fingerprint cv = k)) as [<-|Hne];
      [apply lookup_delete_eq|].
    rewrite lookup_delete_ne by exact Hne.
    destruct (childrenSet (family w) !! k) as [j|] eqn:Hk; [|reflexivity].
    destruct Hw as (_ & _ & Hlive & _).
    destruct (Hlive k j Hk) as (p & d & _ & Hp & Hd & Hfp).
    rewrite Hcs in Hp. destruct (Z.to_nat j) as [|n]; simpl in Hp;
      [|destruct n; discriminate Hp].
    injection Hp as <-. rewrite Hc in Hd. injection Hd as <-. contradiction. }
  exists w'. split; [exact HF|]. split; [exact Hch|]. split; [exact Hempty|].
  split; [|split].
  - destruct Hw as (_ & _ & _ & Hfresh).
    unfold counter_Forget, bind, deref in HF. rewrite Hc in HF.
    apply forget_Ok_inv in HF as (_ & _ & Hnext & _ & _).
    split; [|split; [|split]].
    + intros p Hp. rewrite Hch in Hp. inversion Hp.
    + intros j p d Hj. rewrite Hch in Hj. destruct j; discriminate Hj.
    + intros k j Hk. rewrite Hempty, lookup_empty in Hk. discriminate.
    + intros p Hp. rewrite Hheap in Hp. rewrite Hnext. auto.
  - unfold counterFamily_shouldDump. now rewrite Hch.
  - intros k. unfold counterFamily_find. now rewrite Hempty, lookup_empty.
Qed.

Lemma Forget_only_child_witness :
  let o := {| CounterOptions_MetricOptions :=
                {| MetricOptions_Name := "requests"; Subsystem := "";
                   Namespace := ""; Dimensions := ["k"]; Help := "h" |};
              DefaultValue := 0%float |} in
  let w := final (run (OpApply {| labels := [ {| Name := "k"; Value := "1" |} ] |})
                    (newWorld (counterFamily_literal o))) in
  exists w',
    counter_Forget 0%nat w = Ok tt w' /\
    children (family w') = [] /\
    childrenSet (family w') = ∅ /\
    consistent w' /\
    counterFamily_shouldDump w' = false /\
    forall k, counterFamily_find k w' = Ok None w'.
Proof.
  intros o w. apply (Forget_only_child w 0%nat).
  - apply run_consistent; [reflexivity|apply newWorld_consistent].
  - vm_compute. reflexivity.
Defined.


Lemma ResetAll_loop_resets (cs : list loc) : forall w,
  (forall p, p ∈ cs -> is_Some (heap w !! p)) ->
  exists w',
    ResetAll_loop cs w = Ok tt w' /\
    family w' = family w /\ next w' = next w /\
    forall p,
      heap w' !! p =
      (fun c => if decide (p ∈ cs)
                then set_Value c (DefaultValue (options (family w))) else c)
        <$> heap w !! p.
Proof.
  induction cs as [|c cs IH]; intros w Hall.
  - exists w. split; [reflexivity|]. split; [reflexivity|].
    split; [reflexivity|]. intros p. destruct (heap w !! p); reflexivity.
  - destruct (Hall c) as [cv Hc]; [left|].
    set (D := DefaultValue (options (family w))).
    set (w1 := {| heap := <[c := set_Value cv D]> (heap w); next := next w;
                  family := family w |}).
    assert (H1 : counter_Reset c w = Ok tt w1).
    { unfold counter_Reset, update. now rewrite Hc. }
    destruct (IH w1) as (w' & HL & Hfam & Hnext & Hheap).
    { intros p Hp. simpl. destruct (decide (c = p)) as [<-|Hne].
      - rewrite lookup_insert_eq. eauto.
      - rewrite lookup_insert_ne by exact Hne. apply Hall. now right. }
    exists w'. split; [simpl; unfold bind; now rewrite H1|].
    split; [exact Hfam|]. split; [exact Hnext|].
    intros p. rewrite Hheap. simpl. fold D.
    destruct (decide (c = p)) as [<-|Hne].
    + rewrite lookup_insert_eq, Hc. simpl.
      destruct (decide (c ∈ c :: cs)) as [_|Hn]; [|destruct Hn; left].
      destruct (decide (c ∈ cs)); reflexivity.
    + rewrite lookup_insert_ne by exact Hne.
      destruct (heap w !! p) as [d|]; [simpl|reflexivity].
      destruct (decide (p ∈ cs)) as [Hin|Hout];
        destruct (decide (p ∈ c :: cs)) as [Hin'|Hout']; try reflexivity.
      * destruct Hout'. now right.
      * apply elem_of_cons in Hin' as [->|Hin']; [destruct Hne; reflexivity|].
        contradiction.
Qed.

(** [ResetAll] on a family all of whose children are counters of the
    store returns; every child then has the default value of the family;
    the labels and the fingerprint of every counter, the value of every
    counter that is not a child any more, the children and the index are
    as they were. *)
Theorem ResetAll_resets_children (w : world) :
  (forall p, p ∈ children (family w) -> is_Some (heap w !! p)) ->
  exists w',
    counterFamily_ResetAll w = Ok tt w' /\
    family w' = family w /\
    forall p,
      heap w' !! p =
      (fun c => if decide (p ∈ children (family w))
                then {| Labels := Labels c;
                        counter_Value := DefaultValue (options (family w));
                        counter_fingerprint := counter_fingerprint c |}
                else c)
        <$> heap w !! p.
Proof.
  intros Hall.
  destruct (ResetAll_loop_resets (children (family w)) w Hall)
    as (w' & HL & Hfam & _ & Hheap).
  exists w'. split; [exact HL|]. split; [exact Hfam|]. exact Hheap.
Qed.

Lemma ResetAll_resets_children_witness :
  let o := {| CounterOptions_MetricOptions :=
                {| MetricOptions_Name := "requests"; Subsystem := "";
                   Namespace := ""; Dimensions := ["k"]; Help := "h" |};
              DefaultValue := 7%float |} in
  let P v := {| labels := [ {| Name := "k"; Value := v |} ] |} in
  let w := runAll [OpApply (P "1"); OpApply (P "2"); OpSet 0%nat 3%float;
                   OpForget 0%nat]
             (newWorld (counterFamily_literal o)) in
  exists w',
    counterFamily_ResetAll w = Ok tt w' /\
    family w' = family w /\
    forall p,
      heap w' !! p =
      (fun c => if decide (p ∈ children (family w))
                then {| Labels := Labels c;
                        counter_Value := DefaultValue (options (family w));
                        counter_fingerprint := counter_fingerprint c |}
                else c)
        <$> heap w !! p.
Proof.
  intros o P w. apply (ResetAll_resets_children w).
  apply (reachable_wellFormed o). apply reachable_runAll, reachable_new.
Defined.

(** ** What every counter satisfies when partials are applied once *)

Lemma register_frame (w : world) (c : loc) :
  options (family (final (counterFamily_register c w))) = options (family w) /\
  next (final (counterFamily_register c w)) = next w.
Proof.
  unfold counterFamily_register.
  destruct (sort.Sort _ _) as [cs [e|]]; simpl; [auto|].
  destruct (reindex _ _ _ _) as [m [e|]]; auto.
Qed.

Lemma update_countersValid (o : CounterOptions) (w : world) (p : loc)
    (g : counter -> counter) :
  (forall c, Labels (g c) = Labels c) ->
  (forall c, counter_fingerprint (g c) = counter_fingerprint c) ->
  countersValid o w -> countersValid o (final (update p g w)).
Proof.
  intros HL HF Hw. unfold update.
  destruct (heap w !! p) as [c|] eqn:E; simpl; [|exact Hw].
  destruct Hw as (Hopt & Hch & Hall). split; [exact Hopt|]. split; simpl.
  - intros q Hq. destruct (decide (p = q)) as [<-|Hne].
    + rewrite lookup_insert_eq. eauto.
    + rewrite lookup_insert_ne by exact Hne. auto.
  - intros q d. destruct (decide (p = q)) as [<-|Hne].
    + rewrite lookup_insert_eq. intros [= <-]. rewrite HL, HF. eauto.
    + rewrite lookup_insert_ne by exact Hne. eauto.
Qed.

Lemma ResetAll_loop_countersValid (o : CounterOptions) (cs : list loc) :
  forall w, countersValid o w -> countersValid o (final (ResetAll_loop cs w)).
Proof.
  induction cs as [|c cs IH]; intros w Hw; simpl; [exact Hw|].
  unfold bind. pose proof (update_countersValid o w c
    (fun cv => set_Value cv (DefaultValue (options (family w))))
    (fun _ => eq_refl) (fun _ => eq_refl) Hw) as H1.
  unfold counter_Reset.
  destruct (update c _ w) as [[] w'|e w']; simpl in *; auto.
Qed.

Lemma forget_countersValid (o : CounterOptions) (w : world) (fingerprint : Z) :
  countersValid o w ->
  countersValid o (final (counterFamily_forget fingerprint w)).
Proof.
  intros Hw. unfold counterFamily_forget.
  destruct (childrenSet (family w) !! fingerprint) as [i|]; [|exact Hw].
  assert (Hkeep : forall m,
    countersValid o (set_family w (set_childrenSet (family w) m))).
  { intros m. destruct Hw as (? & ? & ?). split; [|split]; simpl; auto. }
  assert (Hcut : forall m cs,
    (forall p, p ∈ cs -> p ∈ children (family w)) ->
    countersValid o
      (set_family w (set_children (set_childrenSet (family w) m) cs))).
  { intros m cs Hsub. destruct Hw as (? & ? & ?). split; [|split]; simpl; auto. }
  repeat match goal with
  | |- context [if ?b then _ else _] => destruct b
  | |- context [match slice ?a ?lo ?hi with _ => _ end] =>
      let E := fresh "E" in destruct (slice a lo hi) eqn:E
  end; simpl; try apply Hkeep; apply Hcut; intros p Hp;
  try (apply elem_of_app in Hp as [Hp|Hp]); eauto using slice_elem_of.
Qed.

Lemma Apply_countersValid (o : CounterOptions) (w : world) (p : counterPartial) :
  countersValid o w -> countersValid o (final (counterPartial_Apply p w)).
Proof.
  intros Hw. unfold counterPartial_Apply, bind, counterFamily_find.
  destruct (childrenSet (family w) !! _) as [i|].
  { destruct (index _ i); exact Hw. }
  unfold lift.
  destruct (counterPartial_validate _ _) as [[]|e] eqn:Hv; [|exact Hw].
  unfold ret, throw, alloc. simpl.
  set (cv := {| Labels := canonicalize (labels p) |}).
  set (w1 := {| heap := <[next w := cv]> (heap w) |}).
  assert (Hw1 : countersValid o (final (counterFamily_register (next w) w1))).
  { destruct Hw as (Hopt & Hch & Hall).
    destruct (register_frame w1 (next w)) as [Ho Hn]. split; [|split].
    - rewrite Ho. exact Hopt.
    - intros q Hq. rewrite register_heap. rewrite register_children in Hq.
      simpl in *. destruct (decide (next w = q)) as [->|Hne].
      + rewrite lookup_insert_eq. eauto.
      + rewrite lookup_insert_ne by exact Hne.
        apply elem_of_app in Hq as [Hq|Hq%list_elem_of_singleton]; [auto|].
        congruence.
    - intros q c'. rewrite register_heap, Hn. simpl.
      destruct (decide (next w = q)) as [<-|Hne].
      + rewrite lookup_insert_eq. intros [= <-]. simpl.
        split; [lia|]. split; [apply canonicalize_canonical|].
        split; [|reflexivity]. apply validate_ok. now rewrite <- Hopt.
      + rewrite lookup_insert_ne by exact Hne. intros Hq.
        destruct (Hall q c' Hq) as (Hlt & Hrest). split; [lia|exact Hrest]. }
  destruct (counterFamily_register (next w) w1); exact Hw1.
Qed.

Lemma run_countersValid (o : CounterOptions) (a : op) (w : world) :
  countersValid o w -> countersValid o (final (run a w)).
Proof.
  intros Hw. destruct a; simpl;
    try (apply update_countersValid; [reflexivity|reflexivity|exact Hw]).
  - unfold bind. pose proof (Apply_countersValid o w p Hw).
    destruct (counterPartial_Apply p w); assumption.
  - unfold counter_Forget, bind, deref.
    destruct (heap w !! c); [|exact Hw]. now apply forget_countersValid.
  - destruct Hw as (Hopt & Hch & Hall). split; [exact Hopt|].
    split; simpl; [|exact Hall]. intros p Hp. inversion Hp.
  - now apply ResetAll_loop_countersValid.
Qed.

Lemma reachable_countersValid (o : CounterOptions) (w : world) :
  reachable o w -> countersValid o w.
Proof.
  induction 1 as [|w a Hr IH]; [|now apply run_countersValid].
  split; [reflexivity|]. split; simpl.
  - intros p Hp. inversion Hp.
  - intros p c. rewrite lookup_empty. discriminate.
Qed.

(** After [ForgetAll], in whatever state the family was, the family has
    no child and [shouldDump] answers [false]; [Forget] on any counter
    handed out before panics with "illegal invariant: missing
    fingerprint"; and [Apply] of a label set with one pair per dimension
    creates a new counter with the default value as the only child. In
    every state the family can reach, after a [Forget] too, the new
    counter is at a location none of the earlier counters has. *)
Theorem ForgetAll_then_Apply (w : world) (p : counterPartial) :
  matchesDimensions
    (Dimensions (CounterOptions_MetricOptions (options (family w)))) (labels p) ->
  exists w1 w2,
    counterFamily_ForgetAll w = Ok tt w1 /\
    children (family w1) = [] /\
    counterFamily_shouldDump w1 = false /\
    (forall c, is_Some (heap w !! c) ->
               counter_Forget c w1 = Panic MissingFingerprint w1) /\
    counterPartial_Apply p w1 = Ok (next w) w2 /\
    (forall o, reachable o w -> heap w !! next w = None) /\
    heap w2 !! next w =
      Some {| Labels := canonicalize (labels p);
              counter_Value := DefaultValue (options (family w));
              counter_fingerprint :=
                labelPairs_fingerprint (canonicalize (labels p)) |} /\
    children (family w2) = [next w] /\
    counterFamily_shouldDump w2 = true.
Proof.
  intros Hm.
  set (w1 := final (counterFamily_ForgetAll w)).
  set (cv := {| Labels := canonicalize (labels p);
                counter_Value := DefaultValue (options (family w));
                counter_fingerprint :=
                  labelPairs_fingerprint (canonicalize (labels p)) |}).
  assert (HA : counterPartial_Apply p w1 =
               Ok (next w)
                  {| heap := <[next w := cv]> (heap w); next := S (next w);
                     family :=
                       set_childrenSet
                         (set_children (family w1) [next w])
                         (<[counter_fingerprint cv := 0]>
                            (childrenSet (family w1))) |}).
  { rewrite Apply_created.
    - unfold bind, alloc. simpl. fold cv.
      rewrite (register_first _ _ _ _ cv);
        [reflexivity|apply lookup_insert_eq|reflexivity].
    - apply lookup_empty.
    - apply validate_ok. eapply matchesDimensions_perm; [|exact Hm].
      symmetry. apply canonicalize_Permutation. }
  eexists w1, _. split; [reflexivity|]. split; [reflexivity|].
  split; [reflexivity|]. split; [|split; [exact HA|]].
  - intros c [cv' Hc]. unfold counter_Forget, bind, deref. simpl.
    rewrite Hc. unfold counterFamily_forget. simpl. now rewrite lookup_empty.
  - split; [|split; [|split]].
    + intros o Hr. destruct (reachable_countersValid o w Hr) as (_ & _ & Hall).
      destruct (heap w !! next w) as [c|] eqn:E; [|reflexivity].
      destruct (Hall _ _ E) as [Hlt _]. lia.
    + simpl. apply lookup_insert_eq.
    + reflexivity.
    + reflexivity.
Qed.

Lemma ForgetAll_then_Apply_witness :
  let o := {| CounterOptions_MetricOptions :=
                {| MetricOptions_Name := "requests"; Subsystem := "";
                   Namespace := ""; Dimensions := ["k"]; Help := "h" |};
              DefaultValue := 0%float |} in
  let P v := {| labels := [ {| Name := "k"; Value := v |} ] |} in
  let p := P "1" in
  let w := runAll [OpApply (P "1"); OpApply (P "2"); OpForget 0%nat]
             (newWorld (counterFamily_literal o)) in
  exists w1 w2,
    counterFamily_ForgetAll w = Ok tt w1 /\
    children (family w1) = [] /\
    counterFamily_shouldDump w1 = false /\
    (forall c, is_Some (heap w !! c) ->
               counter_Forget c w1 = Panic MissingFingerprint w1) /\
    counterPartial_Apply p w1 = Ok (next w) w2 /\
    (forall o, reachable o w -> heap w !! next w = None) /\
    heap w2 !! next w =
      Some {| Labels := canonicalize (labels p);
              counter_Value := DefaultValue (options (family w));
              counter_fingerprint :=
                labelPairs_fingerprint (canonicalize (labels p)) |} /\
    children (family w2) = [next w] /\
    counterFamily_shouldDump w2 = true.
Proof.
  intros o P p w.
  assert (Ho : options (family w) = o) by (vm_compute; reflexivity).
  assert (Hm : matchesDimensions
                 (Dimensions (CounterOptions_MetricOptions (options (family w))))
                 (labels p)).
  { rewrite Ho. split; [reflexivity|]. split.
    - apply NoDup_ListNoDup. repeat constructor. simpl. tauto.
    - intros n [<-|[]]. left. reflexivity. }
  exact (ForgetAll_then_Apply w p Hm).
Defined.

(** ** The text dump into a writer that fails *)

Lemma dumpText_loop_limited (h : gmap loc counter) (nm : familyName)
    (cs : list loc) : forall (cvs : list counter) (log : list string) (room : nat),
  Forall2 (fun p c => h !! p = Some c) cs cvs ->
  dumpText_loop Limited_Write h nm cs (log, room) =
  if (length cs <=? room)%nat
  then Ok None (log ++ map (textLine nm) cvs, (room - length cs)%nat)
  else Ok (Some tt) (log ++ take room (map (textLine nm) cvs), 0%nat).
Proof.
  induction cs as [|p cs IH]; intros cvs log room Hall.
  - apply Forall2_nil_inv_l in Hall as ->. simpl. unfold ret.
    now rewrite app_nil_r, Nat.sub_0_r.
  - apply Forall2_cons_inv_l in Hall as (c & cvs' & Hp & Hall & ->).
    simpl dumpText_loop. rewrite Hp, asText_textLine. unfold Limited_Write.
    destruct room as [|room]; simpl.
    + now rewrite app_nil_r.
    + rewrite (IH cvs' _ room Hall).
      destruct (length cs <=? room)%nat; now rewrite <- app_assoc.
Qed.

(** [dumpText] stops at the first write that fails. Into a writer that
    takes [room] writes and fails from then on, a family with at most
    [room] children writes the line of every child, in order, and returns
    no error; a family with more children writes the lines of its first
    [room] children, returns the error of the writer and writes nothing
    after it. *)
Theorem dumpText_stops_at_first_error
    (o : CounterOptions) (w : world) (log : list string) (room : nat) :
  reachable o w ->
  exists cvs : list counter,
    Forall2 (fun p c => heap w !! p = Some c) (children (family w)) cvs /\
    let lines :=
      map (textLine (MetricOptions_deriveName (CounterOptions_MetricOptions o)))
          cvs in
    counterFamily_dumpText Limited_Write w (log, room) =
    if (length (children (family w)) <=? room)%nat
    then Ok None (log ++ lines, (room - length (children (family w)))%nat)
    else Ok (Some tt) (log ++ take room lines, 0%nat).
Proof.
  intros Hr.
  destruct (children_counters w (reachable_wellFormed o w Hr)) as (cvs & H2 & _).
  exists cvs. split; [exact H2|]. simpl.
  unfold counterFamily_dumpText. rewrite <- (reachable_name o w Hr).
  now apply dumpText_loop_limited.
Qed.

Lemma dumpText_stops_at_first_error_witness :
  let o := {| CounterOptions_MetricOptions :=
                {| MetricOptions_Name := "requests"; Subsystem := "";
                   Namespace := ""; Dimensions := ["k"]; Help := "h" |};
              DefaultValue := 0%float |} in
  let P v := {| labels := [ {| Name := "k"; Value := v |} ] |} in
  let w := runAll [OpApply (P "1"); OpApply (P "2"); OpApply (P "3")]
             (newWorld (counterFamily_literal o)) in
  reachable o w /\
  exists cvs : list counter,
    Forall2 (fun p c => heap w !! p = Some c) (children (family w)) cvs /\
    let lines :=
      map (textLine (MetricOptions_deriveName (CounterOptions_MetricOptions o)))
          cvs in
    counterFamily_dumpText Limited_Write w ([], 2%nat) =
    if (length (children (family w)) <=? 2)%nat
    then Ok None ([] ++ lines, (2 - length (children (family w)))%nat)
    else Ok (Some tt) ([] ++ take 2 lines, 0%nat).
Proof.
  intros o P w.
  assert (Hr : reachable o w) by apply reachable_runAll, reachable_new.
  split; [exact Hr|]. exact (dumpText_stops_at_first_error o w [] 2 Hr).
Defined.

(** ** Derived names *)

(** With the namespace and the subsystem fixed, different names derive
    different family names; and options that pass [validate] never derive
    the empty name. *)
Theorem deriveName_injective_in_Name :
  (forall o o',
     Namespace o = Namespace o' -> Subsystem o = Subsystem o' ->
     MetricOptions_deriveName o = MetricOptions_deriveName o' ->
     MetricOptions_Name o = MetricOptions_Name o') /\
  (forall o, MetricOptions_validate o = Val tt ->
             MetricOptions_deriveName o <> "").
Proof.
  assert (Hshape : forall o, exists pre,
            MetricOptions_deriveName o = pre +:+ MetricOptions_Name o /\
            pre = (if nonempty (Namespace o) && nonempty (Subsystem o)
                   then Namespace o +:+ "_" +:+ Subsystem o +:+ "_"
                   else if nonempty (Namespace o) then Namespace o +:+ "_"
                   else if nonempty (Subsystem o) then Subsystem o +:+ "_"
                   else "")).
  { intros o. eexists. split; [|reflexivity]. unfold MetricOptions_deriveName.
    destruct (nonempty (Namespace o) && nonempty (Subsystem o));
      [now rewrite !append_assoc|].
    destruct (nonempty (Namespace o)); [now rewrite !append_assoc|].
    destruct (nonempty (Subsystem o)); [now rewrite !append_assoc|reflexivity]. }
  split.
  - intros o o' Hns Hsub Heq.
    destruct (Hshape o) as (pre & H1 & Hpre).
    destruct (Hshape o') as (pre' & H2 & Hpre').
    rewrite <- Hns, <- Hsub, <- Hpre in Hpre'. subst pre'.
    rewrite H1, H2 in Heq. now apply (inj (String.append pre)) in Heq.
  - intros o Hv. destruct (Hshape o) as (pre & -> & _).
    unfold MetricOptions_validate in Hv.
    destruct (String.eqb_spec (MetricOptions_Name o) "") as [|Hne];
      [discriminate|].
    intros Heq. destruct pre; [exact (Hne Heq)|discriminate Heq].
Qed.

(** ** The registry *)

(** Sorting by a key: elements with equal keys are not equal, so the
    order on the elements is total only up to the key. *)
Section ByKey.
Context {A K : Type} (key : A -> K) (ltK : K -> K -> bool).
Hypothesis ltK_irrefl : forall a, ltK a a = false.
Hypothesis ltK_trans :
  forall a b c, ltK a b = true -> ltK b c = true -> ltK a c = true.
Hypothesis ltK_total : forall a b, ltK a b = false -> ltK b a = false -> a = b.

Let lt (a b : A) : bool := ltK (key a) (key b).
Let Less (a b : A) : try bool := Val (lt a b).
Let le : relation A := notAfter lt.
Let ge : relation A := flip le.

Lemma le_by_key_trans : Transitive le.
Proof using ltK_irrefl ltK_trans ltK_total.
  intros a b c Hab Hbc.
  exact (sortFacts.le_trans ltK ltK_irrefl ltK_trans ltK_total
           (key a) (key b) (key c) Hab Hbc).
Qed.

Lemma sink_sorted_by_key x rp :
  StronglySorted ge rp -> StronglySorted ge (fst (sort.sink Less x rp)).
Proof using ltK_irrefl ltK_trans ltK_total.
  unfold Less. induction rp as [|y ys IH]; simpl; intros Hs.
  - repeat constructor.
  - apply StronglySorted_inv in Hs as [Hys Hall].
    destruct (lt x y) eqn:E.
    + pose proof (sortFacts.sink_Permutation lt x ys) as Hp.
      destruct (sort.sink _ x ys) as [r e]; simpl in *.
      constructor; [auto|].
      rewrite Hp. constructor; [|exact Hall].
      unfold ge, flip, le, notAfter.
      exact (sortFacts.strict_asym ltK ltK_irrefl ltK_trans _ _ E).
    + simpl. constructor; [constructor; auto|].
      constructor; [exact E|].
      eapply Forall_impl; [exact Hall|]. simpl. intros z Hz.
      unfold ge, flip in *. eapply le_by_key_trans; [exact Hz|exact E].
Qed.

Lemma insertionSort_sorted_by_key rp rest :
  StronglySorted ge rp ->
  StronglySorted le (fst (sort.insertionSort Less rp rest)).
Proof using ltK_irrefl ltK_trans ltK_total.
  pose proof sink_sorted_by_key as Hsink. unfold Less in *.
  revert rp. induction rest as [|x rest IH]; intros rp Hs; simpl.
  - apply (sortFacts.StronglySorted_rev ge). exact Hs.
  - pose proof (sortFacts.sink_total lt x rp) as Hn.
    pose proof (Hsink x rp Hs) as Hs'.
    destruct (sort.sink _ x rp) as [rp' e]; simpl in *. subst e. now apply IH.
Qed.

Lemma Sort_sorted_by_key l : StronglySorted le (fst (sort.Sort Less l)).
Proof using ltK_irrefl ltK_trans ltK_total.
  apply insertionSort_sorted_by_key. constructor.
Qed.

End ByKey.

Lemma families_Sort_sorted (fs : list Family) :
  StronglySorted byName (fst (sort.Sort families_Less fs)).
Proof.
  exact (Sort_sorted_by_key Family_familyName GoString.lt
           GoStringFacts.lt_irrefl GoStringFacts.lt_trans GoStringFacts.lt_total fs).
Qed.

Lemma reindexFamilies_other (fs : list Family) : forall i (m : gmap Z Z) k,
  k ∉ map Family_fingerprint fs -> reindexFamilies fs i m !! k = m !! k.
Proof.
  induction fs as [|f fs IH]; intros i m k Hk; simpl; [reflexivity|].
  simpl in Hk. apply not_elem_of_cons in Hk as [Hne Hk].
  rewrite IH by exact Hk. now rewrite lookup_insert_ne.
Qed.

Lemma reindexFamilies_position (fs : list Family) : forall i (m : gmap Z Z),
  NoDup (map Family_fingerprint fs) ->
  forall (j : nat) f, fs !! j = Some f ->
    reindexFamilies fs i m !! Family_fingerprint f = Some (i + Z.of_nat j).
Proof.
  induction fs as [|g fs IH]; intros i m Hnd j f Hj; [destruct j; discriminate Hj|].
  simpl in Hnd. apply NoDup_cons in Hnd as [Hg Hnd]. simpl.
  destruct j as [|j]; simpl in Hj.
  - injection Hj as ->. rewrite reindexFamilies_other by exact Hg.
    rewrite lookup_insert_eq. f_equal. lia.
  - rewrite (IH (i + 1) _ Hnd j f Hj). f_equal. lia.
Qed.

Lemma elem_of_fingerprints (fs : list Family) (k : Z) :
  k ∈ map Family_fingerprint fs <->
  exists (j : nat) f, fs !! j = Some f /\ Family_fingerprint f = k.
Proof.
  rewrite list_elem_of_fmap. split.
  - intros (f & -> & Hf). apply list_elem_of_lookup in Hf as [j Hj]. eauto.
  - intros (j & f & Hj & <-). exists f. split; [reflexivity|].
    eapply list_elem_of_lookup_2; eassumption.
Qed.

(** A fingerprint is in the index exactly when a family of the sequence
    has it. *)
Lemma registryInvariant_index (r : registry) (k : Z) :
  registryInvariant r ->
  is_Some (familiesSet r !! k) <-> k ∈ map Family_fingerprint (families r).
Proof.
  intros (_ & _ & Hpos & Hent). rewrite elem_of_fingerprints. split.
  - intros [i Hi]. destruct (Hent k i Hi) as (f & _ & Hf & Hk). eauto.
  - intros (j & f & Hj & <-). rewrite (Hpos j f Hj). eauto.
Qed.

Lemma register_registryInvariant (r : registry) (f : Family) :
  registryInvariant r -> registryInvariant (final (registry_register f r)).
Proof.
  intros Hr. unfold registry_register.
  destruct (familiesSet r !! Family_fingerprint f) eqn:E; simpl; [exact Hr|].
  pose proof (families_Sort_Permutation (families r ++ [f])) as Hperm.
  pose proof (families_Sort_sorted (families r ++ [f])) as Hsorted.
  set (fs := fst (sort.Sort families_Less (families r ++ [f]))) in *.
  assert (Hnew : Family_fingerprint f ∉ map Family_fingerprint (families r)).
  { rewrite <- (registryInvariant_index r _ Hr), E. intros [? [=]]. }
  assert (Hnd : NoDup (map Family_fingerprint fs)).
  { rewrite Hperm, map_app. simpl. apply NoDup_app.
    destruct Hr as (_ & Hnd & _). split; [exact Hnd|]. split.
    - intros k Hk Hk'. apply list_elem_of_singleton in Hk'. now subst k.
    - apply NoDup_singleton. }
  assert (Hpos : forall (i : nat) g, fs !! i = Some g ->
            reindexFamilies fs 0 (familiesSet r) !! Family_fingerprint g
            = Some (Z.of_nat i)).
  { intros i g Hi.
    now rewrite (reindexFamilies_position fs 0 _ Hnd i g Hi). }
  split; [exact Hsorted|]. split; [exact Hnd|]. split; [exact Hpos|]. simpl.
  intros k i Hi.
  assert (Hk : k ∈ map Family_fingerprint fs).
  { destruct (decide (k ∈ map Family_fingerprint fs)) as [|Hnot]; [assumption|].
    rewrite reindexFamilies_other in Hi by exact Hnot.
    rewrite Hperm, map_app. apply elem_of_app. left.
    apply (registryInvariant_index r k Hr). eauto. }
  apply elem_of_fingerprints in Hk as (j & g & Hj & <-).
  rewrite (Hpos j g Hj) in Hi. injection Hi as <-.
  exists g. split; [lia|]. now rewrite Nat2Z.id.
Qed.

Lemma newRegistry_registryInvariant : registryInvariant newRegistry.
Proof.
  split; [constructor|]. split; [constructor|]. split; simpl.
  - intros i f Hi. destruct i; discriminate Hi.
  - intros k i. rewrite lookup_empty. discriminate.
Qed.

Lemma registered_registryInvariant (r : registry) :
  registered r -> registryInvariant r.
Proof.
  induction 1; [apply newRegistry_registryInvariant|].
  now apply register_registryInvariant.
Qed.

(** In a registry that was built by [newRegistry] and [register] calls,
    panicking ones included, the families are in ascending order of
    name, no two of them have the same fingerprint, and the index is
    exact: it maps the fingerprint of the family at each position to that
    position and has no other entry. *)
Theorem registry_sorted_and_indexed (r : registry) :
  registered r ->
  StronglySorted byName (families r) /\
  NoDup (map Family_fingerprint (families r)) /\
  (forall (i : nat) f, families r !! i = Some f ->
     familiesSet r !! Family_fingerprint f = Some (Z.of_nat i)) /\
  (forall k i, familiesSet r !! k = Some i ->
     exists f, 0 <= i /\ families r !! Z.to_nat i = Some f /\
               Family_fingerprint f = k).
Proof. exact (registered_registryInvariant r). Qed.

Lemma registry_sorted_and_indexed_witness :
  let r := snd (registerAll [dummyFamily "b" 2; dummyFamily "a" 1;
                             dummyFamily "c" 2; dummyFamily "a" 3]
                  newRegistry) in
  registered r /\
  StronglySorted byName (families r) /\
  NoDup (map Family_fingerprint (families r)) /\
  (forall (i : nat) f, families r !! i = Some f ->
     familiesSet r !! Family_fingerprint f = Some (Z.of_nat i)) /\
  (forall k i, familiesSet r !! k = Some i ->
     exists f, 0 <= i /\ families r !! Z.to_nat i = Some f /\
               Family_fingerprint f = k).
Proof.
  intros r.
  assert (Hr : registered r).
  { exact (registered_step _ (dummyFamily "a" 3)
            (registered_step _ (dummyFamily "c" 2)
              (registered_step _ (dummyFamily "a" 1)
                (registered_step _ (dummyFamily "b" 2) registered_new)))). }
  split; [exact Hr|]. exact (registry_sorted_and_indexed r Hr).
Defined.

Lemma firstSeen_ext (ks : list Z) : forall s1 s2,
  (forall k, k ∈ s1 <-> k ∈ s2) -> firstSeen s1 ks = firstSeen s2 ks.
Proof.
  induction ks as [|k ks IH]; intros s1 s2 Hs; simpl; [reflexivity|].
  rewrite (bool_decide_ext _ _ (Hs k)).
  destruct (bool_decide (k ∈ s2)); f_equal; apply IH; [exact Hs|].
  intros k'. rewrite !elem_of_cons, Hs. reflexivity.
Qed.

Lemma registerAll_firstSeen (fs : list Family) : forall r,
  registryInvariant r ->
  fst (registerAll fs r) =
  firstSeen (map Family_fingerprint (families r)) (map Family_fingerprint fs).
Proof.
  induction fs as [|f fs IH]; intros r Hr; [reflexivity|].
  pose proof (register_registryInvariant r f Hr) as Hr'.
  pose proof (registryInvariant_index r (Family_fingerprint f) Hr) as Hidx.
  simpl. unfold testRegistration, registry_register in *.
  destruct (familiesSet r !! Family_fingerprint f) as [i|] eqn:E; simpl in *.
  - rewrite bool_decide_eq_true_2 by (apply Hidx; eauto).
    specialize (IH r Hr). destruct (registerAll fs r) as [ss r'']. simpl in *.
    now rewrite IH.
  - rewrite bool_decide_eq_false_2 by (rewrite <- Hidx; intros [? [=]]).
    specialize (IH _ Hr').
    destruct (registerAll fs _) as [ss r'']. simpl in *. rewrite IH. f_equal.
    apply firstSeen_ext. intros k.
    rewrite families_Sort_Permutation, map_app, elem_of_app, elem_of_cons.
    simpl. rewrite list_elem_of_singleton. tauto.
Qed.

Lemma firstSeen_all_seen (k : Z) (seen : list Z) (n : nat) :
  k ∈ seen -> firstSeen seen (repeat k n) = repeat false n.
Proof.
  intros Hk. induction n as [|n IH]; simpl; [reflexivity|].
  rewrite bool_decide_eq_true_2 by exact Hk. now rewrite IH.
Qed.

(** The outcomes of [TestRegister]'s loop. Registering a sequence of
    families into a new registry succeeds exactly for the families whose
    fingerprint was not presented before, whatever their names; so for
    families that all leave [fp] at zero, as those of the test's scenarios
    do, the first registration succeeds and every later one panics. *)
Theorem registerAll_outcomes :
  (forall fs,
     fst (registerAll fs newRegistry) = firstSeen [] (map Family_fingerprint fs)) /\
  (forall nm rest,
     fst (registerAll (map (fun n => dummyFamily n 0) (nm :: rest)) newRegistry)
     = true :: repeat false (length rest)).
Proof.
  assert (H : forall fs, fst (registerAll fs newRegistry)
                         = firstSeen [] (map Family_fingerprint fs)).
  { intros fs. exact (registerAll_firstSeen fs newRegistry
                        newRegistry_registryInvariant). }
  split; [exact H|]. intros nm rest. rewrite H, map_map.
  cbn [map firstSeen dummyFamily Family_fingerprint].
  rewrite bool_decide_eq_false_2 by apply not_elem_of_nil. f_equal.
  replace (map _ rest) with (repeat 0 (length rest)).
  - apply firstSeen_all_seen. left.
  - induction rest as [|n rest IH]; simpl; [reflexivity|]. now rewrite IH.
Qed.

(** A family constructor works once per registry. After one
    [NewCounterFamily] has returned, every further [NewCounterFamily] on
    that registry panics, whatever its options and name: on the options
    if they are invalid, and otherwise in [register], because the new
    family has the zero fingerprint as well. The registry is as the first
    call left it. *)
Theorem NewCounterFamily_only_once
    (o1 o2 : CounterOptions) (r r1 : registry) (f1 : counterFamily) :
  NewCounterFamily o1 r = Ok f1 r1 ->
  exists e, NewCounterFamily o2 r1 = Panic e r1 /\
    (e = IllegalName \/ e = IllegalHelp \/
     e = AlreadyRegistered
           (MetricOptions_deriveName (CounterOptions_MetricOptions o2))).
Proof.
  unfold NewCounterFamily, bind, lift, registry_register. intros H1.
  assert (Hidx : is_Some (familiesSet r1 !! 0)).
  { destruct (MetricOptions_validate (CounterOptions_MetricOptions o1));
      [|discriminate H1].
    simpl in H1. destruct (familiesSet r !! 0); [discriminate H1|].
    simpl in H1. injection H1 as _ <-. simpl.
    apply (reindexFamilies_covers _ 0 _
             (counterFamily_Family (counterFamily_literal o1))).
    apply (Permutation_in _ (Permutation_sym (families_Sort_Permutation _))).
    apply in_or_app. right. now left. }
  unfold MetricOptions_validate.
  destruct (String.eqb _ ""); [eauto|]. destruct (String.eqb _ ""); [eauto|].
  simpl. destruct Hidx as [i ->]. eauto 6.
Qed.

Lemma NewCounterFamily_only_once_witness :
  let o nm := {| CounterOptions_MetricOptions :=
                   {| MetricOptions_Name := nm; Subsystem := ""; Namespace := "";
                      Dimensions := []; Help := "h" |};
                 DefaultValue := 0%float |} in
  let r1 := final (NewCounterFamily (o "requests") newRegistry) in
  NewCounterFamily (o "requests") newRegistry
    = Ok (counterFamily_literal (o "requests")) r1 /\
  exists e, NewCounterFamily (o "errors") r1 = Panic e r1 /\
    (e = IllegalName \/ e = IllegalHelp \/
     e = AlreadyRegistered
           (MetricOptions_deriveName (CounterOptions_MetricOptions (o "errors")))).
Proof.
  intros o r1.
  assert (H1 : NewCounterFamily (o "requests") newRegistry
               = Ok (counterFamily_literal (o "requests")) r1)
    by (vm_compute; reflexivity).
  split; [exact H1|].
  exact (NewCounterFamily_only_once (o "requests") (o "errors") newRegistry r1
           (counterFamily_literal (o "requests")) H1).
Defined.

(** ** Dumping a registry *)

Section RegistryDumpFacts.
Context {W E : Type}.
Context (Family_shouldDump : Family -> bool).
Context (Family_dumpText : Family -> W -> W * option E).

Lemma collect_elem_of (fs : list Family) (f : Family) :
  f ∈ collect Family_shouldDump fs <-> f ∈ fs /\ Family_shouldDump f = true.
Proof using Type.
  induction fs as [|g fs IH]; simpl.
  - split; [intros H; inversion H|intros [H _]; inversion H].
  - destruct (Family_shouldDump g) eqn:Eg; rewrite ?elem_of_cons, IH.
    + split; [intros [->|[? ?]]; auto|intros [[->|?] ?]; auto].
    + split; [intros [? ?]; auto|intros [[->|?] ?]; [congruence|auto]].
Qed.

Lemma collect_sorted (R : relation Family) (fs : list Family) :
  StronglySorted R fs -> StronglySorted R (collect Family_shouldDump fs).
Proof using Type.
  induction 1 as [|g fs Hs IH Hall]; simpl; [constructor|].
  destruct (Family_shouldDump g); [|exact IH].
  constructor; [exact IH|]. rewrite Forall_forall in *.
  intros x Hx. apply Hall. now apply collect_elem_of in Hx as [Hx _].
Qed.

Lemma collect_none (fs : list Family) :
  (forall f, f ∈ fs -> Family_shouldDump f = false) ->
  collect Family_shouldDump fs = [].
Proof using Type.
  induction fs as [|g fs IH]; intros Hall; simpl; [reflexivity|].
  rewrite (Hall g) by left. apply IH. intros f Hf. apply Hall. now right.
Qed.

Lemma families_dumpText_app (fs gs : list Family) : forall w,
  families_dumpText Family_dumpText (fs ++ gs) w =
  match families_dumpText Family_dumpText fs w with
  | (w', Some err) => (w', Some err)
  | (w', None) => families_dumpText Family_dumpText gs w'
  end.
Proof using Type.
  induction fs as [|f fs IH]; intros w; simpl; [reflexivity|].
  destruct (Family_dumpText f w) as [w' [err|]]; [reflexivity|apply IH].
Qed.

(** What [collectFamilies] hands to a dump of a registry: exactly the
    registered families that should be dumped, in ascending order of
    name. If no family should be dumped, the text dump writes nothing and
    returns no error; and a dump stops at the first family whose
    [dumpText] fails, leaving the writer as that family left it. *)
Theorem collectFamilies_sorted_selection (r : registry) :
  registered r ->
  StronglySorted byName (registry_collectFamilies Family_shouldDump r) /\
  (forall f, f ∈ registry_collectFamilies Family_shouldDump r <->
             f ∈ families r /\ Family_shouldDump f = true) /\
  ((forall f, f ∈ families r -> Family_shouldDump f = false) ->
   forall w, registry_dumpText Family_shouldDump Family_dumpText r w = (w, None)) /\
  (forall before f after w w1 w2 err,
     registry_collectFamilies Family_shouldDump r = before ++ f :: after ->
     families_dumpText Family_dumpText before w = (w1, None) ->
     Family_dumpText f w1 = (w2, Some err) ->
     registry_dumpText Family_shouldDump Family_dumpText r w = (w2, Some err)).
Proof using Type.
  intros Hr. destruct (registered_registryInvariant r Hr) as (Hs & _).
  unfold registry_dumpText, registry_collectFamilies.
  split; [now apply collect_sorted|]. split; [apply collect_elem_of|]. split.
  - intros Hnone w. now rewrite collect_none.
  - intros before f after w w1 w2 err -> Hb Hf.
    rewrite families_dumpText_app, Hb. simpl. now rewrite Hf.
Qed.

End RegistryDumpFacts.

Lemma collectFamilies_sorted_selection_witness :
  let r := snd (registerAll [dummyFamily "b" 2; dummyFamily "a" 1;
                             dummyFamily "c" 3] newRegistry) in
  let shouldDump f := negb (Family_fingerprint f =? 1) in
  let dumpText f (w : list string) :=
    if Family_fingerprint f =? 3 then (w ++ ["c"], Some tt)
    else (w ++ [Family_familyName f], None) in
  registered r /\
  StronglySorted byName (registry_collectFamilies shouldDump r) /\
  (forall f, f ∈ registry_collectFamilies shouldDump r <->
             f ∈ families r /\ shouldDump f = true) /\
  ((forall f, f ∈ families r -> shouldDump f = false) ->
   forall w, registry_dumpText shouldDump dumpText r w = (w, None)) /\
  (forall before f after w w1 w2 err,
     registry_collectFamilies shouldDump r = before ++ f :: after ->
     families_dumpText dumpText before w = (w1, None) ->
     dumpText f w1 = (w2, Some err) ->
     registry_dumpText shouldDump dumpText r w = (w2, Some err)).
Proof.
  intros r shouldDump dumpText.
  assert (Hr : registered r).
  { exact (registered_step _ (dummyFamily "c" 3)
            (registered_step _ (dummyFamily "a" 1)
              (registered_step _ (dummyFamily "b" 2) registered_new))). }
  split; [exact Hr|].
  exact (collectFamilies_sorted_selection shouldDump dumpText r Hr).
Defined.

(** ** [register] returns; what the mutations leave alone *)

Lemma register_returns (w : world) (c : loc) (n : nat) :
  (forall a, a ∈ children (family w) ++ [c] ->
     exists ca, heap w !! a = Some ca /\ length (Labels ca) = n) ->
  exists w', counterFamily_register c w = Ok tt w'.
Proof.
  intros Hlab. unfold counterFamily_register.
  pose proof (sortFacts.Sort_Permutation_any (counterChildren_Less (heap w))
                (children (family w) ++ [c])) as Hperm.
  pose proof (sortFacts.Sort_defined (counterChildren_Less (heap w))
                (children (family w) ++ [c])) as Hdef.
  destruct (sort.Sort (counterChildren_Less (heap w)) (children (family w) ++ [c]))
    as [cs e]. simpl in Hperm, Hdef. rewrite Hdef; clear Hdef.
  2:{ intros a b Ha Hb. destruct (Hlab a Ha) as (ca & Hca & Hla).
      destruct (Hlab b Hb) as (cb & Hcb & Hlb).
      unfold counterChildren_Less. rewrite Hca, Hcb.
      apply labelPairs_Before_defined. lia. }
  destruct (reindex_spec (heap w) cs 0
              (childrenSet (set_children (family w) cs))) as (m' & Hre & _).
  { intros a Ha. rewrite Hperm in Ha. destruct (Hlab a Ha) as (ca & Hca & _).
    eauto. }
  rewrite Hre. eauto.
Qed.

Lemma mutation_frame (a : op) (w : world) :
  isMutation a = true ->
  family (final (run a w)) = family w /\
  next (final (run a w)) = next w /\
  forall p,
    Labels <$> heap (final (run a w)) !! p = Labels <$> heap w !! p /\
    counter_fingerprint <$> heap (final (run a w)) !! p
      = counter_fingerprint <$> heap w !! p.
Proof.
  assert (Hupd : forall c g,
    (forall cv, Labels (g cv) = Labels cv) ->
    (forall cv, counter_fingerprint (g cv) = counter_fingerprint cv) ->
    family (final (update c g w)) = family w /\
    next (final (update c g w)) = next w /\
    forall p,
      Labels <$> heap (final (update c g w)) !! p = Labels <$> heap w !! p /\
      counter_fingerprint <$> heap (final (update c g w)) !! p
        = counter_fingerprint <$> heap w !! p).
  { intros c g HL HF. unfold update.
    destruct (heap w !! c) as [cv|] eqn:E; simpl; [|auto].
    split; [reflexivity|]. split; [reflexivity|]. intros p.
    destruct (decide (c = p)) as [<-|Hne].
    - rewrite lookup_insert_eq, E. simpl. now rewrite HL, HF.
    - now rewrite lookup_insert_ne. }
  destruct a; try discriminate; intros _; simpl; apply Hupd; reflexivity.
Qed.

(** The mutations of a counter (Increment, IncrementBy, Decrement,
    DecrementBy, Set, Reset) change values only. After any sequence of
    them, on live or dangling counters, the family has the same children
    and the same index, no counter was created, and every counter has the
    label set and the fingerprint it had; so [Apply] finds what it found
    before. *)
Theorem mutations_change_values_only (ops : list op) (w : world) :
  forallb isMutation ops = true ->
  family (runAll ops w) = family w /\
  next (runAll ops w) = next w /\
  (forall p,
     Labels <$> heap (runAll ops w) !! p = Labels <$> heap w !! p /\
     counter_fingerprint <$> heap (runAll ops w) !! p
       = counter_fingerprint <$> heap w !! p) /\
  (forall l, counterFamily_find l (runAll ops w) =
             match counterFamily_find l w with
             | Ok c _ => Ok c (runAll ops w)
             | Panic e _ => Panic e (runAll ops w)
             end).
Proof.
  intros Hops.
  assert (H : family (runAll ops w) = family w /\
              next (runAll ops w) = next w /\
              forall p,
                Labels <$> heap (runAll ops w) !! p = Labels <$> heap w !! p /\
                counter_fingerprint <$> heap (runAll ops w) !! p
                  = counter_fingerprint <$> heap w !! p).
  { revert w. induction ops as [|a ops IH]; intros w; [simpl; auto|].
    simpl in Hops. apply andb_true_iff in Hops as [Ha Hops].
    destruct (mutation_frame a w Ha) as (Hf & Hn & Hh).
    destruct (IH Hops (final (run a w))) as (Hf' & Hn' & Hh').
    change (runAll (a :: ops) w) with (runAll ops (final (run a w))).
    split; [congruence|]. split; [congruence|]. intros p.
    destruct (Hh p) as [H1 H2]. destruct (Hh' p) as [H1' H2'].
    split; congruence. }
  destruct H as (Hf & Hn & Hh). split; [exact Hf|]. split; [exact Hn|].
  split; [exact Hh|]. intros l. unfold counterFamily_find. rewrite Hf.
  destruct (childrenSet (family w) !! l) as [i|]; [|reflexivity].
  destruct (index _ i); reflexivity.
Qed.

Lemma mutations_change_values_only_witness :
  let o := {| CounterOptions_MetricOptions :=
                {| MetricOptions_Name := "requests"; Subsystem := "";
                   Namespace := ""; Dimensions := ["k"]; Help := "h" |};
              DefaultValue := 0%float |} in
  let P v := {| labels := [ {| Name := "k"; Value := v |} ] |} in
  let w := runAll [OpApply (P "1"); OpApply (P "2")]
             (newWorld (counterFamily_literal o)) in
  let ops := [OpIncrement 0%nat; OpSet 1%nat 5%float; OpDecrementBy 7%nat 2%float;
              OpReset 0%nat; OpIncrementBy 1%nat 3%float; OpDecrement 1%nat] in
  forallb isMutation ops = true /\
  family (runAll ops w) = family w /\
  next (runAll ops w) = next w /\
  (forall p,
     Labels <$> heap (runAll ops w) !! p = Labels <$> heap w !! p /\
     counter_fingerprint <$> heap (runAll ops w) !! p
       = counter_fingerprint <$> heap w !! p) /\
  (forall l, counterFamily_find l (runAll ops w) =
             match counterFamily_find l w with
             | Ok c _ => Ok c (runAll ops w)
             | Panic e _ => Panic e (runAll ops w)
             end).
Proof.
  intros o P w ops.
  split; [reflexivity|].
  exact (mutations_change_values_only ops w eq_refl).
Defined.

(** ** Partials that are kept and used again *)

Section SharedFacts.
Variable growslice : nat -> nat.

Lemma elements_length (st : store) (s : sliceHeader) (a : list labelPair) :
  arrays st !! header_array s = Some a -> (header_len s <= length a)%nat ->
  length (elements st s) = header_len s.
Proof.
  intros Ha Hle. unfold elements. rewrite Ha. simpl. rewrite length_take. lia.
Qed.

Lemma append_appended (s : sliceHeader) (x : labelPair) (st : store) :
  arraysBelowNext st -> partialSlice st s ->
  appended s [x] st (append growslice s x st).1 (append growslice s x st).2.
Proof.
  intros HA (a & Ha & Hlen & Hle). unfold append.
  destruct (decide (header_len s < header_cap s)%nat) as [Hroom|Hfull]; simpl.
  - rewrite Ha. unfold appended, set_arrays, partialSlice, elements; simpl.
    do 5 (split; [reflexivity|]). split; [lia|]. split.
    { intros b Hb. simpl in Hb. apply HA.
      destruct (decide (header_array s = b)) as [<-|Hne].
      - eauto.
      - now rewrite lookup_insert_ne in Hb. }
    split.
    { exists (<[header_len s := x]> a). rewrite lookup_insert_eq.
      rewrite length_insert. split; [reflexivity|]. split; lia. }
    rewrite lookup_insert_eq, Ha. simpl.
    split.
    { rewrite (take_S_r _ _ x) by (apply list_lookup_insert_eq; lia).
      now rewrite take_insert_ge by lia. }
    split; [lia|]. split; [now left|].
    intros b a0 Hb. destruct (decide (header_array s = b)) as [<-|Hne].
    + rewrite lookup_insert_eq. rewrite Ha in Hb. injection Hb as <-.
      eexists. split; [reflexivity|]. rewrite length_insert.
      split; [reflexivity|]. split; [congruence|apply take_insert_ge; lia].
    + rewrite lookup_insert_ne by exact Hne. eauto.
  - pose proof (elements_length st s a Ha ltac:(lia)) as Hel.
    set (cap := Nat.max (S (header_len s)) (growslice (header_cap s))).
    unfold appended, partialSlice; simpl.
    do 5 (split; [reflexivity|]). split; [lia|]. split.
    { intros b Hb. simpl in *.
      destruct (decide (nextArray st = b)) as [<-|Hne]; [lia|].
      rewrite lookup_insert_ne in Hb by exact Hne. apply HA in Hb. lia. }
    split.
    { eexists. rewrite lookup_insert_eq. split; [reflexivity|].
      rewrite length_app, Hel. simpl. rewrite length_replicate. lia. }
    split.
    { unfold elements at 1. simpl. rewrite lookup_insert_eq. simpl.
      rewrite cons_middle, app_assoc. apply take_app_length'.
      rewrite length_app, Hel. simpl. lia. }
    split; [lia|]. split; [right; lia|].
    intros b a0 Hb. assert (b < nextArray st)%nat by (apply HA; eauto).
    rewrite lookup_insert_ne by lia. eauto.
Qed.

Lemma appended_nil (s : sliceHeader) (st : store) :
  arraysBelowNext st -> partialSlice st s -> appended s [] st s st.
Proof.
  intros HA Hs. unfold appended. do 5 (split; [reflexivity|]).
  split; [lia|]. split; [exact HA|]. split; [exact Hs|].
  split; [now rewrite app_nil_r|]. split; [simpl; lia|]. split; [now left|].
  intros b a0 Hb. eauto.
Qed.

Lemma appended_trans (s s1 s2 : sliceHeader) (l1 l2 : labelPairs) (st st1 st2 : store) :
  arraysBelowNext st ->
  appended s l1 st s1 st1 -> appended s1 l2 st1 s2 st2 ->
  appended s (l1 ++ l2) st s2 st2.
Proof.
  intros HA (P1 & NP1 & C1 & NC1 & F1 & N1 & A1 & S1 & E1 & L1 & W1 & K1)
            (P2 & NP2 & C2 & NC2 & F2 & N2 & A2 & S2 & E2 & L2 & W2 & K2).
  unfold appended.
  split; [congruence|]. split; [congruence|]. split; [congruence|].
  split; [congruence|]. split; [congruence|]. split; [lia|].
  split; [exact A2|]. split; [exact S2|].
  split; [now rewrite E2, E1, app_assoc|].
  split; [rewrite L2, L1, length_app; lia|].
  split; [destruct W2 as [->|]; [exact W1|right; lia]|].
  intros b a0 Hb. destruct (K1 b a0 Hb) as (a1 & Hb1 & Hl1 & Hne1 & Ht1).
  destruct (K2 b a1 Hb1) as (a2 & Hb2 & Hl2 & Hne2 & Ht2).
  exists a2. split; [exact Hb2|]. split; [congruence|].
  assert (Hbn : (b < nextArray st)%nat) by (apply HA; eauto).
  split.
  - intros Hne. rewrite <- (Hne1 Hne). apply Hne2.
    destruct W1 as [->|]; [exact Hne|lia].
  - rewrite <- Ht1.
    destruct (decide (b = header_array s1)) as [->|Hne].
    + assert (Hmin : header_len s = Nat.min (header_len s) (header_len s1)) by lia.
      rewrite Hmin, <- !take_take. now rewrite Ht2.
    + now rewrite (Hne2 Hne).
Qed.

Lemma appendAll_appended (l : labelPairs) : forall (s : sliceHeader) (st : store),
  arraysBelowNext st -> partialSlice st s ->
  appended s l st (appendAll growslice s l st).1 (appendAll growslice s l st).2.
Proof.
  induction l as [|x l IH]; intros s st HA Hs; simpl.
  - now apply appended_nil.
  - pose proof (append_appended s x st HA Hs) as H1.
    destruct (append growslice s x st) as [s1 st1]. simpl in H1.
    change (x :: l) with ([x] ++ l).
    eapply appended_trans; [exact HA|exact H1|].
    apply IH; apply H1.
Qed.

End SharedFacts.

(** *** What the operations of the family leave alone *)

Lemma update_frame (c : loc) (g : counter -> counter) (w : world) :
  (forall cv, Labels (g cv) = Labels cv) ->
  (forall cv, counter_fingerprint (g cv) = counter_fingerprint cv) ->
  family (final (update c g w)) = family w /\
  next (final (update c g w)) = next w /\
  forall p,
    Labels <$> heap (final (update c g w)) !! p = Labels <$> heap w !! p /\
    counter_fingerprint <$> heap (final (update c g w)) !! p
      = counter_fingerprint <$> heap w !! p.
Proof.
  intros HL HF. unfold update.
  destruct (heap w !! c) as [cv|] eqn:E; simpl; [|auto].
  split; [reflexivity|]. split; [reflexivity|]. intros p.
  destruct (decide (c = p)) as [<-|Hne].
  - rewrite lookup_insert_eq, E. simpl. now rewrite HL, HF.
  - now rewrite lookup_insert_ne.
Qed.

Lemma ResetAll_loop_frame (cs : list loc) : forall w,
  family (final (ResetAll_loop cs w)) = family w /\
  next (final (ResetAll_loop cs w)) = next w /\
  forall p,
    Labels <$> heap (final (ResetAll_loop cs w)) !! p = Labels <$> heap w !! p /\
    counter_fingerprint <$> heap (final (ResetAll_loop cs w)) !! p
      = counter_fingerprint <$> heap w !! p.
Proof.
  induction cs as [|c cs IH]; intros w; simpl; [auto|].
  unfold bind, counter_Reset.
  pose proof (update_frame c
    (fun cv => set_Value cv (DefaultValue (options (family w)))) w
    (fun _ => eq_refl) (fun _ => eq_refl)) as (Hf & Hn & Hh).
  destruct (update c _ w) as [[] w1|e w1]; simpl in *; [|auto].
  destruct (IH w1) as (Hf' & Hn' & Hh').
  split; [congruence|]. split; [congruence|]. intros p.
  destruct (Hh p), (Hh' p). split; congruence.
Qed.

Lemma forget_frame (fingerprint : Z) (w : world) :
  options (family (final (counterFamily_forget fingerprint w)))
    = options (family w) /\
  next (final (counterFamily_forget fingerprint w)) = next w /\
  heap (final (counterFamily_forget fingerprint w)) = heap w /\
  forall c, c ∈ children (family (final (counterFamily_forget fingerprint w))) ->
            c ∈ children (family w).
Proof.
  unfold counterFamily_forget.
  destruct (childrenSet (family w) !! fingerprint) as [i|]; [|auto].
  repeat match goal with
  | |- context [if ?b then _ else _] => destruct b
  | |- context [match slice ?a ?lo ?hi with _ => _ end] =>
      let E := fresh "E" in destruct (slice a lo hi) eqn:E
  end; simpl; (split; [reflexivity|]); (split; [reflexivity|]);
  (split; [reflexivity|]); try (intros c Hc; exact Hc);
  intros c Hc; try (apply elem_of_app in Hc as [Hc|Hc]);
  eauto using slice_elem_of.
Qed.

Lemma family_op_frame (a : op) (w : world) :
  isApply a = false ->
  options (family (final (run a w))) = options (family w) /\
  next (final (run a w)) = next w /\
  (forall c, c ∈ children (family (final (run a w))) -> c ∈ children (family w)) /\
  forall p,
    Labels <$> heap (final (run a w)) !! p = Labels <$> heap w !! p /\
    counter_fingerprint <$> heap (final (run a w)) !! p
      = counter_fingerprint <$> heap w !! p.
Proof.
  assert (Hupd : forall c g,
    (forall cv, Labels (g cv) = Labels cv) ->
    (forall cv, counter_fingerprint (g cv) = counter_fingerprint cv) ->
    options (family (final (update c g w))) = options (family w) /\
    next (final (update c g w)) = next w /\
    (forall c', c' ∈ children (family (final (update c g w))) ->
                c' ∈ children (family w)) /\
    forall p,
      Labels <$> heap (final (update c g w)) !! p = Labels <$> heap w !! p /\
      counter_fingerprint <$> heap (final (update c g w)) !! p
        = counter_fingerprint <$> heap w !! p).
  { intros c g HL HF. destruct (update_frame c g w HL HF) as (Hf & Hn & Hh).
    rewrite Hf. auto. }
  destruct a; try discriminate; intros _; simpl;
    try (apply Hupd; reflexivity).
  - unfold counter_Forget, bind, deref.
    destruct (heap w !! c) as [cv|]; [|simpl; auto].
    destruct (forget_frame (counter_fingerprint cv) w) as (Ho & Hn & Hh & Hc).
    rewrite Ho, Hn, Hh. auto.
  - split; [reflexivity|]. split; [reflexivity|]. split; [|auto].
    intros c Hc. inversion Hc.
  - unfold counterFamily_ResetAll.
    destruct (ResetAll_loop_frame (children (family w)) w) as (Hf & Hn & Hh).
    rewrite Hf. auto.
Qed.

Lemma view_absorb (st : store) (w : world) :
  next w = nextCounter st ->
  (forall p,
     Labels <$> heap w !! p = Labels <$> heap (view st) !! p /\
     counter_fingerprint <$> heap w !! p
       = counter_fingerprint <$> heap (view st) !! p) ->
  view (absorb st w) = w.
Proof.
  intros Hn Hh. destruct w as [h n f]. unfold view, absorb. simpl in *.
  subst n. f_equal. apply map_eq. intros c. specialize (Hh c).
  rewrite !lookup_fmap, map_lookup_imap in *.
  destruct (counters st !! c) as [cs|]; simpl in *.
  - destruct (h !! c) as [[L v k]|]; simpl in *; [|destruct Hh; discriminate].
    destruct Hh as [[= ->] [= ->]]. reflexivity.
  - destruct (h !! c); simpl in *; [destruct Hh; discriminate|reflexivity].
Qed.

(** *** The store stays valid *)

Lemma StronglySorted_take {A} (R : relation A) (n : nat) (l : list A) :
  StronglySorted R l -> StronglySorted R (take n l).
Proof.
  intros Hl. revert n. induction Hl as [|x l Hl IH Hall]; intros [|n]; simpl;
    try constructor; [apply IH|].
  apply Forall_forall. intros y Hy. rewrite Forall_forall in Hall.
  apply Hall. eapply subseteq_take, Hy.
Qed.

Lemma storeValid_arrays (o : CounterOptions) (st : store) :
  storeValid o st ->
  (forall p s, partials st !! p = Some s -> (header_array s < nextArray st)%nat) /\
  (forall c cs, counters st !! c = Some cs ->
     (header_array (struct_Labels cs) < nextArray st)%nat).
Proof.
  intros (_ & HA & HP & _ & HC & _). split.
  - intros p s Hp. destruct (HP p s Hp) as (a & Ha & _). apply HA. eauto.
  - intros c cs Hc. destruct (HC c cs Hc) as (a & Ha & _). apply HA. eauto.
Qed.

Section Preservation.
Variable growslice : nat -> nat.

Lemma appended_elements (s s' t : sliceHeader) (l : labelPairs) (st st' : store) :
  appended s l st s' st' ->
  is_Some (arrays st !! header_array t) ->
  (header_array t <> header_array s \/ (header_len t <= header_len s)%nat) ->
  elements st' t = elements st t.
Proof.
  intros (_ & _ & _ & _ & _ & _ & _ & _ & _ & _ & _ & K) [a0 Ha0] Hcase.
  destruct (K _ a0 Ha0) as (a1 & Ha1 & _ & Hne & Htake).
  unfold elements. rewrite Ha0, Ha1. simpl.
  destruct Hcase as [Hd|Hle]; [now rewrite (Hne Hd)|].
  assert (Hmin : header_len t = Nat.min (header_len t) (header_len s)) by lia.
  rewrite Hmin, <- !take_take. now rewrite Htake.
Qed.

(** After a run of [append]s on the slice [s], the result stored as the
    labels of the partial [p]: [s] was the slice of [p], or a new one. *)
Lemma storeValid_appended (o : CounterOptions) (st st' : store)
    (s s' : sliceHeader) (l : labelPairs) (p n : ploc) :
  storeValid o st ->
  appended s l st s' st' ->
  (forall q t, q <> p -> partials st !! q = Some t ->
               header_array t <> header_array s) ->
  (forall c cs, counters st !! c = Some cs ->
     header_array (struct_Labels cs) = header_array s ->
     (header_len (struct_Labels cs) <= header_len s)%nat) ->
  storeValid o
    {| arrays := arrays st'; nextArray := nextArray st';
       partials := <[p := s']> (partials st'); nextPartial := n;
       counters := counters st'; nextCounter := nextCounter st';
       store_family := store_family st' |}.
Proof.
  intros Hv Happ H1 H2.
  pose proof (storeValid_arrays o st Hv) as [HPb HCb].
  destruct Hv as (Ho & HA & HP & HPI & HC & HD & HK).
  pose proof Happ as (P & NP & C & NC & F & N & A' & S' & E & L & W & K).
  assert (Hel : forall c cs, counters st !! c = Some cs ->
            elements st' (struct_Labels cs) = elements st (struct_Labels cs)).
  { intros c cs Hc. apply (appended_elements s s' _ l st st' Happ).
    - destruct (HC c cs Hc) as (a & Ha & _). eauto.
    - destruct (decide (header_array (struct_Labels cs) = header_array s));
        [right; eauto|now left]. }
  unfold storeValid; simpl. rewrite P, C, F.
  split; [exact Ho|]. split; [exact A'|]. split; [|split; [|split; [|split]]].
  - intros q t. destruct (decide (p = q)) as [<-|Hne].
    + rewrite lookup_insert_eq. intros [= <-]. exact S'.
    + rewrite lookup_insert_ne by exact Hne. intros Hq.
      destruct (HP q t Hq) as (a & Ha & Hlen & Hle).
      destruct (K _ a Ha) as (a1 & Ha1 & Hl1 & Hne1 & _).
      exists a1. split; [exact Ha1|]. split; [congruence|exact Hle].
  - assert (Hfresh : forall q t, q <> p -> partials st !! q = Some t ->
              header_array s' <> header_array t).
    { intros q t Hq Ht Heq. destruct W as [W|W].
      - apply (H1 q t Hq Ht). congruence.
      - specialize (HPb q t Ht). lia. }
    intros q1 q2 t1 t2.
    destruct (decide (p = q1)) as [<-|Hn1], (decide (p = q2)) as [<-|Hn2];
      rewrite ?lookup_insert_eq, ?lookup_insert_ne by assumption; auto.
    + intros [= <-] Ht2 Heq. destruct (Hfresh q2 t2 (not_eq_sym Hn2) Ht2 Heq).
    + intros Ht1 [= <-] Heq.
      destruct (Hfresh q1 t1 (not_eq_sym Hn1) Ht1 (eq_sym Heq)).
    + intros Ht1 Ht2. eauto.
  - intros c cs Hc. destruct (HC c cs Hc) as (a & Ha & Hle & Hdims & Hcan).
    destruct (K _ a Ha) as (a1 & Ha1 & Hl1 & _).
    exists a1. split; [exact Ha1|]. split; [lia|]. split; [exact Hdims|].
    change (canonical (elements st' (struct_Labels cs))).
    now rewrite (Hel c cs Hc).
  - intros c cs q t Hc. destruct (decide (p = q)) as [<-|Hne].
    + rewrite lookup_insert_eq. intros [= <-] Heq. destruct W as [W|W].
      * rewrite W in Heq. specialize (H2 c cs Hc Heq). lia.
      * specialize (HCb c cs Hc). lia.
    + rewrite lookup_insert_ne by exact Hne. eauto.
  - exact HK.
Qed.

Lemma storeValid_newArray (o : CounterOptions) (st : store) (a : list labelPair) :
  storeValid o st -> storeValid o (newArray a st).2.
Proof.
  intros Hv. pose proof (storeValid_arrays o st Hv) as [HPb HCb].
  destruct Hv as (Ho & HA & HP & HPI & HC & HD & HK).
  unfold newArray, storeValid, partialSlice, elements, arraysBelowNext; simpl.
  split; [exact Ho|]. split; [|split; [|split; [exact HPI|split; [|split]]]].
  - intros b Hb. destruct (decide (nextArray st = b)) as [<-|Hne]; [lia|].
    rewrite lookup_insert_ne in Hb by exact Hne. apply HA in Hb. lia.
  - intros p s Hp. specialize (HPb p s Hp).
    rewrite lookup_insert_ne by lia. exact (HP p s Hp).
  - intros c cs Hc. specialize (HCb c cs Hc).
    rewrite lookup_insert_ne by lia. exact (HC c cs Hc).
  - exact HD.
  - exact HK.
Qed.

Lemma storeValid_With (o : CounterOptions) (st : store) (p : ploc)
    (ls : list string) :
  storeValid o st -> storeValid o (final (store_With growslice p ls st)).
Proof.
  intros Hv. unfold store_With.
  destruct (partials st !! p) as [s|] eqn:Hp; [|exact Hv].
  destruct (odd_len ls); [exact Hv|].
  pose proof Hv as (Ho & HA & HP & HPI & HC & HD & HK).
  pose proof (appendAll_appended growslice (pairUp ls) s st HA (HP p s Hp)) as Happ.
  destruct (appendAll growslice s (pairUp ls) st) as [s' st']. simpl in *.
  apply (storeValid_appended o st st' s s' (pairUp ls) p _ Hv Happ).
  - intros q t Hq Ht Heq. apply Hq. symmetry. eauto.
  - intros c cs Hc Heq. eauto.
Qed.

Lemma storeValid_NewChild (o : CounterOptions) (st : store) (ls : list string) :
  storeValid o st -> storeValid o (final (store_NewChild growslice ls st)).
Proof.
  intros Hv. unfold store_NewChild. destruct (odd_len ls); [exact Hv|].
  pose proof (storeValid_arrays o st Hv) as [HPb HCb].
  unfold newArray, newPartial.
  match goal with
  | |- context [appendAll _ ?s0 _ ?x] => set (s := s0); set (st0 := x)
  end.
  assert (Hv0 : storeValid o st0) by exact (storeValid_newArray o st [] Hv).
  assert (Hs : partialSlice st0 s).
  { exists []. simpl. rewrite lookup_insert_eq. auto. }
  pose proof Hv0 as (_ & HA0 & _).
  pose proof (appendAll_appended growslice (pairUp ls) s st0 HA0 Hs) as Happ.
  destruct (appendAll growslice s (pairUp ls) st0) as [s' st']. simpl.
  apply (storeValid_appended o st0 st' s s' (pairUp ls) _ _ Hv0 Happ).
  - intros q t _ Ht. simpl in *. specialize (HPb q t Ht). lia.
  - intros c cs Hc. simpl in *. specialize (HCb c cs Hc). lia.
Qed.

Lemma storeValid_Clone (o : CounterOptions) (st : store) (p : ploc) :
  storeValid o st -> storeValid o (final (store_Clone p st)).
Proof.
  intros Hv. unfold store_Clone.
  destruct (partials st !! p) as [s|] eqn:Hp; [|exact Hv].
  pose proof (storeValid_arrays o st Hv) as [HPb HCb].
  pose proof Hv as (_ & _ & HP & _).
  destruct (HP p s Hp) as (a & Ha & Hlen & Hle).
  pose proof (storeValid_newArray o st (elements st s) Hv) as Hv0.
  unfold newArray, newPartial in *. simpl in *.
  match type of Hv0 with storeValid _ ?x => set (st0 := x) in * end.
  set (t := {| header_array := nextArray st; header_len := header_len s;
               header_cap := header_len s |}).
  assert (Ht : partialSlice st0 t).
  { exists (elements st s). simpl. rewrite lookup_insert_eq.
    split; [reflexivity|]. split; [|lia].
    apply (elements_length st s a Ha). lia. }
  pose proof Hv0 as (_ & HA0 & _).
  apply (storeValid_appended o st0 st0 t t [] _ _ Hv0 (appended_nil t st0 HA0 Ht)).
  - intros q u _ Hu. simpl in *. specialize (HPb q u Hu). lia.
  - intros c cs Hc. simpl in *. specialize (HCb c cs Hc). lia.
Qed.

End Preservation.

Lemma elements_assign (st : store) (s : sliceHeader) (l : labelPairs)
    (a : list labelPair) :
  arrays st !! header_array s = Some a ->
  length l = header_len s ->
  arrays (assign s l st) = <[header_array s := l ++ drop (header_len s) a]> (arrays st) /\
  elements (assign s l st) s = l /\
  forall t,
    elements (assign s l st) t =
    if decide (header_array t = header_array s)
    then take (header_len t) (l ++ drop (header_len s) a)
    else elements st t.
Proof.
  intros Ha Hl. unfold assign. rewrite Ha, Hl.
  split; [reflexivity|]. unfold elements. simpl. split.
  - rewrite lookup_insert_eq. simpl. now apply take_app_length'.
  - intros t. destruct (decide (header_array t = header_array s)) as [->|Hne].
    + now rewrite lookup_insert_eq.
    + now rewrite lookup_insert_ne by auto.
Qed.

Lemma storeValid_assign (o : CounterOptions) (st : store) (p : ploc)
    (s : sliceHeader) :
  storeValid o st -> partials st !! p = Some s ->
  storeValid o (assign s (canonicalize (elements st s)) st).
Proof.
  intros Hv Hp. pose proof Hv as (Ho & HA & HP & HPI & HC & HD & HK).
  destruct (HP p s Hp) as (a & Ha & Hlen & Hle).
  assert (Hl : length (canonicalize (elements st s)) = header_len s).
  { rewrite (Permutation_length (canonicalize_Permutation _)).
    apply (elements_length st s a Ha). lia. }
  destruct (elements_assign st s _ a Ha Hl) as (Harr & _ & Hel).
  set (st1 := assign s (canonicalize (elements st s)) st) in *.
  assert (Hsame : partials st1 = partials st /\ counters st1 = counters st /\
                  store_family st1 = store_family st /\
                  nextArray st1 = nextArray st).
  { unfold st1, assign. rewrite Ha. auto. }
  destruct Hsame as (HPs & HCs & HFs & HNs).
  assert (Hlook : forall b a0, arrays st !! b = Some a0 ->
            exists a1, arrays st1 !! b = Some a1 /\ length a1 = length a0).
  { intros b a0 Hb. rewrite Harr.
    destruct (decide (header_array s = b)) as [<-|Hne].
    - rewrite lookup_insert_eq. eexists. split; [reflexivity|].
      rewrite Ha in Hb. injection Hb as <-.
      rewrite length_app, length_drop, Hl. lia.
    - rewrite lookup_insert_ne by exact Hne. eauto. }
  unfold storeValid. rewrite HPs, HCs, HFs.
  split; [exact Ho|]. split; [|split; [|split; [exact HPI|split; [|split]]]].
  - intros b Hb. rewrite HNs. apply HA. rewrite Harr in Hb.
    destruct (decide (header_array s = b)) as [<-|Hne]; [eauto|].
    now rewrite lookup_insert_ne in Hb.
  - intros q t Hq. destruct (HP q t Hq) as (a0 & Ha0 & Hlen0 & Hle0).
    destruct (Hlook _ a0 Ha0) as (a1 & Ha1 & Hl1).
    exists a1. split; [exact Ha1|]. split; [congruence|exact Hle0].
  - intros c cs Hc. destruct (HC c cs Hc) as (a0 & Ha0 & Hle0 & Hdims & Hcan).
    destruct (Hlook _ a0 Ha0) as (a1 & Ha1 & Hl1).
    exists a1. split; [exact Ha1|]. split; [lia|]. split; [exact Hdims|].
    rewrite Hel. destruct (decide _) as [Heq|Hne]; [|exact Hcan].
    specialize (HD c cs p s Hc Hp Heq).
    rewrite take_app_le by lia.
    apply StronglySorted_take, canonicalize_canonical.
  - exact HD.
  - exact HK.
Qed.

Lemma storeValid_newCounter (o : CounterOptions) (st : store) (p : ploc)
    (s : sliceHeader) (v : float) (k : Z) :
  storeValid o st -> partials st !! p = Some s ->
  header_len s = length (Dimensions (CounterOptions_MetricOptions o)) ->
  canonical (elements st s) ->
  storeValid o
    (newCounter {| struct_Labels := s; struct_Value := v;
                   struct_fingerprint := k |} st).2.
Proof.
  intros (Ho & HA & HP & HPI & HC & HD & HK) Hp Hdims Hcan.
  destruct (HP p s Hp) as (a & Ha & Hlen & Hle).
  unfold newCounter, storeValid; simpl.
  split; [exact Ho|]. split; [exact HA|]. split; [exact HP|].
  split; [exact HPI|]. split; [|split].
  - intros c cs. destruct (decide (nextCounter st = c)) as [<-|Hne].
    + rewrite lookup_insert_eq. intros [= <-]. simpl.
      exists a. split; [exact Ha|]. split; [lia|]. split; [exact Hdims|exact Hcan].
    + rewrite lookup_insert_ne by exact Hne. apply HC.
  - intros c cs q t. destruct (decide (nextCounter st = c)) as [<-|Hne].
    + rewrite lookup_insert_eq. intros [= <-] Hq Heq. simpl in *.
      assert (p = q) as <- by eauto. rewrite Hp in Hq. injection Hq as <-. lia.
    + rewrite lookup_insert_ne by exact Hne. apply HD.
  - intros c Hc. destruct (decide (nextCounter st = c)) as [<-|Hne].
    + rewrite lookup_insert_eq. eauto.
    + rewrite lookup_insert_ne by exact Hne. auto.
Qed.

Lemma storeValid_set_family (o : CounterOptions) (st : store) (f : counterFamily) :
  storeValid o st -> options f = o ->
  (forall c, c ∈ children f -> is_Some (counters st !! c)) ->
  storeValid o (set_store_family st f).
Proof.
  intros (Ho & HA & HP & HPI & HC & HD & HK) Hof Hch.
  unfold storeValid. simpl. auto 10.
Qed.

Lemma storeValid_absorb (o : CounterOptions) (st : store) (w : world) :
  storeValid o st -> options (family w) = o ->
  (forall c, c ∈ children (family w) -> is_Some (counters st !! c)) ->
  storeValid o (absorb st w).
Proof.
  intros (Ho & HA & HP & HPI & HC & HD & HK) Hof Hch.
  assert (Hlook : forall c cs, counters (absorb st w) !! c = Some cs ->
            exists cs0, counters st !! c = Some cs0 /\
                        struct_Labels cs = struct_Labels cs0).
  { intros c cs. unfold absorb. simpl. rewrite map_lookup_imap.
    destruct (counters st !! c) as [cs0|]; simpl; [|discriminate].
    intros [= <-]. exists cs0. split; [reflexivity|].
    destruct (heap w !! c); reflexivity. }
  unfold storeValid.
  split; [exact Hof|]. split; [exact HA|]. split; [exact HP|].
  split; [exact HPI|]. split; [|split].
  - intros c cs Hc. destruct (Hlook c cs Hc) as (cs0 & Hc0 & ->).
    exact (HC c cs0 Hc0).
  - intros c cs q t Hc. destruct (Hlook c cs Hc) as (cs0 & Hc0 & ->).
    exact (HD c cs0 q t Hc0).
  - intros c Hc. destruct (Hch c Hc) as [cs Hcs].
    unfold absorb. simpl. rewrite map_lookup_imap, Hcs. simpl. eauto.
Qed.

Lemma view_heap_is_Some (st : store) (c : loc) :
  is_Some (heap (view st) !! c) <-> is_Some (counters st !! c).
Proof. unfold view. simpl. rewrite lookup_fmap. apply fmap_is_Some. Qed.

Lemma storeValid_onFamily (o : CounterOptions) (st : store) (a : op) :
  isApply a = false ->
  storeValid o st -> storeValid o (final (onFamily (run a) st)).
Proof.
  intros Ha Hv. destruct (family_op_frame a (view st) Ha) as (Ho & _ & Hch & _).
  assert (Hgoal : storeValid o (absorb st (final (run a (view st))))).
  { pose proof Hv as (Ho' & _ & _ & _ & _ & _ & HK).
    apply storeValid_absorb; [exact Hv|rewrite Ho; exact Ho'|].
    intros c Hc. apply HK. exact (Hch c Hc). }
  unfold onFamily. destruct (run a (view st)); exact Hgoal.
Qed.

Lemma storeValid_Apply (o : CounterOptions) (st : store) (p : ploc) :
  storeValid o st -> storeValid o (final (store_Apply p st)).
Proof.
  intros Hv. unfold store_Apply.
  destruct (partials st !! p) as [s|] eqn:Hp; [|exact Hv].
  pose proof (storeValid_assign o st p s Hv Hp) as Hv1.
  pose proof Hv as (_ & _ & HP & _).
  destruct (HP p s Hp) as (a & Ha & Hlen & Hle).
  assert (Hl : length (canonicalize (elements st s)) = header_len s).
  { rewrite (Permutation_length (canonicalize_Permutation _)).
    apply (elements_length st s a Ha). lia. }
  destruct (elements_assign st s _ a Ha Hl) as (_ & Hels & _).
  set (sorted := canonicalize (elements st s)) in *.
  set (st1 := assign s sorted st) in *.
  assert (Hp1 : partials st1 !! p = Some s).
  { unfold st1, assign. now rewrite Ha. }
  destruct (counterFamily_find _ (view st1)) as [[c|] w|e w]; [exact Hv1| |exact Hv1].
  destruct (counterPartial_validate _ sorted) as [[]|e] eqn:Hval; [|exact Hv1].
  pose proof Hv1 as (Ho1 & _).
  apply validate_ok in Hval. rewrite Ho1 in Hval.
  pose proof (storeValid_newCounter o st1 p s
                (DefaultValue (options (store_family st1)))
                (labelPairs_fingerprint sorted) Hv1 Hp1) as Hv2.
  unfold newCounter in *. simpl in Hv2.
  match type of Hv2 with _ -> _ -> storeValid _ ?x => set (st2 := x) in * end.
  assert (Hv2' : storeValid o st2).
  { apply Hv2.
    - destruct Hval as [Hlen' _]. lia.
    - rewrite Hels. apply canonicalize_canonical. }
  clear Hv2. simpl.
  assert (Hgoal : storeValid o
            (set_store_family st2
               (family (final (counterFamily_register (nextCounter st1) (view st2)))))).
  { apply storeValid_set_family; [exact Hv2'| |].
    - destruct (register_frame (view st2) (nextCounter st1)) as [-> _].
      exact Ho1.
    - intros c Hc. rewrite register_children in Hc.
      apply elem_of_app in Hc as [Hc|Hc%list_elem_of_singleton].
      + destruct Hv2' as (_ & _ & _ & _ & _ & _ & HK). apply HK. exact Hc.
      + subst c. unfold st2. simpl. rewrite lookup_insert_eq. eauto. }
  destruct (counterFamily_register (nextCounter st1) (view st2)); exact Hgoal.
Qed.

Lemma storeValid_run (growslice : nat -> nat) (o : CounterOptions) (st : store)
    (a : storeOp) :
  storeValid o st -> storeValid o (final (store_run growslice a st)).
Proof.
  intros Hv. destruct a as [ls|p ls|p|p|a]; simpl.
  - unfold bind. pose proof (storeValid_NewChild growslice o st ls Hv).
    destruct (store_NewChild growslice ls st); assumption.
  - now apply storeValid_With.
  - unfold bind. pose proof (storeValid_Clone o st p Hv).
    destruct (store_Clone p st); assumption.
  - unfold bind. pose proof (storeValid_Apply o st p Hv).
    destruct (store_Apply p st); assumption.
  - destruct a; try (apply storeValid_onFamily; [reflexivity|exact Hv]).
    unfold bind.
    pose proof (storeValid_NewChild growslice o st (flatten (labels p)) Hv) as H1.
    destruct (store_NewChild growslice (flatten (labels p)) st) as [q st1|e st1];
      simpl in *; [|exact H1].
    pose proof (storeValid_Apply o st1 q H1).
    destruct (store_Apply q st1); assumption.
Qed.

Lemma newStore_storeValid (o : CounterOptions) :
  storeValid o (newStore (counterFamily_literal o)).
Proof.
  unfold storeValid, newStore, arraysBelowNext; simpl.
  split; [reflexivity|]. split; [intros b [? [=]]|].
  split; [intros p s; rewrite lookup_empty; discriminate|].
  split; [intros p q s t; rewrite lookup_empty; discriminate|].
  split; [intros c cs; rewrite lookup_empty; discriminate|].
  split; [intros c cs p s; rewrite lookup_empty; discriminate|].
  intros c Hc. inversion Hc.
Qed.

Lemma reachableStore_storeValid (growslice : nat -> nat) (o : CounterOptions)
    (st : store) :
  reachableStore growslice o st -> storeValid o st.
Proof.
  induction 1; [apply newStore_storeValid|now apply storeValid_run].
Qed.

Lemma view_ext (st st' : store) :
  counters st' = counters st -> nextCounter st' = nextCounter st ->
  store_family st' = store_family st ->
  (forall c cs, counters st !! c = Some cs ->
     elements st' (struct_Labels cs) = elements st (struct_Labels cs)) ->
  view st' = view st.
Proof.
  intros HC HN HF Hel. unfold view. rewrite HC, HN, HF. f_equal.
  apply map_eq. intros c. rewrite !lookup_fmap.
  destruct (counters st !! c) as [cs|] eqn:E; simpl; [|reflexivity].
  unfold materialize. now rewrite (Hel c cs E).
Qed.

Lemma canonicalize_canonical_id (l : labelPairs) :
  canonical l -> canonicalize l = l.
Proof.
  intros Hl. apply canonical_unique;
    [apply canonicalize_canonical|exact Hl|apply canonicalize_Permutation].
Qed.

Lemma assign_elements_id (st : store) (s : sliceHeader) :
  assign s (elements st s) st = st.
Proof.
  unfold assign, elements. destruct (arrays st !! header_array s) as [a|] eqn:Ha;
    [|reflexivity].
  simpl. rewrite length_take.
  replace (take (header_len s) a ++ drop (header_len s `min` length a) a) with a.
  - unfold set_arrays. rewrite insert_id by exact Ha. now destruct st.
  - destruct (Nat.le_gt_cases (header_len s) (length a)).
    + rewrite Nat.min_l by lia. symmetry. apply take_drop.
    + rewrite Nat.min_r by lia. rewrite take_ge, drop_all by lia.
      symmetry. apply app_nil_r.
Qed.

(** [Apply] on the partial [p], against [Apply] of its labels taken as a
    value on the family as the sorting has left it. *)
Lemma store_Apply_agree (o : CounterOptions) (st : store) (p : ploc)
    (s : sliceHeader) :
  storeValid o st -> partials st !! p = Some s ->
  agree (counterPartial_Apply {| labels := elements st s |}
           (view (assign s (canonicalize (elements st s)) st)))
        (store_Apply p st).
Proof.
  intros Hv Hp. unfold store_Apply. rewrite Hp.
  pose proof Hv as (_ & _ & HP & _).
  destruct (HP p s Hp) as (a & Ha & Hlen & Hle).
  assert (Hl : length (canonicalize (elements st s)) = header_len s).
  { rewrite (Permutation_length (canonicalize_Permutation _)).
    apply (elements_length st s a Ha). lia. }
  destruct (elements_assign st s _ a Ha Hl) as (_ & Hels & _).
  set (st1 := assign s (canonicalize (elements st s)) st) in *.
  unfold counterPartial_Apply, bind. simpl labels.
  unfold counterFamily_find at 1 2.
  change (family (view st1)) with (store_family st1).
  destruct (childrenSet (store_family st1)
              !! labelPairs_fingerprint (canonicalize (elements st s)))
    as [i|]; [destruct (index _ i); simpl; auto|].
  cbv beta iota. cbn [labels].
  change (family (view st1)) with (store_family st1).
  unfold lift.
  destruct (counterPartial_validate _ (canonicalize (elements st s)))
    as [[]|e]; [|simpl; auto].
  unfold ret, throw, alloc, newCounter. simpl.
  match goal with
  | |- context [counterFamily_register _ (view ?x)] => set (st2 := x)
  end.
  match goal with
  | |- agree (match counterFamily_register _ ?x with _ => _ end) _ =>
    assert (Hview : x = view st2)
  end.
  { unfold view, st2. simpl. f_equal. rewrite fmap_insert. f_equal.
    unfold materialize. simpl. f_equal. symmetry. exact Hels. }
  rewrite Hview.
  pose proof (register_heap (view st2) (nextCounter st1)) as Hh.
  destruct (register_frame (view st2) (nextCounter st1)) as [_ Hn].
  destruct (counterFamily_register (nextCounter st1) (view st2)) as [[] w|e w];
    simpl in *; (split; [reflexivity|]); destruct w as [h n f]; simpl in *;
    subst h n; reflexivity.
Qed.

(** A panicking [Apply] has sorted the labels of the partial and done
    nothing else. *)
Lemma store_Apply_panic (o : CounterOptions) (st st' : store) (p : ploc)
    (e : panic) :
  storeValid o st -> store_Apply p st = Panic e st' ->
  (partials st !! p = None /\ e = NilDereference /\ st' = st) \/
  exists s,
    partials st !! p = Some s /\
    st' = assign s (canonicalize (elements st s)) st /\
    (isValidationError e = true \/
     e = IndexOutOfRange /\
     exists i,
       childrenSet (store_family st)
         !! labelPairs_fingerprint (canonicalize (elements st s)) = Some i /\
       index (children (store_family st)) i = None).
Proof.
  intros Hv. unfold store_Apply.
  destruct (partials st !! p) as [s|] eqn:Hp; [|intros [= <- <-]; auto].
  intros HA. right. exists s. split; [reflexivity|].
  pose proof (storeValid_assign o st p s Hv Hp) as Hv1.
  pose proof Hv as (_ & _ & HP & _).
  destruct (HP p s Hp) as (a & Ha & Hlen & Hle).
  assert (Hl : length (canonicalize (elements st s)) = header_len s).
  { rewrite (Permutation_length (canonicalize_Permutation _)).
    apply (elements_length st s a Ha). lia. }
  destruct (elements_assign st s _ a Ha Hl) as (_ & Hels & _).
  set (sorted := canonicalize (elements st s)) in *.
  set (st1 := assign s sorted st) in *.
  assert (Hfam : store_family st1 = store_family st).
  { unfold st1, assign. now rewrite Ha. }
  assert (Hp1 : partials st1 !! p = Some s).
  { unfold st1, assign. now rewrite Ha. }
  unfold counterFamily_find in HA.
  change (family (view st1)) with (store_family st1) in HA.
  rewrite Hfam in HA.
  destruct (childrenSet (store_family st) !! labelPairs_fingerprint sorted)
    as [i|] eqn:Hset.
  { destruct (index (children (store_family st)) i) eqn:Hi; [discriminate|].
    injection HA as <- <-. split; [reflexivity|]. right.
    split; [reflexivity|]. eauto. }
  destruct (counterPartial_validate _ sorted) as [[]|e0] eqn:Hval.
  2:{ injection HA as <- <-. split; [reflexivity|]. left.
      now apply validate_raises in Hval. }
  exfalso. unfold newCounter in HA. simpl in HA.
  match type of HA with
  | context [counterFamily_register _ (view ?x)] => set (st2 := x) in *
  end.
  pose proof Hv1 as (Ho1 & _). rewrite <- Hfam in Hval.
  apply validate_ok in Hval. rewrite Ho1 in Hval.
  assert (Hv2 : storeValid o st2).
  { apply (storeValid_newCounter o st1 p s _ _ Hv1 Hp1).
    - destruct Hval as [Hlen' _]. lia.
    - rewrite Hels. apply canonicalize_canonical. }
  destruct (register_returns (view st2) (nextCounter st1)
              (length (Dimensions (CounterOptions_MetricOptions o))))
    as [w Hw].
  - destruct Hv2 as (_ & _ & _ & _ & HC & _ & HK).
    assert (Hin : forall c, is_Some (counters st2 !! c) ->
              exists ca, heap (view st2) !! c = Some ca /\
                length (Labels ca)
                = length (Dimensions (CounterOptions_MetricOptions o))).
    { intros c [cs Hc]. exists (materialize st2 cs). split.
      - change (heap (view st2) !! c)
          with ((materialize st2 <$> counters st2) !! c).
        now rewrite lookup_fmap, Hc.
      - destruct (HC c cs Hc) as (a2 & Ha2 & Hle2 & Hd2 & _).
        simpl. rewrite (elements_length st2 _ a2 Ha2 Hle2). exact Hd2. }
    intros c Hc. apply Hin.
    apply elem_of_app in Hc as [Hc|Hc%list_elem_of_singleton].
    + apply HK. exact Hc.
    + subst c. unfold st2. simpl. rewrite lookup_insert_eq. eauto.
  - rewrite Hw in HA. discriminate.
Qed.

Lemma view_assign_unshared (st : store) (s : sliceHeader) (l : labelPairs) :
  (forall c cs, counters st !! c = Some cs ->
     header_array (struct_Labels cs) <> header_array s) ->
  view (assign s l st) = view st.
Proof.
  intros Hfresh. unfold assign.
  destruct (arrays st !! header_array s) as [a|]; [|reflexivity].
  apply view_ext; try reflexivity.
  intros c cs Hc. unfold elements. simpl.
  rewrite lookup_insert_ne; [reflexivity|].
  intros Heq. exact (Hfresh c cs Hc (eq_sym Heq)).
Qed.

Section Refinement.
Variable growslice : nat -> nat.

(** [NewChild] returns a partial whose labels are the pairs of the
    strings, in an array no counter has, and leaves the family and the
    counters alone. *)
Lemma store_NewChild_fresh (o : CounterOptions) (st : store) (ls : list string) :
  storeValid o st -> odd_len ls = false ->
  exists (p : ploc) (s : sliceHeader) (st' : store),
    store_NewChild growslice ls st = Ok p st' /\
    partials st' !! p = Some s /\
    elements st' s = pairUp ls /\
    view st' = view st /\
    (forall c cs, counters st' !! c = Some cs ->
       header_array (struct_Labels cs) <> header_array s).
Proof.
  intros Hv Hodd. unfold store_NewChild. rewrite Hodd.
  pose proof (storeValid_arrays o st Hv) as [HPb HCb].
  unfold newArray, newPartial.
  match goal with
  | |- context [appendAll _ ?s0 _ ?x] => set (s := s0); set (st0 := x)
  end.
  assert (Hv0 : storeValid o st0) by exact (storeValid_newArray o st [] Hv).
  assert (Hs : partialSlice st0 s).
  { exists []. simpl. rewrite lookup_insert_eq. auto. }
  pose proof Hv0 as (_ & HA0 & _ & _ & HC0 & _).
  pose proof (appendAll_appended growslice (pairUp ls) s st0 HA0 Hs) as Happ.
  destruct (appendAll growslice s (pairUp ls) st0) as [s' st'].
  simpl in Happ. simpl.
  pose proof Happ as (P & NP & C & NC & F & N & A' & S' & E & L & W & K).
  eexists _, s', _. split; [reflexivity|]. simpl.
  split; [apply lookup_insert_eq|].
  split.
  { change (elements st' s' = pairUp ls). rewrite E. reflexivity. }
  split.
  { transitivity (view st0).
    - apply view_ext; [exact C|exact NC|exact F|].
      intros c cs Hc.
      change (elements st' (struct_Labels cs) = elements st0 (struct_Labels cs)).
      apply (appended_elements s s' _ (pairUp ls) st0 st' Happ).
      + destruct (HC0 c cs Hc) as (a & Ha & _). eauto.
      + left. simpl. specialize (HCb c cs Hc). lia.
    - apply view_ext; try reflexivity.
      intros c cs Hc. unfold elements, st0. simpl.
      specialize (HCb c cs Hc). now rewrite lookup_insert_ne by lia. }
  intros c cs. rewrite C. intros Hc Heq. simpl in Hc.
  specialize (HCb c cs Hc). simpl in W. destruct W as [W|W]; lia.
Qed.

(** An operation on the family, run on the store, does to the family
    and the counters what it does in the model that takes labels by
    value; [Apply] of a label set is [NewChild(...).Apply()], on a
    partial of its own. *)
Lemma store_run_agree (o : CounterOptions) (st : store) (a : op) :
  storeValid o st ->
  agree (run a (view st)) (store_run growslice (DoFamily a) st).
Proof.
  intros Hv.
  assert (Hother : isApply a = false ->
            agree (run a (view st)) (onFamily (run a) st)).
  { intros Ha. destruct (family_op_frame a (view st) Ha) as (_ & Hn & _ & Hh).
    unfold onFamily.
    destruct (run a (view st)) as [[] w|e w]; simpl in *;
      (split; [reflexivity|]); now apply view_absorb. }
  destruct a; try (apply Hother; reflexivity).
  destruct p as [L]. simpl. unfold bind.
  destruct (store_NewChild_fresh o st (flatten L) Hv (odd_len_flatten L))
    as (q & s & st1 & HN & Hq & Hel & Hview & Hfresh).
  rewrite pairUp_flatten in Hel.
  pose proof (storeValid_NewChild growslice o st (flatten L) Hv) as Hv1.
  rewrite HN in Hv1. simpl in Hv1. rewrite HN.
  pose proof (store_Apply_agree o st1 q s Hv1 Hq) as Hag.
  rewrite (view_assign_unshared st1 s _ Hfresh), Hel, Hview in Hag.
  destruct (counterPartial_Apply {| labels := L |} (view st)) as [c w|e w],
           (store_Apply q st1) as [c' st2|e' st2]; simpl in *; tauto.
Qed.

Lemma store_runAll_agree (o : CounterOptions) (ops : list op) : forall st,
  storeValid o st ->
  view (store_runAll growslice (map DoFamily ops) st) = runAll ops (view st).
Proof.
  induction ops as [|a ops IH]; intros st Hv; [reflexivity|].
  change (view (store_runAll growslice (map DoFamily ops)
                  (final (store_run growslice (DoFamily a) st)))
          = runAll ops (final (run a (view st)))).
  pose proof (store_run_agree o st a Hv) as Hag.
  pose proof (storeValid_run growslice o st (DoFamily a) Hv) as Hv'.
  rewrite (IH _ Hv'). f_equal.
  destruct (run a (view st)), (store_run growslice (DoFamily a) st);
    simpl in *; tauto.
Qed.

End Refinement.

Lemma reachableStore_runAll (growslice : nat -> nat) (o : CounterOptions)
    (ops : list storeOp) : forall st,
  reachableStore growslice o st ->
  reachableStore growslice o (store_runAll growslice ops st).
Proof.
  induction ops as [|a ops IH]; intros st Hr; [exact Hr|].
  simpl. apply IH. now constructor.
Qed.

Lemma view_heap_lookup (st : store) (c : loc) (cv : counter) :
  heap (view st) !! c = Some cv ->
  exists cs, counters st !! c = Some cs /\ cv = materialize st cs.
Proof.
  unfold view. simpl. rewrite lookup_fmap.
  destruct (counters st !! c) as [cs|]; [|discriminate].
  intros [= <-]. eauto.
Qed.

(** In every state of the store that the operations can reach
    ([NewChild], [With], [Clone] and [Apply] on partials that are kept
    and used again, the mutations, [Forget], [ForgetAll], [ResetAll],
    returning or panicking), whatever capacities [append] chooses, the
    options of the family are the declared ones, every child is a
    counter of the store, and every counter has as many label pairs as
    there are dimensions, in ascending order. That the names of the
    pairs are the dimensions, and that the fingerprint of a counter is
    the fingerprint of its labels, is not kept: after
    [p := NewChild("b","1","c","2","d","3"); p.Apply(); p.With("a","0");
     p.Apply()] on a family with the dimensions [b], [c], [d], with
    capacities that double, the counter has the labels [a=0], [b=1],
    [c=2] and the fingerprint it was created with. *)
Theorem store_counters_valid :
  (forall (growslice : nat -> nat) (o : CounterOptions) (st : store),
     reachableStore growslice o st ->
     options (store_family st) = o /\
     (forall c, c ∈ children (store_family st) -> is_Some (heap (view st) !! c)) /\
     (forall c cv, heap (view st) !! c = Some cv ->
        length (Labels cv) = length (Dimensions (CounterOptions_MetricOptions o)) /\
        canonical (Labels cv))) /\
  (let st := final (store_Apply 0%nat reuse_store) in
   reachableStore doubling reuse_options st /\
   exists cv,
     heap (view st) !! 0%nat = Some cv /\
     Labels cv = [ {| Name := "a"; Value := "0" |}; {| Name := "b"; Value := "1" |};
                   {| Name := "c"; Value := "2" |} ] /\
     ~ matchesDimensions
         (Dimensions (CounterOptions_MetricOptions reuse_options)) (Labels cv) /\
     counter_fingerprint cv <> labelPairs_fingerprint (Labels cv)).
Proof.
  split.
  - intros growslice o st Hr.
    destruct (reachableStore_storeValid growslice o st Hr)
      as (Ho & _ & _ & _ & HC & _ & HK).
    split; [exact Ho|]. split.
    + intros c Hc. apply view_heap_is_Some. auto.
    + intros c cv Hcv. apply view_heap_lookup in Hcv as (cs & Hc & ->).
      destruct (HC c cs Hc) as (a & Ha & Hle & Hd & Hcan). simpl.
      split; [|exact Hcan]. now rewrite (elements_length st _ a Ha Hle).
  - intros st. split.
    + apply (reachableStore_step doubling reuse_options reuse_store (DoApply 0%nat)).
      apply reachableStore_runAll. constructor.
    + eexists. split; [vm_compute; reflexivity|]. simpl.
      split; [reflexivity|]. split.
      * intros (_ & _ & Hincl). specialize (Hincl "a").
        assert (H : In "a" ["b"; "c"; "d"]) by (apply Hincl; left; reflexivity).
        simpl in H. intuition discriminate.
      * vm_compute. discriminate.
Qed.

Lemma store_counters_valid_witness :
  let st := store_runAll doubling
              [DoNewChild ["d"; "3"; "b"; "1"; "c"; "2"]; DoApply 0%nat;
               DoClone 0%nat; DoWith 1%nat ["a"; "0"]; DoApply 1%nat;
               DoFamily (OpIncrement 0%nat); DoFamily (OpForget 0%nat)]
              (newStore (counterFamily_literal reuse_options)) in
  reachableStore doubling reuse_options st /\
  options (store_family st) = reuse_options /\
  (forall c, c ∈ children (store_family st) -> is_Some (heap (view st) !! c)) /\
  (forall c cv, heap (view st) !! c = Some cv ->
     length (Labels cv)
     = length (Dimensions (CounterOptions_MetricOptions reuse_options)) /\
     canonical (Labels cv)).
Proof.
  intros st.
  assert (Hr : reachableStore doubling reuse_options st)
    by (apply reachableStore_runAll; constructor).
  split; [exact Hr|].
  exact (proj1 store_counters_valid doubling reuse_options st Hr).
Defined.

(** A panicking [Apply] has sorted the labels of its partial in place
    and has done nothing else. In every state the store can reach, when
    [Apply] on a partial panics, either the partial is nil, or the store
    is the one before with the elements of the partial's slice replaced
    by their ascending arrangement: the family, the index, the partials
    and the values and fingerprints of the counters are as they were.
    The panic is a validation error of the label set, or the index out
    of range of [find] on an entry of the index that points at no child.
    If the labels were in ascending order already, nothing at all has
    changed; if no counter shares the array of the partial, no counter
    has changed. A counter that shares it does change: in the state
    [reuse_store] the second [Apply] of the partial panics with "wrong
    dimensions" and the labels of the counter it had created are
    [a=0], [b=1], [c=2] afterwards, where they were [b=1], [c=2],
    [d=3]. *)
Theorem store_Apply_panic_effect :
  (forall (growslice : nat -> nat) (o : CounterOptions) (st st' : store)
          (p : ploc) (e : panic),
     reachableStore growslice o st ->
     store_Apply p st = Panic e st' ->
     (partials st !! p = None /\ e = NilDereference /\ st' = st) \/
     exists s,
       partials st !! p = Some s /\
       st' = assign s (canonicalize (elements st s)) st /\
       (isValidationError e = true \/
        e = IndexOutOfRange /\
        exists i,
          childrenSet (store_family st)
            !! labelPairs_fingerprint (canonicalize (elements st s)) = Some i /\
          index (children (store_family st)) i = None) /\
       (canonical (elements st s) -> st' = st) /\
       ((forall c cs, counters st !! c = Some cs ->
           header_array (struct_Labels cs) <> header_array s) ->
        view st' = view st)) /\
  (exists st',
     store_Apply 0%nat reuse_store = Panic IllegalLabelsWrongDimensions st' /\
     Labels <$> heap (view reuse_store) !! 0%nat
       = Some [ {| Name := "b"; Value := "1" |}; {| Name := "c"; Value := "2" |};
                {| Name := "d"; Value := "3" |} ] /\
     Labels <$> heap (view st') !! 0%nat
       = Some [ {| Name := "a"; Value := "0" |}; {| Name := "b"; Value := "1" |};
                {| Name := "c"; Value := "2" |} ]).
Proof.
  split.
  - intros growslice o st st' p e Hr HA.
    pose proof (reachableStore_storeValid growslice o st Hr) as Hv.
    destruct (store_Apply_panic o st st' p e Hv HA)
      as [H|(s & Hp & -> & He)]; [left; exact H|].
    right. exists s. split; [exact Hp|]. split; [reflexivity|].
    split; [exact He|]. split.
    + intros Hcan. rewrite (canonicalize_canonical_id _ Hcan).
      apply assign_elements_id.
    + apply view_assign_unshared.
  - eexists. split; [vm_compute; reflexivity|].
    split; vm_compute; reflexivity.
Qed.

Lemma store_Apply_panic_effect_witness :
  let st := reuse_store in
  let st' := final (store_Apply 0%nat reuse_store) in
  reachableStore doubling reuse_options st /\
  store_Apply 0%nat st = Panic IllegalLabelsWrongDimensions st' /\
  ((partials st !! 0%nat = None /\
    IllegalLabelsWrongDimensions = NilDereference /\ st' = st) \/
   exists s,
     partials st !! 0%nat = Some s /\
     st' = assign s (canonicalize (elements st s)) st /\
     (isValidationError IllegalLabelsWrongDimensions = true \/
      IllegalLabelsWrongDimensions = IndexOutOfRange /\
      exists i,
        childrenSet (store_family st)
          !! labelPairs_fingerprint (canonicalize (elements st s)) = Some i /\
        index (children (store_family st)) i = None) /\
     (canonical (elements st s) -> st' = st) /\
     ((forall c cs, counters st !! c = Some cs ->
         header_array (struct_Labels cs) <> header_array s) ->
      view st' = view st)).
Proof.
  intros st st'.
  assert (Hr : reachableStore doubling reuse_options st)
    by (apply reachableStore_runAll; constructor).
  assert (HA : store_Apply 0%nat st = Panic IllegalLabelsWrongDimensions st')
    by (vm_compute; reflexivity).
  split; [exact Hr|]. split; [exact HA|].
  exact (proj1 store_Apply_panic_effect doubling reuse_options st st' 0%nat
           IllegalLabelsWrongDimensions Hr HA).
Defined.

(** [Apply] on a partial of the store does what [Apply] of the partial's
    labels, taken as a value, does on the family in which the sorting of
    the partial's array has been carried out: the same counter or the
    same panic, and the same family and counters afterwards. When no
    counter shares the array of the partial, as for a partial that has
    created no counter, that is the family as it was. *)
Theorem store_Apply_by_value (growslice : nat -> nat) (o : CounterOptions)
    (st : store) (p : ploc) (s : sliceHeader) :
  reachableStore growslice o st ->
  partials st !! p = Some s ->
  agree (counterPartial_Apply {| labels := elements st s |}
           (view (assign s (canonicalize (elements st s)) st)))
        (store_Apply p st) /\
  ((forall c cs, counters st !! c = Some cs ->
      header_array (struct_Labels cs) <> header_array s) ->
   agree (counterPartial_Apply {| labels := elements st s |} (view st))
         (store_Apply p st)).
Proof.
  intros Hr Hp. pose proof (reachableStore_storeValid growslice o st Hr) as Hv.
  pose proof (store_Apply_agree o st p s Hv Hp) as Hag.
  split; [exact Hag|]. intros Hfresh.
  now rewrite (view_assign_unshared st s _ Hfresh) in Hag.
Qed.

Lemma store_Apply_by_value_witness :
  let st := reuse_store in
  let s := {| header_array := 3%nat; header_len := 4; header_cap := 4 |} in
  reachableStore doubling reuse_options st /\
  partials st !! 0%nat = Some s /\
  agree (counterPartial_Apply {| labels := elements st s |}
           (view (assign s (canonicalize (elements st s)) st)))
        (store_Apply 0%nat st) /\
  ((forall c cs, counters st !! c = Some cs ->
      header_array (struct_Labels cs) <> header_array s) ->
   agree (counterPartial_Apply {| labels := elements st s |} (view st))
         (store_Apply 0%nat st)).
Proof.
  intros st s.
  assert (Hr : reachableStore doubling reuse_options st)
    by (apply reachableStore_runAll; constructor).
  assert (Hp : partials st !! 0%nat = Some s) by (vm_compute; reflexivity).
  split; [exact Hr|]. split; [exact Hp|].
  exact (store_Apply_by_value doubling reuse_options st 0%nat s Hr Hp).
Defined.

(** From every state the store can reach, an operation of the family
    or of a counter, and [NewChild(...).Apply()] on a partial of its
    own, returns or panics as in the model that takes labels by value,
    and leaves the family and the counters that model leaves; so every
    sequence of such operations does. *)
Theorem family_operations_by_value (growslice : nat -> nat) (o : CounterOptions)
    (st : store) :
  reachableStore growslice o st ->
  (forall a : op, agree (run a (view st)) (store_run growslice (DoFamily a) st)) /\
  (forall ops : list op,
     view (store_runAll growslice (map DoFamily ops) st) = runAll ops (view st)).
Proof.
  intros Hr. pose proof (reachableStore_storeValid growslice o st Hr) as Hv.
  split.
  - intros a. now apply (store_run_agree growslice o).
  - intros ops. now apply (store_runAll_agree growslice o).
Qed.

Lemma family_operations_by_value_witness :
  let st := reuse_store in
  reachableStore doubling reuse_options st /\
  (forall a : op, agree (run a (view st)) (store_run doubling (DoFamily a) st)) /\
  (forall ops : list op,
     view (store_runAll doubling (map DoFamily ops) st) = runAll ops (view st)).
Proof.
  intros st.
  assert (Hr : reachableStore doubling reuse_options st)
    by (apply reachableStore_runAll; constructor).
  split; [exact Hr|].
  exact (family_operations_by_value doubling reuse_options st Hr).
Defined.

Section Building.
Variable growslice : nat -> nat.

Lemma store_With_appends (o : CounterOptions) (st : store) (p : ploc)
    (s : sliceHeader) (ls : list string) :
  storeValid o st -> partials st !! p = Some s -> odd_len ls = false ->
  exists (s' : sliceHeader) (st' : store),
    store_With growslice p ls st = Ok tt st' /\
    partials st' !! p = Some s' /\
    elements st' s' = elements st s ++ pairUp ls /\
    view st' = view st /\
    forall q t, q <> p -> partials st !! q = Some t ->
      partials st' !! q = Some t /\ elements st' t = elements st t.
Proof.
  intros Hv Hp Hodd. unfold store_With. rewrite Hp, Hodd.
  pose proof Hv as (Ho & HA & HP & HPI & HC & HD & HK).
  pose proof (appendAll_appended growslice (pairUp ls) s st HA (HP p s Hp)) as Happ.
  destruct (appendAll growslice s (pairUp ls) st) as [s' st']. simpl in Happ.
  pose proof Happ as (P & NP & C & NC & F & N & A' & S' & E & L & W & K).
  eexists s', _. split; [reflexivity|]. unfold set_partial. simpl.
  split; [apply lookup_insert_eq|]. split; [exact E|]. split.
  - apply view_ext; [exact C|exact NC|exact F|].
    intros c cs Hc.
    change (elements st' (struct_Labels cs) = elements st (struct_Labels cs)).
    apply (appended_elements s s' _ (pairUp ls) st st' Happ).
    + destruct (HC c cs Hc) as (a & Ha & _). eauto.
    + destruct (decide (header_array (struct_Labels cs) = header_array s));
        [right; eauto|now left].
  - intros q t Hq Ht. rewrite lookup_insert_ne by auto. rewrite P.
    split; [exact Ht|].
    change (elements st' t = elements st t).
    apply (appended_elements s s' _ (pairUp ls) st st' Happ).
    + destruct (HP q t Ht) as (a & Ha & _). eauto.
    + left. intros Heq. apply Hq. eauto.
Qed.

Lemma store_Clone_copies (o : CounterOptions) (st : store) (p : ploc)
    (s : sliceHeader) :
  storeValid o st -> partials st !! p = Some s ->
  exists (t : sliceHeader) (st' : store),
    store_Clone p st = Ok (nextPartial st) st' /\
    partials st' = <[nextPartial st := t]> (partials st) /\
    elements st' t = elements st s /\
    view st' = view st /\
    (forall q u, partials st !! q = Some u ->
       header_array u <> header_array t /\ elements st' u = elements st u) /\
    (forall c cs, counters st' !! c = Some cs ->
       header_array (struct_Labels cs) <> header_array t).
Proof.
  intros Hv Hp. unfold store_Clone. rewrite Hp.
  pose proof (storeValid_arrays o st Hv) as [HPb HCb].
  pose proof Hv as (_ & _ & HP & _).
  destruct (HP p s Hp) as (a & Ha & Hlen & Hle).
  unfold newArray, newPartial. simpl.
  eexists _, _. split; [reflexivity|]. simpl. split; [reflexivity|].
  assert (Hold : forall u, (header_array u < nextArray st)%nat ->
            elements
              {| arrays := <[nextArray st := elements st s]> (arrays st);
                 nextArray := S (nextArray st);
                 partials := <[nextPartial st :=
                               {| header_array := nextArray st;
                                  header_len := header_len s;
                                  header_cap := header_len s |}]> (partials st);
                 nextPartial := S (nextPartial st);
                 counters := counters st; nextCounter := nextCounter st;
                 store_family := store_family st |} u
            = elements st u).
  { intros u Hu. unfold elements. simpl. now rewrite lookup_insert_ne by lia. }
  split.
  { unfold elements at 1. simpl. rewrite lookup_insert_eq. simpl.
    apply take_ge. rewrite (elements_length st s a Ha); lia. }
  split.
  { apply view_ext; try reflexivity. intros c cs Hc. apply Hold. eauto. }
  split.
  - intros q u Hu. specialize (HPb q u Hu). split; [simpl; lia|now apply Hold].
  - intros c cs Hc. specialize (HCb c cs Hc). simpl. lia.
Qed.

End Building.

(** Building partials in the store, in every state it can reach.
    [NewChild] and [With] panic on an odd number of strings and change
    nothing. [NewChild] returns a partial whose labels are the strings
    two by two in the order given, in an array no counter has. [With] on a partial leaves
    it with its labels followed by the pairs of the strings, whether
    [append] has written into the array or moved to a new one, and
    leaves the labels of every other partial and of every counter as
    they were. [Clone] returns a new partial with the same labels in an
    array of its own, which no other partial and no counter has. None
    of the three changes the family or a counter. *)
Theorem store_partials_build (growslice : nat -> nat) (o : CounterOptions)
    (st : store) :
  reachableStore growslice o st ->
  (forall ls,
     if odd_len ls
     then store_NewChild growslice ls st = Panic (IllegalLabelsOdd ls) st
     else
       exists (p : ploc) (s : sliceHeader) (st' : store),
         store_NewChild growslice ls st = Ok p st' /\
         partials st' !! p = Some s /\
         elements st' s = pairUp ls /\
         flatten (elements st' s) = ls /\
         view st' = view st /\
         (forall c cs, counters st' !! c = Some cs ->
            header_array (struct_Labels cs) <> header_array s)) /\
  (forall p s ls,
     partials st !! p = Some s ->
     if odd_len ls
     then store_With growslice p ls st = Panic (IllegalLabelsOdd ls) st
     else
       exists (s' : sliceHeader) (st' : store),
         store_With growslice p ls st = Ok tt st' /\
         partials st' !! p = Some s' /\
         elements st' s' = elements st s ++ pairUp ls /\
         flatten (elements st' s') = flatten (elements st s) ++ ls /\
         view st' = view st /\
         forall q t, q <> p -> partials st !! q = Some t ->
           partials st' !! q = Some t /\ elements st' t = elements st t) /\
  (forall p s,
     partials st !! p = Some s ->
     exists (t : sliceHeader) (st' : store),
       store_Clone p st = Ok (nextPartial st) st' /\
       partials st' = <[nextPartial st := t]> (partials st) /\
       elements st' t = elements st s /\
       view st' = view st /\
       (forall q u, partials st !! q = Some u ->
          header_array u <> header_array t /\ elements st' u = elements st u) /\
       (forall c cs, counters st' !! c = Some cs ->
          header_array (struct_Labels cs) <> header_array t)).
Proof.
  intros Hr. pose proof (reachableStore_storeValid growslice o st Hr) as Hv.
  split; [|split].
  - intros ls. destruct (odd_len ls) eqn:Hodd.
    + unfold store_NewChild. now rewrite Hodd.
    + destruct (store_NewChild_fresh growslice o st ls Hv Hodd)
        as (p & s & st' & Hrun & Hp & Hel & Hrest).
      exists p, s, st'. split; [exact Hrun|]. split; [exact Hp|].
      split; [exact Hel|]. split; [|exact Hrest].
      rewrite Hel. now apply flatten_pairUp_even.
  - intros p s ls Hp. destruct (odd_len ls) eqn:Hodd.
    + unfold store_With. now rewrite Hp, Hodd.
    + destruct (store_With_appends growslice o st p s ls Hv Hp Hodd)
        as (s' & st' & Hrun & Hp' & Hel & Hrest).
      exists s', st'. split; [exact Hrun|]. split; [exact Hp'|].
      split; [exact Hel|]. split; [|exact Hrest].
      rewrite Hel. unfold flatten. rewrite flat_map_app. f_equal.
      now apply flatten_pairUp_even.
  - intros p s Hp. now apply (store_Clone_copies o).
Qed.

Lemma store_partials_build_witness :
  let st := reuse_store in
  reachableStore doubling reuse_options st /\
  (forall ls,
     if odd_len ls
     then store_NewChild doubling ls st = Panic (IllegalLabelsOdd ls) st
     else
       exists (p : ploc) (s : sliceHeader) (st' : store),
         store_NewChild doubling ls st = Ok p st' /\
         partials st' !! p = Some s /\
         elements st' s = pairUp ls /\
         flatten (elements st' s) = ls /\
         view st' = view st /\
         (forall c cs, counters st' !! c = Some cs ->
            header_array (struct_Labels cs) <> header_array s)) /\
  (forall p s ls,
     partials st !! p = Some s ->
     if odd_len ls
     then store_With doubling p ls st = Panic (IllegalLabelsOdd ls) st
     else
       exists (s' : sliceHeader) (st' : store),
         store_With doubling p ls st = Ok tt st' /\
         partials st' !! p = Some s' /\
         elements st' s' = elements st s ++ pairUp ls /\
         flatten (elements st' s') = flatten (elements st s) ++ ls /\
         view st' = view st /\
         forall q t, q <> p -> partials st !! q = Some t ->
           partials st' !! q = Some t /\ elements st' t = elements st t) /\
  (forall p s,
     partials st !! p = Some s ->
     exists (t : sliceHeader) (st' : store),
       store_Clone p st = Ok (nextPartial st) st' /\
       partials st' = <[nextPartial st := t]> (partials st) /\
       elements st' t = elements st s /\
       view st' = view st /\
       (forall q u, partials st !! q = Some u ->
          header_array u <> header_array t /\ elements st' u = elements st u) /\
       (forall c cs, counters st' !! c = Some cs ->
          header_array (struct_Labels cs) <> header_array t)).
Proof.
  intros st.
  assert (Hr : reachableStore doubling reuse_options st)
    by (apply reachableStore_runAll; constructor).
  split; [exact Hr|].
  exact (store_partials_build doubling reuse_options st Hr).
Defined.
